(** * Cross-camera identity correlation: a shallow embedding

    The development follows the Python sources of the vessel tracking
    service:

    - [MCMOT]                 detection_manager/services/mcmot_service.py
    - [VesselMCMOT]           detection_manager/services/vessel_mcmot.py
    - [EventService]          event_manager/services/event_service.py
    - [GridLocationService]   camera_manager/services/utils/grid_location_service.py

    Python dictionaries are finite maps ([gmap]); the per-class gallery is
    an insertion-ordered association list because the matching code
    enumerates it and indexes the enumeration by position.  Exceptions are
    an error monad.  Embeddings and distances are exact rationals standing
    for the float32 values the index computes with. *)

From Stdlib Require Import ZArith QArith Lia Reals Lra Machin.
From stdpp Require Import gmap strings list fin_maps.

Set Default Proof Using "Type".

(** ** Python values shared by the services *)

Inductive exn := KeyError | IndexError | AssertionError | TypeError | ValueError.

Inductive result (A : Type) : Type :=
| Ok (a : A)
| Raise (e : exn).
Arguments Ok {A} a.
Arguments Raise {A} e.

Definition rbind {A B} (r : result A) (k : A → result B) : result B :=
  match r with
  | Ok a => k a
  | Raise e => Raise e
  end.

Notation "'let*' x ':=' r 'in' k" := (rbind r (fun x => k))
  (at level 10, x pattern, r at level 100, k at level 200, only parsing).

(** A camera identifier is whatever the caller passes: the configuration
    uses strings, the base class compares against the integer literal 4. *)
Inductive cam := CamStr (s : string) | CamInt (n : Z).

#[global] Instance cam_eq_dec : EqDecision cam.
Proof. solve_decision. Defined.

#[global] Instance cam_countable : Countable cam.
Proof.
  refine (inj_countable'
            (fun c => match c with CamStr s => inl s | CamInt n => inr n end)
            (fun x => match x with inl s => CamStr s | inr n => CamInt n end) _).
  by intros [].
Defined.

Definition feature := list Q.
Definition bbox := (Z * Z * Z * Z)%type.

(** [d[k]] on a dictionary. *)
Definition dict_get `{Countable K} {V} (d : gmap K V) (k : K) : result V :=
  match d !! k with
  | Some v => Ok v
  | None => Raise KeyError
  end.

(** [cameraId in d and local_id in d[cameraId]], then [d[cameraId][local_id]]. *)
Definition bound_track (d : gmap cam (gmap (option Z) Z)) (cameraId : cam)
    (lid : option Z) : option Z :=
  match d !! cameraId with
  | Some tracks => tracks !! lid
  | None => None
  end.

(** [l[i]] on a Python list: negative positions count from the end. *)
Definition py_index {A} (l : list A) (i : Z) : result A :=
  let n := Z.of_nat (length l) in
  let j := (if i <? 0 then n + i else i)%Z in
  if ((j <? 0) || (n <=? j))%Z then Raise IndexError
  else match l !! Z.to_nat j with
       | Some a => Ok a
       | None => Raise IndexError
       end.

(** *** Insertion-ordered dictionaries *)

Section AList.
Context {K V : Type} `{EqDecision K}.

Fixpoint alist_get (l : list (K * V)) (k : K) : option V :=
  match l with
  | [] => None
  | (k', v) :: l' => if decide (k' = k) then Some v else alist_get l' k
  end.

(** [d[k] = v]: an existing key keeps its position, a new key goes last. *)
Fixpoint alist_set (l : list (K * V)) (k : K) (v : V) : list (K * V) :=
  match l with
  | [] => [(k, v)]
  | (k', v') :: l' =>
      if decide (k' = k) then (k, v) :: l' else (k', v') :: alist_set l' k v
  end.

(** [del d[k]] for a key that is present. *)
Fixpoint alist_del (l : list (K * V)) (k : K) : list (K * V) :=
  match l with
  | [] => []
  | (k', v') :: l' => if decide (k' = k) then l' else (k', v') :: alist_del l' k
  end.

Definition alist_keys (l : list (K * V)) : list K := l.*1.

End AList.

(** *** The flat L2 index ([faiss.IndexFlatL2(512)]) *)

Definition Qltb (a b : Q) : bool := negb (Qle_bool b a).

Definition INDEX_DIM : nat := 512.

(** Squared Euclidean distance, as [IndexFlatL2] reports it. *)
Fixpoint l2sqr (u v : feature) : Q :=
  match u, v with
  | x :: u', y :: v' => ((x - y) * (x - y) + l2sqr u' v')%Q
  | _, _ => 0%Q
  end.

(** The largest float32, which the index reports together with label -1
    when it holds no vector. *)
Definition FLT_MAX : Q := 340282346638528859811704183484516925440 # 1.

(** Scan for the nearest stored vector; a later vector replaces the
    current best only when strictly closer. *)
Fixpoint nearest_from (q : feature) (vs : list feature) (i : Z) (best : Q * Z)
  : Q * Z :=
  match vs with
  | [] => best
  | v :: vs' =>
      let d := l2sqr q v in
      nearest_from q vs' (i + 1)%Z (if Qltb d (fst best) then (d, i) else best)
  end.

(** [index.add(v)]: the wrapper asserts the dimension. *)
Definition faiss_add (index : list feature) (v : feature) : result (list feature) :=
  if decide (length v = INDEX_DIM) then Ok (index ++ [v]) else Raise AssertionError.

(** [index.search(q, 1)]: the distance and the position of the nearest
    stored vector. *)
Definition faiss_search (index : list feature) (q : feature) : result (Q * Z) :=
  if decide (length q = INDEX_DIM)
  then Ok (nearest_from q index 0%Z (FLT_MAX, (-1)%Z))
  else Raise AssertionError.

(** A detection as [DetectionService.detect] emits it. *)
Record detection := Detection {
  class_name : string;
  local_id : option Z;
  det_bbox : bbox;
  score : Q;
  det_feature : feature
}.

(** The dictionary after [update_info]: the feature is deleted, the camera
    and the global id are filled in. *)
Record tracked := Tracked {
  t_class_name : string;
  t_local_id : option Z;
  t_bbox : bbox;
  t_score : Q;
  t_camera_id : cam;
  t_global_id : option Z
}.

Definition bbox_area (b : bbox) : Z :=
  let '(x1, y1, x2, y2) := b in ((x2 - x1) * (y2 - y1))%Z.

(** Sample data: an embedding whose first coordinate is [x] and whose
    others are 0, and a detection of a class with a local track id, a
    square box of the given side and the embedding [vec x]. *)
Definition vec (x : Q) : feature := x :: repeat 0%Q 511.

Definition det (c : string) (lid side : Z) (x : Q) : detection :=
  Detection c (Some lid) (0, 0, side, side)%Z 1 (vec x).

(** [{obj_type: v for obj_type in object_types}] *)
Definition dict_of_keys {V} (ks : list string) (v : V) : gmap string V :=
  foldl (fun m k => <[k := v]> m) ∅ ks.

(** ** [MCMOT]: the base tracker, with its gallery sweep *)

Module MCMOT.

Record state := State {
  object_types : list string;
  gallery : gmap string (list (Z * feature));
  local_to_global_id : gmap string (gmap cam (gmap (option Z) Z));
  global_id_counter : gmap string Z;
  faiss_indexes : gmap string (list feature)
}.

Definition init (types : list string) : state :=
  {| object_types := types;
     gallery := dict_of_keys types [];
     local_to_global_id := dict_of_keys types ∅;
     global_id_counter := dict_of_keys types 0%Z;
     faiss_indexes := dict_of_keys types [] |}.

Definition match_with_gallery (st : state) (obj_type : string)
    (query_feature : feature) : result (option Z) :=
  let* g := dict_get (gallery st) obj_type in
  if decide (length g = 0) then Ok None else
  let* index := dict_get (faiss_indexes st) obj_type in
  let* (dist, i) := faiss_search index query_feature in
  let* matched_id := py_index (alist_keys g) i in
  Ok (if Qltb dist (7 # 10) then Some matched_id else None).

Definition register_object_in_gallery (st : state) (obj_type : string)
    (feature_vector : feature) : result (state * Z) :=
  let* global_id := dict_get (global_id_counter st) obj_type in
  let counter := <[obj_type := (global_id + 1)%Z]> (global_id_counter st) in
  let* g := dict_get (gallery st) obj_type in
  let gal := <[obj_type := alist_set g global_id feature_vector]> (gallery st) in
  let* index := dict_get (faiss_indexes st) obj_type in
  let* index := faiss_add index feature_vector in
  Ok (State (object_types st) gal (local_to_global_id st) counter
            (<[obj_type := index]> (faiss_indexes st)), global_id).

Definition bind_local (st : state) (obj_type : string) (cameraId : cam)
    (lid : option Z) (global_id : Z) : result state :=
  let* per_class := dict_get (local_to_global_id st) obj_type in
  let per_cam := default ∅ (per_class !! cameraId) in
  Ok (State (object_types st) (gallery st)
        (<[obj_type := <[cameraId := <[lid := global_id]> per_cam]> per_class]>
           (local_to_global_id st))
        (global_id_counter st) (faiss_indexes st)).

(** One iteration of the detection loop of [process_camera_frame]. *)
Definition process_object (st : state) (cameraId : cam) (obj : detection)
  : result (state * option Z) :=
  let obj_type := class_name obj in
  let lid := local_id obj in
  let obj_area := bbox_area (det_bbox obj) in
  let* per_class := dict_get (local_to_global_id st) obj_type in
  match bound_track per_class cameraId lid with
  | Some global_id => Ok (st, Some global_id)
  | None =>
      if (10000 <? obj_area)%Z then
        let* matched_id := match_with_gallery st obj_type (det_feature obj) in
        let* (st, global_id) :=
          match matched_id with
          | Some global_id => Ok (st, global_id)
          | None => register_object_in_gallery st obj_type (det_feature obj)
          end in
        let* st := bind_local st obj_type cameraId lid global_id in
        Ok (st, Some global_id)
      else Ok (st, None)
  end.

Fixpoint process_objects (st : state) (cameraId : cam) (objs : list detection)
  : result (state * list (option Z)) :=
  match objs with
  | [] => Ok (st, [])
  | obj :: objs' =>
      let* (st, o) := process_object st cameraId obj in
      let* (st, os) := process_objects st cameraId objs' in
      Ok (st, o :: os)
  end.

(** The inner loop of the sweep, over a snapshot of the keys: every global
    id of the class that no local track of [cameraId] is bound to is
    deleted from the gallery.  The bindings are read once an id is
    tested. *)
Definition sweep_class (st : state) (cameraId : cam) (obj_type : string)
  : result state :=
  let* g := dict_get (gallery st) obj_type in
  match alist_keys g with
  | [] => Ok st
  | gids =>
      let* per_class := dict_get (local_to_global_id st) obj_type in
      let bound := (map_to_list (default ∅ (per_class !! cameraId))).*2 in
      let g' := foldl (fun g gid => if bool_decide (gid ∈ bound) then g
                                    else alist_del g gid)
                      g gids in
      Ok (State (object_types st) (<[obj_type := g']> (gallery st))
                (local_to_global_id st) (global_id_counter st) (faiss_indexes st))
  end.

Fixpoint sweep (st : state) (cameraId : cam) (types : list string) : result state :=
  match types with
  | [] => Ok st
  | obj_type :: types' =>
      let* st := sweep_class st cameraId obj_type in
      sweep st cameraId types'
  end.

(** [process_camera_frame]: the detection loop, then the sweep when the
    camera is the integer 4. *)
Definition process_camera_frame (st : state) (detected_objects : list detection)
    (cameraId : cam) : result (state * list (option Z)) :=
  let* (st, out) := process_objects st cameraId detected_objects in
  if decide (cameraId = CamInt 4) then
    let* st := sweep st cameraId (object_types st) in
    Ok (st, out)
  else Ok (st, out).

Fixpoint run (st : state) (frames : list (cam * list detection)) : result state :=
  match frames with
  | [] => Ok st
  | (cameraId, objs) :: frames' =>
      let* (st, _) := process_camera_frame st objs cameraId in
      run st frames'
  end.

(** The resolution of [obj] in [st] takes the registration path and
    allocates [g]. *)
Definition registers (st : state) (cameraId : cam) (obj : detection) (g : Z) : Prop :=
  (∃ per_class, local_to_global_id st !! class_name obj = Some per_class ∧
                bound_track per_class cameraId (local_id obj) = None) ∧
  (10000 < bbox_area (det_bbox obj))%Z ∧
  match_with_gallery st (class_name obj) (det_feature obj) = Ok None ∧
  ∃ st1, register_object_in_gallery st (class_name obj) (det_feature obj)
         = Ok (st1, g).

(** The outcome of a resolution and of a run, for stating examples. *)
Definition resolved (st : state) (cm : cam) (obj : detection) : state :=
  match process_object st cm obj with
  | Ok (st', _) => st'
  | Raise _ => st
  end.

Definition answer (st : state) (cm : cam) (obj : detection) : result (option Z) :=
  match process_object st cm obj with
  | Ok (_, g) => Ok g
  | Raise e => Raise e
  end.

Definition ran (st : state) (frames : list (cam * list detection)) : state :=
  match run st frames with
  | Ok st' => st'
  | Raise _ => st
  end.

Definition completes (st : state) (frames : list (cam * list detection)) : bool :=
  match run st frames with
  | Ok _ => true
  | Raise _ => false
  end.

(** *** Observations on a state *)

(** The embedding stored under a global id of a class. *)
Definition entry (st : state) (c : string) (g : Z) : option feature :=
  match gallery st !! c with
  | Some l => alist_get l g
  | None => None
  end.

(** The global ids that the local tracks of a camera are bound to, in a
    class: [local_to_global_id[obj_type].get(cameraId, {}).values()]. *)
Definition bound_ids (st : state) (c : string) (cm : cam) : list Z :=
  match local_to_global_id st !! c with
  | Some per_class => (map_to_list (default ∅ (per_class !! cm))).*2
  | None => []
  end.

(** What holds of every state the base tracker reaches: the dictionaries
    have the classes given to [__init__] as keys, and the keys of a gallery
    are distinct. *)
Definition well_keyed (types : list string) (st : state) : Prop :=
  object_types st = types ∧
  (∀ c, c ∈ types →
     is_Some (gallery st !! c) ∧ is_Some (local_to_global_id st !! c)) ∧
  (∀ c l, gallery st !! c = Some l → NoDup (alist_keys l)).

End MCMOT.

(** ** [VesselMCMOT]: topology-constrained identity resolution *)

Module VesselMCMOT.

(** The attributes of a [VesselMCMOT] instance that the tracking code reads
    or writes.  [gallery] maps a class to its insertion-ordered dictionary
    [global_id -> camera_features]; [max_size_record] is keyed by the global
    id alone. *)
Record state := State {
  gallery : gmap string (list (Z * gmap cam feature));
  local_to_global_id : gmap string (gmap cam (gmap (option Z) Z));
  global_id_counter : gmap string Z;
  faiss_indexes : gmap string (list feature);
  size_threshold : Z;
  vessel_trajectory : gmap (option Z) bbox;
  max_size_record : gmap Z (gmap cam Z);
  camera_query_scope : gmap cam (list cam)
}.

Definition set_gallery (st : state) g :=
  State g (local_to_global_id st) (global_id_counter st) (faiss_indexes st)
        (size_threshold st) (vessel_trajectory st) (max_size_record st)
        (camera_query_scope st).
Definition set_local_to_global_id (st : state) b :=
  State (gallery st) b (global_id_counter st) (faiss_indexes st)
        (size_threshold st) (vessel_trajectory st) (max_size_record st)
        (camera_query_scope st).
Definition set_global_id_counter (st : state) c :=
  State (gallery st) (local_to_global_id st) c (faiss_indexes st)
        (size_threshold st) (vessel_trajectory st) (max_size_record st)
        (camera_query_scope st).
Definition set_faiss_indexes (st : state) f :=
  State (gallery st) (local_to_global_id st) (global_id_counter st) f
        (size_threshold st) (vessel_trajectory st) (max_size_record st)
        (camera_query_scope st).
Definition set_vessel_trajectory (st : state) t :=
  State (gallery st) (local_to_global_id st) (global_id_counter st)
        (faiss_indexes st) (size_threshold st) t (max_size_record st)
        (camera_query_scope st).
Definition set_max_size_record (st : state) m :=
  State (gallery st) (local_to_global_id st) (global_id_counter st)
        (faiss_indexes st) (size_threshold st) (vessel_trajectory st) m
        (camera_query_scope st).

(** The constants of [config/config.py], which the repository does not
    ship: they are parameters of the model. *)
Record config := Config {
  CAMERA_1_ID : cam;
  CAMERA_2_ID : cam;
  CAMERA_3_ID : cam;
  CAMERA_4_ID : cam;
  VESSEL_SIZE_THRESHOLD : Z;
  GALLERY_MATCH_THRESHOLD : Q
}.

Definition default_object_types : list string := ["vessel"; "truck"; "person"].

(** [__init__]: every camera may query its immediate predecessor only. *)
Definition init (cfg : config) (object_types : list string) (threshold : Z) : state :=
  {| gallery := dict_of_keys object_types [];
     local_to_global_id := dict_of_keys object_types ∅;
     global_id_counter := dict_of_keys object_types 0%Z;
     faiss_indexes := dict_of_keys object_types [];
     size_threshold := threshold;
     vessel_trajectory := ∅;
     max_size_record := ∅;
     camera_query_scope :=
       <[CAMERA_4_ID cfg := [CAMERA_3_ID cfg]]>
       (<[CAMERA_3_ID cfg := [CAMERA_2_ID cfg]]>
       (<[CAMERA_2_ID cfg := [CAMERA_1_ID cfg]]>
       (<[CAMERA_1_ID cfg := []]> ∅))) |}.

Section Resolver.
Context (cfg : config).

(** [any(cam in data["camera_features"] for cam in valid_cameras)] *)
Definition from_valid_camera (valid_cameras : list cam) (data : gmap cam feature) : bool :=
  existsb (fun c => bool_decide (is_Some (data !! c))) valid_cameras.

(** The inner loop of [match_with_gallery]: the feature of the last camera
    of [valid_cameras] that has one. *)
Definition best_feature (valid_cameras : list cam) (data : gmap cam feature)
  : option feature :=
  foldl (fun best c => match data !! c with Some f => Some f | None => best end)
        None valid_cameras.

(** The pairs [(gallery_features[k], gallery_ids[k])]. *)
Definition gallery_candidates (valid_cameras : list cam)
    (filtered_gallery : list (Z * gmap cam feature)) : list (feature * Z) :=
  omap (fun '(gid, data) =>
          match best_feature valid_cameras data with
          | Some f => Some (f, gid)
          | None => None
          end) filtered_gallery.

Definition match_with_gallery (st : state) (obj_type : string)
    (query_feature : feature) (cameraId : cam) (obj_area : Z) : result (option Z) :=
  if (obj_area <? size_threshold st)%Z then Ok None else
  let valid_cameras := default [] (camera_query_scope st !! cameraId) in
  let* g := dict_get (gallery st) obj_type in
  let filtered_gallery :=
    filter (fun '(gid, data) => from_valid_camera valid_cameras data = true) g in
  if decide (length filtered_gallery = 0) then Ok None else
  let cands := gallery_candidates valid_cameras filtered_gallery in
  let gallery_features := cands.*1 in
  let gallery_ids := cands.*2 in
  if decide (length gallery_features = 0) then Ok None else
  let* index := dict_get (faiss_indexes st) obj_type in
  let* (dist, i) := faiss_search index query_feature in
  let* matched_id := py_index gallery_ids i in
  Ok (if Qltb dist (GALLERY_MATCH_THRESHOLD cfg) then Some matched_id else None).

Definition register_object_in_gallery (st : state) (cameraId : cam)
    (obj_type : string) (feature_vector : feature) (area : Z) : result (state * Z) :=
  let* global_id := dict_get (global_id_counter st) obj_type in
  let st := set_global_id_counter st
              (<[obj_type := (global_id + 1)%Z]> (global_id_counter st)) in
  let* g := dict_get (gallery st) obj_type in
  let st := set_gallery st
              (<[obj_type := alist_set g global_id {[cameraId := feature_vector]}]>
                 (gallery st)) in
  let* index := dict_get (faiss_indexes st) obj_type in
  let* index := faiss_add index feature_vector in
  let st := set_faiss_indexes st (<[obj_type := index]> (faiss_indexes st)) in
  let st := set_max_size_record st
              (<[global_id := {[cameraId := area]}]> (max_size_record st)) in
  Ok (st, global_id).

(** [target_max_size_record] aliases the stored per-camera record when the
    global id has one; otherwise it is a fresh dictionary and the write to
    it is lost. *)
Definition update_gallery_feature (st : state) (cameraId : cam) (obj_type : string)
    (global_id : Z) (new_feature : feature) (new_area : Z) : result state :=
  let target_max_size_record := default ∅ (max_size_record st !! global_id) in
  let max_area_per_camera := default 0%Z (target_max_size_record !! cameraId) in
  if (max_area_per_camera <? new_area)%Z then
    let st :=
      match max_size_record st !! global_id with
      | Some rec =>
          set_max_size_record st
            (<[global_id := <[cameraId := new_area]> rec]> (max_size_record st))
      | None => st
      end in
    let* g := dict_get (gallery st) obj_type in
    let* data := match alist_get g global_id with
                 | Some data => Ok data
                 | None => Raise KeyError
                 end in
    Ok (set_gallery st
          (<[obj_type := alist_set g global_id (<[cameraId := new_feature]> data)]>
             (gallery st)))
  else Ok st.

Definition update_info (obj : detection) (camera_id : cam) (global_id : option Z)
  : tracked :=
  Tracked (class_name obj) (local_id obj) (det_bbox obj) (score obj)
          camera_id global_id.

(** [local_to_global_id[obj_type].setdefault(cameraId, {})[local_id] = global_id] *)
Definition bind_local (st : state) (obj_type : string) (cameraId : cam)
    (lid : option Z) (global_id : Z) : result state :=
  let* per_class := dict_get (local_to_global_id st) obj_type in
  let per_cam := default ∅ (per_class !! cameraId) in
  Ok (set_local_to_global_id st
        (<[obj_type := <[cameraId := <[lid := global_id]> per_cam]> per_class]>
           (local_to_global_id st))).

(** One iteration of the loop of [process_camera_frame]: the resolution of
    one detection. *)
Definition process_object (st : state) (cameraId : cam) (obj : detection)
  : result (state * tracked) :=
  let obj_type := class_name obj in
  let lid := local_id obj in
  let feature_embedding := det_feature obj in
  let obj_area := bbox_area (det_bbox obj) in
  let st := set_vessel_trajectory st (<[lid := det_bbox obj]> (vessel_trajectory st)) in
  let finish (st : state) (global_id : Z) :=
    let* st := update_gallery_feature st cameraId obj_type global_id
                 feature_embedding obj_area in
    Ok (st, update_info obj cameraId (Some global_id)) in
  let* per_class := dict_get (local_to_global_id st) obj_type in
  match bound_track per_class cameraId lid with
  | Some global_id => finish st global_id
  | None =>
      let* matched_id := match_with_gallery st obj_type feature_embedding
                           cameraId obj_area in
      match matched_id with
      | Some global_id =>
          let* st := bind_local st obj_type cameraId lid global_id in
          finish st global_id
      | None =>
          if (size_threshold st <=? obj_area)%Z then
            let* (st, global_id) := register_object_in_gallery st cameraId obj_type
                                       feature_embedding obj_area in
            let* st := bind_local st obj_type cameraId lid global_id in
            finish st global_id
          else Ok (st, update_info obj cameraId None)
      end
  end.

Fixpoint process_objects (st : state) (cameraId : cam) (objs : list detection)
  : result (state * list tracked) :=
  match objs with
  | [] => Ok (st, [])
  | obj :: objs' =>
      let* (st, o) := process_object st cameraId obj in
      let* (st, os) := process_objects st cameraId objs' in
      Ok (st, o :: os)
  end.

(** [process_camera_frame], from the detections [detect_objects] returned
    for the frame. *)
Definition process_camera_frame (st : state) (detected_objects : list detection)
    (cameraId : cam) : result (state * list tracked) :=
  process_objects st cameraId detected_objects.

(** A run of the tracker: the frames handed to it, in order. *)
Fixpoint run (st : state) (frames : list (cam * list detection)) : result state :=
  match frames with
  | [] => Ok st
  | (cameraId, objs) :: frames' =>
      let* (st, _) := process_camera_frame st objs cameraId in
      run st frames'
  end.

(** Following the specification of the matching step: among the candidates
    (the entries with a feature from a predecessor camera, each with its
    selected feature) the one at minimum distance is the match when that
    distance is below the threshold. *)
Fixpoint nearest_candidate (q : feature) (cands : list (feature * Z))
    (best : option (Q * Z)) : option (Q * Z) :=
  match cands with
  | [] => best
  | (f, gid) :: cands' =>
      let d := l2sqr q f in
      nearest_candidate q cands'
        (match best with
         | Some (d0, _) => if Qltb d d0 then Some (d, gid) else best
         | None => Some (d, gid)
         end)
  end.

Definition spec_match_with_gallery (st : state) (obj_type : string)
    (query_feature : feature) (cameraId : cam) (obj_area : Z) : option Z :=
  if (obj_area <? size_threshold st)%Z then None else
  let valid_cameras := default [] (camera_query_scope st !! cameraId) in
  let g := default [] (gallery st !! obj_type) in
  let filtered_gallery :=
    filter (fun '(gid, data) => from_valid_camera valid_cameras data = true) g in
  match nearest_candidate query_feature
          (gallery_candidates valid_cameras filtered_gallery) None with
  | Some (d, gid) => if Qltb d (GALLERY_MATCH_THRESHOLD cfg) then Some gid else None
  | None => None
  end.

End Resolver.

(** *** Observations on a state *)

(** The global id bound to [(class, camera, local track)]. *)
Definition binding (st : state) (c : string) (cm : cam) (lid : option Z) : option Z :=
  match local_to_global_id st !! c with
  | Some per_class => bound_track per_class cm lid
  | None => None
  end.

(** The gallery entry of a global id of a class. *)
Definition entry (st : state) (c : string) (g : Z) : option (gmap cam feature) :=
  match gallery st !! c with
  | Some l => alist_get l g
  | None => None
  end.

(** The embedding stored for a camera in the entry of a global id. *)
Definition stored (st : state) (c : string) (g : Z) (cm : cam) : option feature :=
  match entry st c g with
  | Some data => data !! cm
  | None => None
  end.

(** The maximum area on record for [(global_id, camera)], as
    [update_gallery_feature] reads it. *)
Definition recorded_max (st : state) (g : Z) (cm : cam) : Z :=
  default 0%Z (default ∅ (max_size_record st !! g) !! cm).

(** The identity state: everything but the last-position map. *)
Definition same_identity_state (st st' : state) : Prop :=
  gallery st' = gallery st ∧
  local_to_global_id st' = local_to_global_id st ∧
  global_id_counter st' = global_id_counter st ∧
  faiss_indexes st' = faiss_indexes st ∧
  max_size_record st' = max_size_record st ∧
  size_threshold st' = size_threshold st ∧
  camera_query_scope st' = camera_query_scope st.

(** What holds of every state the tracker reaches. *)
Record wf (st : state) : Prop := Wf {
  wf_classes : ∀ c, is_Some (local_to_global_id st !! c) →
      is_Some (gallery st !! c) ∧ is_Some (global_id_counter st !! c) ∧
      is_Some (faiss_indexes st !! c);
  wf_bound : ∀ c cm lid g, binding st c cm lid = Some g → is_Some (entry st c g);
  wf_fresh : ∀ c g, is_Some (entry st c g) →
      ∃ n, global_id_counter st !! c = Some n ∧ (g < n)%Z;
  wf_record : ∀ c g, is_Some (entry st c g) → is_Some (max_size_record st !! g)
}.

(** The state once [vessel_trajectory[local_id] = bbox] has run. *)
Definition moved (st : state) (obj : detection) : state :=
  set_vessel_trajectory st (<[local_id obj := det_bbox obj]> (vessel_trajectory st)).

(** The four ways through the loop body of [process_camera_frame]. *)
Inductive resolution (cfg : config) (st : state) (cm : cam) (obj : detection)
    (st' : state) (out : tracked) : Prop :=
| res_bound g :
    binding st (class_name obj) cm (local_id obj) = Some g →
    update_gallery_feature (moved st obj) cm (class_name obj) g
      (det_feature obj) (bbox_area (det_bbox obj)) = Ok st' →
    out = update_info obj cm (Some g) →
    resolution cfg st cm obj st' out
| res_match g st1 :
    is_Some (local_to_global_id st !! class_name obj) →
    binding st (class_name obj) cm (local_id obj) = None →
    match_with_gallery cfg (moved st obj) (class_name obj) (det_feature obj) cm
      (bbox_area (det_bbox obj)) = Ok (Some g) →
    bind_local (moved st obj) (class_name obj) cm (local_id obj) g = Ok st1 →
    update_gallery_feature st1 cm (class_name obj) g
      (det_feature obj) (bbox_area (det_bbox obj)) = Ok st' →
    out = update_info obj cm (Some g) →
    resolution cfg st cm obj st' out
| res_register g st1 st2 :
    is_Some (local_to_global_id st !! class_name obj) →
    binding st (class_name obj) cm (local_id obj) = None →
    match_with_gallery cfg (moved st obj) (class_name obj) (det_feature obj) cm
      (bbox_area (det_bbox obj)) = Ok None →
    (size_threshold st ≤ bbox_area (det_bbox obj))%Z →
    register_object_in_gallery (moved st obj) cm (class_name obj)
      (det_feature obj) (bbox_area (det_bbox obj)) = Ok (st1, g) →
    bind_local st1 (class_name obj) cm (local_id obj) g = Ok st2 →
    update_gallery_feature st2 cm (class_name obj) g
      (det_feature obj) (bbox_area (det_bbox obj)) = Ok st' →
    out = update_info obj cm (Some g) →
    resolution cfg st cm obj st' out
| res_small :
    is_Some (local_to_global_id st !! class_name obj) →
    binding st (class_name obj) cm (local_id obj) = None →
    (bbox_area (det_bbox obj) < size_threshold st)%Z →
    st' = moved st obj →
    out = update_info obj cm None →
    resolution cfg st cm obj st' out.

(** The resolution of [obj] in [st] takes the registration path and
    allocates [g]. *)
Definition registers (cfg : config) (st : state) (cm : cam) (obj : detection)
    (g : Z) : Prop :=
  binding st (class_name obj) cm (local_id obj) = None ∧
  match_with_gallery cfg st (class_name obj) (det_feature obj) cm
    (bbox_area (det_bbox obj)) = Ok None ∧
  (size_threshold st ≤ bbox_area (det_bbox obj))%Z ∧
  ∃ st1, register_object_in_gallery (moved st obj) cm (class_name obj)
           (det_feature obj) (bbox_area (det_bbox obj)) = Ok (st1, g).

(** *** A sample deployment

    Four cameras named as the stream configuration names them, and the
    literals of the base class for the two thresholds. *)
Definition camera1 := CamStr "camera1".
Definition camera2 := CamStr "camera2".
Definition camera3 := CamStr "camera3".
Definition camera4 := CamStr "camera4".

Definition sample_config : config :=
  Config camera1 camera2 camera3 camera4 10000 (7 # 10).

Definition sample_init : state := init sample_config default_object_types 10000.

(** The state a run of the sample deployment ends in. *)
Definition ran (st : state) (frames : list (cam * list detection)) : state :=
  match run sample_config st frames with
  | Ok st' => st'
  | Raise _ => st
  end.

Definition state_after (frames : list (cam * list detection)) : state :=
  ran sample_init frames.

(** The state a resolution on the sample deployment ends in, and what it
    answers. *)
Definition resolved (st : state) (cm : cam) (obj : detection) : state :=
  match process_object sample_config st cm obj with
  | Ok (st', _) => st'
  | Raise _ => st
  end.

Definition answer (st : state) (cm : cam) (obj : detection) : result (option Z) :=
  match process_object sample_config st cm obj with
  | Ok (_, out) => Ok (t_global_id out)
  | Raise e => Raise e
  end.

Definition completes (st : state) (frames : list (cam * list detection)) : bool :=
  match run sample_config st frames with
  | Ok _ => true
  | Raise _ => false
  end.

(** *** The direction test *)

Definition center_x (b : bbox) : Q :=
  let '(x1, _, x2, _) := b in (inject_Z (x1 + x2) / 2)%Q.

Definition center_y (b : bbox) : Q :=
  let '(_, y1, _, y2) := b in (inject_Z (y1 + y2) / 2)%Q.

(** [is_moving_towards_port]: down and to the left on cameras 1 and 2, to
    the left on cameras 3 and 4, never on another camera. *)
Definition is_moving_towards_port (cfg : config) (last_position current_position : bbox)
    (cameraId : cam) : bool :=
  let last_x := center_x last_position in
  let last_y := center_y last_position in
  let current_x := center_x current_position in
  let current_y := center_y current_position in
  if bool_decide (cameraId ∈ [CAMERA_1_ID cfg; CAMERA_2_ID cfg]) then
    Qltb current_x last_x && Qltb last_y current_y
  else if bool_decide (cameraId ∈ [CAMERA_3_ID cfg; CAMERA_4_ID cfg]) then
    Qltb current_x last_x
  else false.

(** *** Gallery and index, side by side *)

(** The ids of a class are [0 .. n-1] in registration order, [n] is the
    counter of the class and the number of vectors in its index. *)
Definition aligned (st : state) : Prop :=
  ∀ c l, gallery st !! c = Some l →
    alist_keys l = seqZ 0 (Z.of_nat (length l)) ∧
    global_id_counter st !! c = Some (Z.of_nat (length l)) ∧
    ∃ index, faiss_indexes st !! c = Some index ∧ length index = length l.

End VesselMCMOT.

(** ** [EventService]: the visit record of a global identity *)

Module EventService.

Record coords := Coords { latitude : Q; longitude : Q }.

Record tracking_point := TrackingPoint {
  timestamp : Q;
  tp_longitude : Q;
  tp_latitude : Q;
  channel_type : option string
}.

(** A [Vessel] row and a [VesselEvent] row, with the fields the service
    writes.  An object in memory carries its primary key. *)
Record vessel := Vessel {
  vessel_pk : nat;
  first_seen : Q;
  last_seen : Q;
  vessel_features : option feature
}.

Record vessel_event := VesselEvent {
  event_pk : nat;
  event_vessel : nat;
  start_time : Q;
  end_time : option Q;
  tracking_points : list tracking_point
}.

Record event_data := EventData {
  ed_vessel : vessel;
  ed_event : vessel_event;
  camera_positions : list (string * coords)
}.

(** The service with the two tables it persists to; a primary key is the
    position of the row. *)
Record state := State {
  active_events : list (Z * event_data);
  last_track_time : gmap Z Q;
  tracking_interval : Q;
  vessel_table : list vessel;
  event_table : list vessel_event
}.

Definition init : state :=
  {| active_events := []; last_track_time := ∅; tracking_interval := 10;
     vessel_table := []; event_table := [] |}.

(** The part of a detection dictionary the service reads. *)
Record detection := Detection {
  global_id : option Z;
  det_feature : option feature
}.

(** [not global_id] *)
Definition falsy (g : option Z) : bool :=
  match g with
  | None => true
  | Some n => bool_decide (n = 0%Z)
  end.

Definition _create_new_event (st : state) (gid : Z) (det : detection)
    (camera_id : string) (current_time : Q) (coordinates : coords) : state :=
  let v := Vessel (length (vessel_table st)) current_time current_time
                  (det_feature det) in
  let e := VesselEvent (length (event_table st)) (vessel_pk v) current_time None
             [TrackingPoint current_time (longitude coordinates)
                            (latitude coordinates) None] in
  {| active_events :=
       alist_set (active_events st) gid (EventData v e [(camera_id, coordinates)]);
     last_track_time := last_track_time st;
     tracking_interval := tracking_interval st;
     vessel_table := vessel_table st ++ [v];
     event_table := event_table st ++ [e] |}.

Definition Qsum (l : list Q) : Q := foldl Qplus 0%Q l.

Definition _calculate_average_position (positions : list coords) : option coords :=
  match positions with
  | [] => None
  | _ =>
      let total_lat := Qsum (latitude <$> positions) in
      let total_lon := Qsum (longitude <$> positions) in
      let n := inject_Z (Z.of_nat (length positions)) in
      Some (Coords (total_lat / n) (total_lon / n))
  end.

(** [now] is the reading of [time.time()]. *)
Definition _should_record_tracking_point (st : state) (now : Q) (gid : Z)
  : state * bool :=
  let last_time := default 0%Q (last_track_time st !! gid) in
  if Qle_bool (tracking_interval st) (now - last_time) then
    ({| active_events := active_events st;
        last_track_time := <[gid := now]> (last_track_time st);
        tracking_interval := tracking_interval st;
        vessel_table := vessel_table st;
        event_table := event_table st |}, true)
  else (st, false).

Definition _update_event (st : state) (now : Q) (gid : Z) (camera_id : string)
    (current_time : Q) (coordinates : coords) (channel : option string)
  : result state :=
  let* data := match alist_get (active_events st) gid with
               | Some d => Ok d
               | None => Raise KeyError
               end in
  let positions := alist_set (camera_positions data) camera_id coordinates in
  let v := Vessel (vessel_pk (ed_vessel data)) (first_seen (ed_vessel data))
                  current_time (vessel_features (ed_vessel data)) in
  let vessels := <[vessel_pk v := v]> (vessel_table st) in
  let avg_position := _calculate_average_position positions.*2 in
  let (st, record) := _should_record_tracking_point st now gid in
  if record then
    let* avg := match avg_position with
                | Some a => Ok a
                | None => Raise TypeError
                end in
    let e := ed_event data in
    let e := VesselEvent (event_pk e) (event_vessel e) (start_time e) (end_time e)
               (tracking_points e ++
                  [TrackingPoint current_time (longitude avg) (latitude avg) channel]) in
    Ok {| active_events := alist_set (active_events st) gid (EventData v e positions);
          last_track_time := last_track_time st;
          tracking_interval := tracking_interval st;
          vessel_table := vessels;
          event_table := <[event_pk e := e]> (event_table st) |}
  else
    Ok {| active_events :=
            alist_set (active_events st) gid (EventData v (ed_event data) positions);
          last_track_time := last_track_time st;
          tracking_interval := tracking_interval st;
          vessel_table := vessels;
          event_table := event_table st |}.

Definition process_detection (st : state) (now : Q) (det : detection)
    (camera_id : string) (current_time : Q) (coordinates : coords)
    (channel : option string) : result state :=
  if falsy (global_id det) then Ok st else
  match global_id det with
  | None => Ok st
  | Some gid =>
      match alist_get (active_events st) gid with
      | None => Ok (_create_new_event st gid det camera_id current_time coordinates)
      | Some _ => _update_event st now gid camera_id current_time coordinates channel
      end
  end.

Definition _complete_event (st : state) (gid : Z) (current_time : Q) : result state :=
  let* data := match alist_get (active_events st) gid with
               | Some d => Ok d
               | None => Raise KeyError
               end in
  let e := ed_event data in
  let e := VesselEvent (event_pk e) (event_vessel e) (start_time e)
             (Some current_time) (tracking_points e) in
  Ok {| active_events := alist_del (active_events st) gid;
        last_track_time := delete gid (last_track_time st);
        tracking_interval := tracking_interval st;
        vessel_table := vessel_table st;
        event_table := <[event_pk e := e]> (event_table st) |}.

(** The loop of [check_event_completion] over a snapshot of the keys. *)
Fixpoint complete_each (st : state) (gids : list Z) (current_time : Q) : result state :=
  match gids with
  | [] => Ok st
  | gid :: gids' =>
      let* data := match alist_get (active_events st) gid with
                   | Some d => Ok d
                   | None => Raise KeyError
                   end in
      let* st := if bool_decide (is_Some (alist_get (camera_positions data) "camera4"))
                 then _complete_event st gid current_time
                 else Ok st in
      complete_each st gids' current_time
  end.

Definition check_event_completion (st : state) (camera_id : string)
    (current_time : Q) : result state :=
  if decide (camera_id = "camera4") then
    complete_each st (alist_keys (active_events st)) current_time
  else Ok st.

(** The state a call leaves the service in, for stating examples. *)
Definition after (r : result state) : state :=
  match r with
  | Ok st => st
  | Raise _ => init
  end.

(** The timestamps of the tracking points of the persisted events. *)
Definition persisted_timestamps (st : state) : list (list Q) :=
  (fun e => timestamp <$> tracking_points e) <$> event_table st.

(** *** Calls of the public interface *)

(** A call of one of the two public methods; a detection call carries the
    reading [now] of [time.time()] made by the sampling test. *)
Inductive call :=
| ProcessDetection (now : Q) (det : detection) (camera_id : string)
    (current_time : Q) (coordinates : coords) (channel : option string)
| CheckEventCompletion (camera_id : string) (current_time : Q).

Definition step (st : state) (c : call) : result state :=
  match c with
  | ProcessDetection now det camera_id current_time coordinates channel =>
      process_detection st now det camera_id current_time coordinates channel
  | CheckEventCompletion camera_id current_time =>
      check_event_completion st camera_id current_time
  end.

Fixpoint run_calls (st : state) (cs : list call) : result state :=
  match cs with
  | [] => Ok st
  | c :: cs' =>
      let* st := step st c in
      run_calls st cs'
  end.

(** *** Observations on a service *)

Definition active (st : state) (gid : Z) : option event_data :=
  alist_get (active_events st) gid.

(** ['camera4' in event_data['camera_positions']] *)
Definition seen_by_camera4 (d : event_data) : bool :=
  bool_decide (is_Some (alist_get (camera_positions d) "camera4")).

(** The event with its end time set. *)
Definition ended (e : vessel_event) (t : Q) : vessel_event :=
  VesselEvent (event_pk e) (event_vessel e) (start_time e) (Some t)
              (tracking_points e).

(** What holds of every service reached from [__init__]: the rows of the
    active events are the objects in memory, not ended; two active
    identities never share a row; an identity without an active event has
    no sampling time on record. *)
Record synced (st : state) : Prop := {
  synced_keys : NoDup (alist_keys (active_events st));
  synced_rows : ∀ gid d, active st gid = Some d →
    event_table st !! event_pk (ed_event d) = Some (ed_event d) ∧
    vessel_table st !! vessel_pk (ed_vessel d) = Some (ed_vessel d) ∧
    end_time (ed_event d) = None ∧
    camera_positions d ≠ [];
  synced_pks : ∀ gid1 gid2 d1 d2,
    active st gid1 = Some d1 → active st gid2 = Some d2 →
    event_pk (ed_event d1) = event_pk (ed_event d2) ∨
    vessel_pk (ed_vessel d1) = vessel_pk (ed_vessel d2) →
    gid1 = gid2;
  synced_times : ∀ gid, active st gid = None → last_track_time st !! gid = None
}.

(** A later state of a row: same key, vessel and start, the tracking
    points extended at the end, and no change at all once ended. *)
Definition extends (e e' : vessel_event) : Prop :=
  event_pk e' = event_pk e ∧
  event_vessel e' = event_vessel e ∧
  start_time e' = start_time e ∧
  tracking_points e `prefix_of` tracking_points e' ∧
  (is_Some (end_time e) → e' = e).

(** Consecutive timestamps are at least [d] apart. *)
Fixpoint spaced (d : Q) (ts : list Q) : Prop :=
  match ts with
  | [] => True
  | t1 :: ts' =>
      match ts' with
      | [] => True
      | t2 :: _ => (d <= t2 - t1)%Q
      end ∧ spaced d ts'
  end.

(** The timestamps an event was sampled at, after the point stored at its
    creation. *)
Definition sampled_timestamps (e : vessel_event) : list Q :=
  tail (timestamp <$> tracking_points e).

(** The sampling test reads the clock the timestamps come from. *)
Definition clocked (c : call) : Prop :=
  match c with
  | ProcessDetection now _ _ current_time _ _ => now = current_time
  | CheckEventCompletion _ _ => True
  end.

(** The sampling times on record are those of the last sampled points. *)
Record sampling (st : state) : Prop := {
  sampling_rows : ∀ pk e, event_table st !! pk = Some e →
    spaced (tracking_interval st) (sampled_timestamps e);
  sampling_last : ∀ gid d, active st gid = Some d →
    tracking_points (ed_event d) ≠ [] ∧
    match last_track_time st !! gid with
    | None => sampled_timestamps (ed_event d) = []
    | Some t => last (sampled_timestamps (ed_event d)) = Some t
    end
}.

End EventService.

(** ** [GridLocationService]: the two-point reference line

    Python floats are idealised as real numbers: rounding is not
    modelled.  The exceptions and the non-finite values of the arithmetic
    are: [math.sqrt] raises on a negative argument, and a division by a
    [numpy.float64] zero gives an infinity or not-a-number. *)

Module GridLocationService.

Local Open Scope R_scope.

(** [math.radians] *)
Definition radians (deg : R) : R := deg * (PI / 180).

(** [math.atan2], by the quadrant of [(x, y)]. *)
Definition atan2 (y x : R) : R :=
  if Rlt_dec 0 x then atan (y / x)
  else if Rlt_dec x 0 then
    (if Rle_dec 0 y then atan (y / x) + PI else atan (y / x) - PI)
  else if Rlt_dec 0 y then PI / 2
  else if Rlt_dec y 0 then - (PI / 2)
  else 0.

(** [math.sqrt]: [ValueError] (math domain error) on a negative argument. *)
Definition math_sqrt (x : R) : result R :=
  if Rlt_dec x 0 then Raise ValueError else Ok (sqrt x).

(** A [numpy.float64] as a division leaves it: a real number, a signed
    infinity or not-a-number. *)
Inductive float64 :=
| Finite (r : R)
| PosInf
| NegInf
| NaN.

(** [x / y] where [y] is a [numpy.float64]: a zero divisor gives a signed
    infinity, or not-a-number for [0 / 0], with a warning and no
    exception. *)
Definition np_div (x y : R) : float64 :=
  if Rlt_dec 0 y then Finite (x / y)
  else if Rlt_dec y 0 then Finite (x / y)
  else if Rlt_dec 0 x then PosInf
  else if Rlt_dec x 0 then NegInf
  else NaN.

Definition earth_radius : R := 6371000.

Definition haversine_distance (lat1 lon1 lat2 lon2 : R) : result R :=
  let lat1 := radians lat1 in
  let lon1 := radians lon1 in
  let lat2 := radians lat2 in
  let lon2 := radians lon2 in
  let dlat := lat2 - lat1 in
  let dlon := lon2 - lon1 in
  let a := (sin (dlat / 2)) ^ 2 + cos lat1 * cos lat2 * (sin (dlon / 2)) ^ 2 in
  let* root_a := math_sqrt a in
  let* root_b := math_sqrt (1 - a) in
  let c := 2 * atan2 root_a root_b in
  Ok (earth_radius * c).

(** A reference point: pixel [(x, y)] and geographic [(lat, lon)]. *)
Record reference_point := ReferencePoint {
  pixel_coord : Z * Z;
  geo_coord : R * R
}.

(** The attributes the reference line is computed from and stored in; the
    affine transformers belong to the raster library and are left out. *)
Record state := State {
  reference_points : list (string * reference_point);
  direction_vector : option (float64 * float64);
  scale_factor : option float64
}.

Definition init : state := State [] None None.

(** The pixel distance is a [numpy.float64], so the three divisions are
    NumPy's; [haversine_distance] runs, and may raise, before either
    attribute is assigned. *)
Definition calculate_reference_line (st : state) : result state :=
  let points := (reference_points st).*2 in
  let* p1 := py_index points 0 in
  let* p2 := py_index points 1 in
  let dx_pixel := (fst (pixel_coord p2) - fst (pixel_coord p1))%Z in
  let dy_pixel := (snd (pixel_coord p2) - snd (pixel_coord p1))%Z in
  let pixel_distance := sqrt (IZR (dx_pixel ^ 2 + dy_pixel ^ 2)) in
  let* real_distance :=
    haversine_distance (fst (geo_coord p1)) (snd (geo_coord p1))
                       (fst (geo_coord p2)) (snd (geo_coord p2)) in
  Ok (State (reference_points st)
            (Some (np_div (IZR dx_pixel) pixel_distance,
                   np_div (IZR dy_pixel) pixel_distance))
            (Some (np_div real_distance pixel_distance))).

(** The point is stored before the reference line is computed; the
    ground control points and the affine fit of three or more of them
    belong to the raster library and are left out. *)
Definition add_reference_point (st : state) (point_id : string)
    (pixel : Z * Z) (geo : R * R) : result state :=
  let st := State (alist_set (reference_points st) point_id
                             (ReferencePoint pixel geo))
                  (direction_vector st) (scale_factor st) in
  if decide (length (reference_points st) = 2%nat)
  then calculate_reference_line st
  else Ok st.

(** The argument [a] of the square roots in [haversine_distance]. *)
Definition haversine_a (lat1 lon1 lat2 lon2 : R) : R :=
  let lat1 := radians lat1 in
  let lon1 := radians lon1 in
  let lat2 := radians lat2 in
  let lon2 := radians lon2 in
  (sin ((lat2 - lat1) / 2)) ^ 2
  + cos lat1 * cos lat2 * (sin ((lon2 - lon1) / 2)) ^ 2.

(** *** The distance as the specification words it

    These definitions do not follow the code: they say what a haversine
    great-circle distance on a sphere of radius 6,371,000 m is, for
    comparison with [haversine_distance]. *)

(** The haversine of an angle. *)
Definition hav (theta : R) : R := (1 - cos theta) / 2.

(** The haversine formula for two points given in degrees. *)
Definition spec_haversine (lat1 lon1 lat2 lon2 : R) : R :=
  let phi1 := radians lat1 in
  let phi2 := radians lat2 in
  let dlambda := radians lon2 - radians lon1 in
  2 * 6371000 *
  asin (sqrt (hav (phi2 - phi1) + cos phi1 * cos phi2 * hav dlambda)).

(** The cosine of the central angle between the two points, by the
    spherical law of cosines. *)
Definition central_cosine (lat1 lon1 lat2 lon2 : R) : R :=
  let phi1 := radians lat1 in
  let phi2 := radians lat2 in
  sin phi1 * sin phi2
  + cos phi1 * cos phi2 * cos (radians lon2 - radians lon1).

(** The great-circle distance: the radius times the central angle. *)
Definition great_circle_distance (lat1 lon1 lat2 lon2 : R) : R :=
  6371000 * acos (central_cosine lat1 lon1 lat2 lon2).

(** The Euclidean distance of two pixels. *)
Definition pixel_distance (p q : Z * Z) : R :=
  sqrt (IZR ((fst q - fst p) ^ 2 + (snd q - snd p) ^ 2)).

(** Where the idealisation of floats as reals changes no branch: with
    latitudes between the poles every term of [a] is non-negative, and
    for points at most a quarter of a great circle apart [a] is at most
    one half, far from the bound 1 that rounding can cross only for
    nearly antipodal points. *)
Definition valid_latitude (lat : R) : Prop := -90 <= lat <= 90.

Definition within_quarter_circle (lat1 lon1 lat2 lon2 : R) : Prop :=
  valid_latitude lat1 ∧ valid_latitude lat2 ∧
  0 <= central_cosine lat1 lon1 lat2 lon2.

End GridLocationService.

(** * Properties *)

(** ** Generic facts about the Python-level helpers *)

Lemma rbind_Ok {A B} (r : result A) (k : A → result B) (b : B) :
  rbind r k = Ok b ↔ ∃ a, r = Ok a ∧ k a = Ok b.
Proof.
  destruct r as [a|e]; simpl; split.
  - intros H. exists a. split; [reflexivity | exact H].
  - intros (a' & Ha & Hk). injection Ha as <-. exact Hk.
  - discriminate.
  - intros (a' & Ha & _). discriminate.
Qed.

Lemma dict_get_Ok `{Countable K} {V} (d : gmap K V) (k : K) (v : V) :
  dict_get d k = Ok v ↔ d !! k = Some v.
Proof.
  unfold dict_get. destruct (d !! k); split; intros E; congruence.
Qed.

(** Inversion of a successful run of monadic code, one bind at a time. *)
Ltac inv_ok H :=
  match type of H with
  | rbind _ _ = Ok _ =>
      let a := fresh "a" in
      let Ha := fresh "Ha" in
      apply rbind_Ok in H; destruct H as (a & Ha & H)
  | dict_get _ _ = Ok _ => apply dict_get_Ok in H
  | Ok _ = Ok _ => injection H as H
  | Raise _ = Ok _ => discriminate H
  end.

Section AListFacts.
Context {K V : Type} `{EqDecision K}.
Implicit Types (l : list (K * V)) (k : K) (v : V).

Lemma alist_get_set_eq l k v : alist_get (alist_set l k v) k = Some v.
Proof.
  induction l as [|[k' v'] l IH]; simpl.
  - by rewrite decide_True.
  - destruct (decide (k' = k)) as [->|Hne]; simpl.
    + by rewrite decide_True.
    + by rewrite decide_False.
Qed.

Lemma alist_get_set_ne l k k' v :
  k ≠ k' → alist_get (alist_set l k v) k' = alist_get l k'.
Proof.
  intros Hne. induction l as [|[k0 v0] l IH]; simpl.
  - by rewrite decide_False.
  - destruct (decide (k0 = k)) as [->|Hne0]; simpl.
    + by rewrite !decide_False.
    + destruct (decide (k0 = k')); [reflexivity | exact IH].
Qed.

Lemma alist_get_set l k k' v :
  alist_get (alist_set l k v) k' = if decide (k = k') then Some v else alist_get l k'.
Proof.
  destruct (decide (k = k')) as [->|Hne].
  - apply alist_get_set_eq.
  - by apply alist_get_set_ne.
Qed.

Lemma alist_get_elem_of l k v : alist_get l k = Some v → (k, v) ∈ l.
Proof.
  induction l as [|[k0 v0] l IH]; simpl; [discriminate|].
  destruct (decide (k0 = k)) as [->|Hne].
  - intros [= ->]. apply list_elem_of_here.
  - intros Hl. apply list_elem_of_further, IH, Hl.
Qed.

Lemma elem_of_alist_get l k v : (k, v) ∈ l → is_Some (alist_get l k).
Proof.
  induction l as [|[k0 v0] l IH]; simpl.
  - intros Hin. by apply not_elem_of_nil in Hin.
  - intros Hin. destruct (decide (k0 = k)); [by eexists|].
    apply elem_of_cons in Hin as [[= <- <-]|Hin]; [done|by apply IH].
Qed.

End AListFacts.

Lemma dict_of_keys_lookup {V} (ks : list string) (v : V) (k : string) :
  dict_of_keys ks v !! k = if decide (k ∈ ks) then Some v else None.
Proof.
  unfold dict_of_keys.
  assert (G : ∀ m0 : gmap string V,
             foldl (fun m k => <[k := v]> m) m0 ks !! k =
             if decide (k ∈ ks) then Some v else m0 !! k).
  { induction ks as [|k0 ks IH]; intros m0; cbn [foldl].
    - destruct (decide (k ∈ [])) as [Hin|]; [|reflexivity].
      by apply not_elem_of_nil in Hin.
    - rewrite IH. destruct (decide (k ∈ ks)) as [Hin|Hnin].
      + rewrite decide_True; [reflexivity | by apply list_elem_of_further].
      + destruct (decide (k = k0)) as [->|Hne].
        * rewrite lookup_insert_eq.
          rewrite decide_True; [reflexivity | apply list_elem_of_here].
        * rewrite lookup_insert_ne by done.
          rewrite decide_False; [reflexivity|].
          intros Hin. apply elem_of_cons in Hin as [?|?]; contradiction. }
  rewrite G. by rewrite lookup_empty.
Qed.

Lemma py_index_elem_of {A} (l : list A) (i : Z) (x : A) :
  py_index l i = Ok x → x ∈ l.
Proof.
  unfold py_index.
  destruct (_ || _); [discriminate|].
  destruct (l !! _) as [a|] eqn:E; [|discriminate].
  intros [= <-]. by eapply list_elem_of_lookup_2.
Qed.

(** ** [MCMOT]: the counters under resolution and sweep *)

Module MCMOTTheory.
Import MCMOT.

Local Open Scope Z_scope.

Lemma register_object_in_gallery_counter st c f st' g :
  register_object_in_gallery st c f = Ok (st', g) →
  global_id_counter st !! c = Some g ∧
  global_id_counter st' = <[c := g + 1]> (global_id_counter st) ∧
  object_types st' = object_types st.
Proof.
  unfold register_object_in_gallery. intros H.
  inv_ok H. inv_ok Ha. inv_ok H. inv_ok H. inv_ok H. inv_ok H. by subst.
Qed.

Lemma bind_local_counter st c cm lid g st' :
  bind_local st c cm lid g = Ok st' →
  global_id_counter st' = global_id_counter st ∧
  object_types st' = object_types st.
Proof.
  unfold bind_local. intros H. inv_ok H. inv_ok H. by subst.
Qed.

(** What a resolution does to the counters: nothing, or one increment of
    the counter of the class, whose old value is the id returned. *)
Lemma process_object_counter st cm obj st' o :
  process_object st cm obj = Ok (st', o) →
  object_types st' = object_types st ∧
  (global_id_counter st' = global_id_counter st ∨
   ∃ g, global_id_counter st !! class_name obj = Some g ∧ o = Some g ∧
        registers st cm obj g ∧
        global_id_counter st' = <[class_name obj := g + 1]> (global_id_counter st)).
Proof.
  unfold process_object. intros H.
  inv_ok H. inv_ok Ha.
  destruct (bound_track a cm (local_id obj)) as [g|] eqn:Hb.
  - injection H as <- <-. by split; [|left].
  - destruct (Z.ltb_spec 10000 (bbox_area (det_bbox obj))) as [Hgt|Hle].
    + inv_ok H. inv_ok H. destruct a1 as [st1 g]. inv_ok H.
      injection H as <- <-.
      destruct (bind_local_counter _ _ _ _ _ _ Ha2) as [-> ->].
      destruct a0 as [g0|].
      * injection Ha1 as <- <-. by split; [|left].
      * destruct (register_object_in_gallery_counter _ _ _ _ _ Ha1)
          as (Hg & -> & ->).
        split; [done|]. right. exists g. repeat split; try done.
        -- by exists a.
        -- by exists st1.
    + injection H as <- <-. by split; [|left].
Qed.

Lemma base_counter_process_object st cm obj st' o c n :
  process_object st cm obj = Ok (st', o) →
  global_id_counter st !! c = Some n →
  ∃ n', global_id_counter st' !! c = Some n' ∧ n ≤ n'.
Proof.
  intros H Hn.
  destruct (process_object_counter _ _ _ _ _ H) as [_ [->|(g & Hg & _ & _ & ->)]].
  - by exists n.
  - destruct (decide (c = class_name obj)) as [->|Hne].
    + rewrite lookup_insert_eq. rewrite Hn in Hg. injection Hg as <-.
      exists (n + 1). split; [done | lia].
    + rewrite lookup_insert_ne by done. by exists n.
Qed.

Lemma base_counter_process_objects objs : ∀ st cm st' outs,
  process_objects st cm objs = Ok (st', outs) →
  object_types st' = object_types st ∧
  ∀ c n, global_id_counter st !! c = Some n →
         ∃ n', global_id_counter st' !! c = Some n' ∧ n ≤ n'.
Proof.
  induction objs as [|obj objs IH]; intros st cm st' outs H; simpl in H.
  - injection H as <- _. split; [done|]. intros c n Hn. by exists n.
  - inv_ok H. destruct a as [st1 o]. inv_ok H. destruct a as [st2 os].
    inv_ok H. subst.
    destruct (process_object_counter _ _ _ _ _ Ha) as [Ht1 _].
    destruct (IH _ _ _ _ Ha0) as [Ht2 Hmono].
    split; [congruence|]. intros c n Hn.
    destruct (base_counter_process_object _ _ _ _ _ _ _ Ha Hn) as (n1 & Hn1 & Hle1).
    destruct (Hmono _ _ Hn1) as (n2 & Hn2 & Hle2).
    exists n2. split; [done | lia].
Qed.

(** The sweep deletes gallery entries and nothing else. *)
Lemma sweep_counter types : ∀ st cm st',
  sweep st cm types = Ok st' →
  global_id_counter st' = global_id_counter st ∧
  local_to_global_id st' = local_to_global_id st ∧
  faiss_indexes st' = faiss_indexes st.
Proof.
  induction types as [|t types IH]; intros st cm st' H; simpl in H.
  - by injection H as <-.
  - inv_ok H. unfold sweep_class in Ha. inv_ok Ha.
    destruct (IH _ _ _ H) as (-> & -> & ->).
    destruct (alist_keys a0); [by injection Ha as <-|].
    inv_ok Ha. injection Ha as <-. done.
Qed.

Lemma counter_process_camera_frame st objs cm st' outs c n :
  process_camera_frame st objs cm = Ok (st', outs) →
  global_id_counter st !! c = Some n →
  ∃ n', global_id_counter st' !! c = Some n' ∧ n ≤ n'.
Proof.
  unfold process_camera_frame. intros H Hn.
  inv_ok H. destruct a as [st1 out].
  destruct (base_counter_process_objects _ _ _ _ _ Ha) as [_ Hmono].
  destruct (Hmono _ _ Hn) as (n1 & Hn1 & Hle).
  destruct (decide (cm = CamInt 4)).
  - inv_ok H. injection H as <- _.
    destruct (sweep_counter _ _ _ _ Ha0) as (-> & _). by exists n1.
  - injection H as <- _. by exists n1.
Qed.

Lemma base_counter_run frames : ∀ st st' c n,
  run st frames = Ok st' →
  global_id_counter st !! c = Some n →
  ∃ n', global_id_counter st' !! c = Some n' ∧ n ≤ n'.
Proof.
  induction frames as [|[cm objs] frames IH]; intros st st' c n H Hn; simpl in H.
  - injection H as <-. by exists n.
  - inv_ok H. destruct a as [st1 outs].
    destruct (counter_process_camera_frame _ _ _ _ _ _ _ Ha Hn) as (n1 & Hn1 & Hle1).
    destruct (IH _ _ _ _ H Hn1) as (n2 & Hn2 & Hle2).
    exists n2. split; [done | lia].
Qed.

Lemma base_registers_counter st cm obj g st' o :
  registers st cm obj g →
  process_object st cm obj = Ok (st', o) →
  global_id_counter st !! class_name obj = Some g ∧
  global_id_counter st' !! class_name obj = Some (g + 1) ∧
  o = Some g.
Proof.
  intros ((pc & Hpc & Hb) & Hgt & Hm & s1 & Hr) H.
  destruct (register_object_in_gallery_counter _ _ _ _ _ Hr) as (Hg & Hc1 & _).
  unfold process_object in H. unfold dict_get in H. rewrite Hpc in H. simpl in H.
  rewrite Hb in H.
  destruct (Z.ltb_spec 10000 (bbox_area (det_bbox obj))); [|lia].
  rewrite Hm in H. simpl in H. rewrite Hr in H. simpl in H.
  inv_ok H. injection H as <- <-.
  destruct (bind_local_counter _ _ _ _ _ _ Ha) as [-> _].
  rewrite Hc1, lookup_insert_eq. by repeat split.
Qed.

Lemma register_object_in_gallery_returns st c f g :
  match register_object_in_gallery st c f with
  | Ok (_, g') => Some g'
  | Raise _ => None
  end = Some g →
  ∃ st', register_object_in_gallery st c f = Ok (st', g).
Proof.
  destruct (register_object_in_gallery st c f) as [[st' g']|]; [|discriminate].
  intros [= <-]. by exists st'.
Qed.

Lemma base_ran_run st frames :
  completes st frames = true → run st frames = Ok (ran st frames).
Proof. unfold completes, ran. by destruct (run st frames). Qed.

Lemma base_resolved_answer st cm obj g :
  answer st cm obj = Ok g → process_object st cm obj = Ok (resolved st cm obj, g).
Proof.
  unfold answer, resolved.
  destruct (process_object st cm obj) as [[st' o]|]; [|discriminate].
  by intros [= <-].
Qed.

End MCMOTTheory.

(** ** [VesselMCMOT] *)

Module VesselTheory.
Import VesselMCMOT.

Local Open Scope Z_scope.

(** *** What each method does to the state *)

Lemma update_gallery_feature_Ok st cm c g f a st' :
  update_gallery_feature st cm c g f a = Ok st' →
  (a ≤ recorded_max st g cm ∧ st' = st) ∨
  (recorded_max st g cm < a ∧ ∃ l data,
     gallery st !! c = Some l ∧ alist_get l g = Some data ∧
     gallery st' = <[c := alist_set l g (<[cm := f]> data)]> (gallery st) ∧
     max_size_record st' =
       match max_size_record st !! g with
       | Some rec => <[g := <[cm := a]> rec]> (max_size_record st)
       | None => max_size_record st
       end ∧
     local_to_global_id st' = local_to_global_id st ∧
     global_id_counter st' = global_id_counter st ∧
     faiss_indexes st' = faiss_indexes st ∧
     size_threshold st' = size_threshold st ∧
     vessel_trajectory st' = vessel_trajectory st ∧
     camera_query_scope st' = camera_query_scope st).
Proof.
  unfold update_gallery_feature. fold (recorded_max st g cm).
  destruct (Z.ltb_spec (recorded_max st g cm) a) as [Hlt|Hge].
  - intros H. right. split; [exact Hlt|].
    destruct (max_size_record st !! g) as [rec|] eqn:Hrec; simpl in H.
    + inv_ok H. inv_ok Ha. simpl in Ha. inv_ok H.
      destruct (alist_get a0 g) as [data|] eqn:Hdata; [|discriminate].
      inv_ok Ha0. subst a1. inv_ok H. subst st'.
      exists a0, data. simpl. by repeat split.
    + inv_ok H. inv_ok Ha. inv_ok H.
      destruct (alist_get a0 g) as [data|] eqn:Hdata; [|discriminate].
      inv_ok Ha0. subst a1. inv_ok H. subst st'.
      exists a0, data. simpl. by repeat split.
  - intros [= <-]. left. split; [lia | reflexivity].
Qed.

Lemma update_gallery_feature_total st cm c g f a :
  is_Some (entry st c g) → ∃ st', update_gallery_feature st cm c g f a = Ok st'.
Proof.
  unfold entry, update_gallery_feature. intros [data Hdata].
  destruct (gallery st !! c) as [l|] eqn:Hl; [|discriminate].
  destruct (_ <? _); [|by eexists].
  destruct (max_size_record st !! g); simpl;
    unfold dict_get; rewrite Hl; simpl; rewrite Hdata; simpl; by eexists.
Qed.

Lemma register_object_in_gallery_Ok st cm c f a st' g :
  register_object_in_gallery st cm c f a = Ok (st', g) →
  global_id_counter st !! c = Some g ∧
  ∃ l index,
    gallery st !! c = Some l ∧ faiss_indexes st !! c = Some index ∧
    gallery st' = <[c := alist_set l g {[cm := f]}]> (gallery st) ∧
    global_id_counter st' = <[c := g + 1]> (global_id_counter st) ∧
    faiss_indexes st' = <[c := index ++ [f]]> (faiss_indexes st) ∧
    max_size_record st' = <[g := {[cm := a]}]> (max_size_record st) ∧
    local_to_global_id st' = local_to_global_id st ∧
    size_threshold st' = size_threshold st ∧
    vessel_trajectory st' = vessel_trajectory st ∧
    camera_query_scope st' = camera_query_scope st.
Proof.
  unfold register_object_in_gallery. intros H.
  inv_ok H. inv_ok Ha. simpl in H.
  inv_ok H. inv_ok Ha0. inv_ok H. inv_ok Ha1. inv_ok H.
  unfold faiss_add in Ha2. destruct (decide _); [|discriminate]. inv_ok Ha2.
  inv_ok H. subst. split; [assumption|].
  exists a1, a2. simpl. by repeat split.
Qed.

Lemma bind_local_Ok st c cm lid g st' :
  bind_local st c cm lid g = Ok st' →
  ∃ per_class,
    local_to_global_id st !! c = Some per_class ∧
    local_to_global_id st' =
      <[c := <[cm := <[lid := g]> (default ∅ (per_class !! cm))]> per_class]>
        (local_to_global_id st) ∧
    gallery st' = gallery st ∧
    global_id_counter st' = global_id_counter st ∧
    faiss_indexes st' = faiss_indexes st ∧
    max_size_record st' = max_size_record st ∧
    size_threshold st' = size_threshold st ∧
    vessel_trajectory st' = vessel_trajectory st ∧
    camera_query_scope st' = camera_query_scope st.
Proof.
  unfold bind_local. intros H. inv_ok H. inv_ok Ha. inv_ok H. subst st'.
  exists a. simpl. by repeat split.
Qed.

Lemma gallery_candidates_ids valid l f g :
  (f, g) ∈ gallery_candidates valid l → ∃ data, (g, data) ∈ l.
Proof.
  unfold gallery_candidates. intros Hin.
  apply list_elem_of_omap in Hin as ([g' data] & Hin & Hsome).
  destruct (best_feature valid data); [|discriminate].
  injection Hsome as <- <-. by exists data.
Qed.

Section WithConfig.
Context (cfg : config).

(** A match is a global id of the gallery of the class, and is only
    reported for an area at or above the size threshold. *)
Lemma match_with_gallery_Some st c q cm a g :
  match_with_gallery cfg st c q cm a = Ok (Some g) →
  is_Some (entry st c g) ∧ size_threshold st ≤ a.
Proof.
  unfold match_with_gallery.
  destruct (Z.ltb_spec a (size_threshold st)) as [Hlt|Hge]; [discriminate|].
  intros H. split; [|exact Hge].
  inv_ok H. inv_ok Ha.
  destruct (decide _); [discriminate|].
  destruct (decide _); [discriminate|].
  inv_ok H. inv_ok H. destruct a2 as [dist i].
  inv_ok H. inv_ok H.
  destruct (Qltb _ _); [|discriminate]. injection H as ->.
  apply py_index_elem_of in Ha2.
  apply list_elem_of_fmap in Ha2 as ([f g'] & -> & Hin).
  apply gallery_candidates_ids in Hin as [data Hin].
  apply list_elem_of_filter in Hin as [_ Hin].
  unfold entry. rewrite Ha. by eapply elem_of_alist_get.
Qed.

Lemma match_with_gallery_small st c q cm a :
  a < size_threshold st → match_with_gallery cfg st c q cm a = Ok None.
Proof.
  intros Hlt. unfold match_with_gallery.
  by destruct (Z.ltb_spec a (size_threshold st)); [|lia].
Qed.

(** *** Observations after a write *)

Lemma entry_insert st st' c l g v :
  gallery st !! c = Some l →
  gallery st' = <[c := alist_set l g v]> (gallery st) →
  ∀ c' g', entry st' c' g' =
           if decide (c' = c ∧ g' = g) then Some v else entry st c' g'.
Proof.
  intros Hl Hg c' g'. unfold entry. rewrite Hg.
  destruct (decide (c' = c)) as [->|Hc].
  - rewrite lookup_insert_eq, Hl, alist_get_set.
    destruct (decide (g = g')) as [->|Hg'].
    + by rewrite decide_True.
    + rewrite decide_False; [reflexivity | by intros [? ?]].
  - rewrite lookup_insert_ne by done.
    rewrite decide_False; [reflexivity | by intros [? ?]].
Qed.

Lemma binding_insert st st' c pc cm lid g :
  local_to_global_id st !! c = Some pc →
  local_to_global_id st' =
    <[c := <[cm := <[lid := g]> (default ∅ (pc !! cm))]> pc]> (local_to_global_id st) →
  ∀ c' cm' lid', binding st' c' cm' lid' =
    if decide (c' = c ∧ cm' = cm ∧ lid' = lid) then Some g
    else binding st c' cm' lid'.
Proof.
  intros Hpc Hb c' cm' lid'. unfold binding. rewrite Hb.
  destruct (decide (c' = c)) as [->|Hc].
  - rewrite lookup_insert_eq, Hpc. unfold bound_track.
    destruct (decide (cm' = cm)) as [->|Hcm].
    + rewrite lookup_insert_eq.
      destruct (decide (lid' = lid)) as [->|Hlid].
      * rewrite lookup_insert_eq. by rewrite decide_True.
      * rewrite lookup_insert_ne by done.
        rewrite decide_False by (by intros (? & ? & ?)).
        by destruct (pc !! cm).
    + rewrite lookup_insert_ne by done.
      by rewrite decide_False by (by intros (? & ? & ?)).
  - rewrite lookup_insert_ne by done.
    by rewrite decide_False by (by intros (? & ? & ?)).
Qed.

Lemma binding_unchanged st st' :
  local_to_global_id st' = local_to_global_id st →
  ∀ c cm lid, binding st' c cm lid = binding st c cm lid.
Proof. intros H c cm lid. unfold binding. by rewrite H. Qed.

Lemma entry_unchanged st st' :
  gallery st' = gallery st → ∀ c g, entry st' c g = entry st c g.
Proof. intros H c g. unfold entry. by rewrite H. Qed.

(** *** The invariant *)

Lemma wf_init types threshold : wf (init cfg types threshold).
Proof.
  split; simpl.
  - intros c. rewrite !dict_of_keys_lookup.
    destruct (decide (c ∈ types)); [by eauto | by intros [? ?]].
  - intros c cm lid g. unfold binding. simpl. rewrite dict_of_keys_lookup.
    destruct (decide (c ∈ types)); [|discriminate].
    unfold bound_track. by rewrite lookup_empty.
  - intros c g. unfold entry. simpl. rewrite dict_of_keys_lookup.
    destruct (decide (c ∈ types)); simpl; by intros [? ?].
  - intros c g. unfold entry. simpl. rewrite dict_of_keys_lookup.
    destruct (decide (c ∈ types)); simpl; by intros [? ?].
Qed.

Lemma wf_moved st obj : wf st → wf (moved st obj).
Proof. intros [H1 H2 H3 H4]. by split. Qed.

Lemma wf_update st cm c g f a st' :
  wf st → update_gallery_feature st cm c g f a = Ok st' → wf st'.
Proof.
  intros [H1 H2 H3 H4] Hu.
  apply update_gallery_feature_Ok in Hu
    as [[_ ->]|(_ & l & data & Hl & Hd & Hg & Hm & Hb & Hc & Hf & _)]; [by split|].
  assert (He : ∀ c' g', is_Some (entry st' c' g') → is_Some (entry st c' g')).
  { intros c' g'. rewrite (entry_insert st st' c l g _ Hl Hg).
    destruct (decide _) as [[-> ->]|]; [|done].
    intros _. unfold entry. rewrite Hl, Hd. by eexists. }
  split.
  - intros c'. rewrite Hb, Hc, Hf, Hg. intros Hs.
    destruct (H1 c' Hs) as (Hgal & ? & ?). repeat split; try done.
    destruct (decide (c' = c)) as [->|Hne];
      [rewrite lookup_insert_eq; by eexists | by rewrite lookup_insert_ne].
  - intros c' cm' lid' g'. rewrite (binding_unchanged _ _ Hb). intros Hbd.
    apply H2 in Hbd. rewrite (entry_insert st st' c l g _ Hl Hg).
    by destruct (decide _).
  - intros c' g' Hs. rewrite Hc. by apply H3, He.
  - intros c' g' Hs. apply He, H4 in Hs. rewrite Hm.
    destruct (max_size_record st !! g) eqn:Hrec; [|done].
    destruct (decide (g' = g)) as [->|Hne];
      [rewrite lookup_insert_eq; by eexists | by rewrite lookup_insert_ne].
Qed.

Lemma wf_bind_local st c cm lid g st' :
  wf st → is_Some (entry st c g) → bind_local st c cm lid g = Ok st' → wf st'.
Proof.
  intros [H1 H2 H3 H4] He Hb.
  apply bind_local_Ok in Hb as (pc & Hpc & Hl & Hg & Hc & Hf & Hm & _).
  pose proof (entry_unchanged _ _ Hg) as Hent.
  split.
  - intros c'. rewrite Hl, Hg, Hc, Hf. intros Hs. apply H1.
    destruct (decide (c' = c)) as [->|Hne]; [by eexists|].
    by rewrite lookup_insert_ne in Hs.
  - intros c' cm' lid' g'. rewrite (binding_insert st st' c pc cm lid g Hpc Hl), Hent.
    destruct (decide _) as [(-> & -> & ->)|]; [by intros [= <-] | apply H2].
  - intros c' g'. rewrite Hent, Hc. apply H3.
  - intros c' g'. rewrite Hent, Hm. apply H4.
Qed.

Lemma wf_register st cm c f a st' g :
  wf st → is_Some (local_to_global_id st !! c) →
  register_object_in_gallery st cm c f a = Ok (st', g) →
  wf st' ∧ entry st' c g = Some {[cm := f]} ∧ entry st c g = None.
Proof.
  intros [H1 H2 H3 H4] Hcls Hr.
  apply register_object_in_gallery_Ok in Hr
    as (Hn & l & index & Hl & Hi & Hg & Hc & Hf & Hm & Hb & _).
  pose proof (entry_insert st st' c l g _ Hl Hg) as Hent.
  assert (Hnew : entry st c g = None).
  { destruct (entry st c g) eqn:E; [|reflexivity].
    destruct (H3 c g) as (n & Hn' & Hlt); [by eexists|].
    rewrite Hn in Hn'. injection Hn' as <-. lia. }
  split; [|split; [|exact Hnew]].
  - split.
    + intros c'. rewrite Hb, Hg, Hc, Hf. intros Hs.
      destruct (H1 c' Hs) as (? & ? & ?).
      destruct (decide (c' = c)) as [->|Hne].
      * rewrite !lookup_insert_eq. by eauto.
      * by rewrite !lookup_insert_ne.
    + intros c' cm' lid' g'. rewrite (binding_unchanged _ _ Hb), Hent.
      intros Hbd. destruct (decide _); [by eexists | by eapply H2].
    + intros c' g'. rewrite Hent, Hc.
      destruct (decide _) as [[-> ->]|Hne].
      * intros _. exists (g + 1). rewrite lookup_insert_eq. split; [done | lia].
      * intros Hs. destruct (H3 c' g' Hs) as (n & Hn' & Hlt).
        destruct (decide (c' = c)) as [->|Hne'].
        -- rewrite lookup_insert_eq. rewrite Hn in Hn'. injection Hn' as <-.
           exists (g + 1). split; [done | lia].
        -- rewrite lookup_insert_ne by done. by exists n.
    + intros c' g'. rewrite Hent, Hm.
      destruct (decide (g' = g)) as [->|Hne'];
        [rewrite lookup_insert_eq; by eexists|].
      rewrite lookup_insert_ne by done.
      destruct (decide _) as [[_ ->]|]; [done | apply H4].
  - rewrite Hent. by rewrite decide_True.
Qed.

(** *** The loop body, case by case *)

Lemma process_object_inv st cm obj st' out :
  process_object cfg st cm obj = Ok (st', out) → resolution cfg st cm obj st' out.
Proof.
  unfold process_object. fold (moved st obj). intros H.
  inv_ok H. inv_ok Ha. simpl in Ha.
  destruct (bound_track a cm (local_id obj)) as [g|] eqn:Hb.
  - inv_ok H. inv_ok H. subst.
    eapply res_bound; [|exact Ha0|reflexivity].
    unfold binding. by rewrite Ha.
  - assert (Hnone : binding st (class_name obj) cm (local_id obj) = None)
      by (unfold binding; by rewrite Ha).
    inv_ok H. destruct a0 as [g|].
    + inv_ok H. inv_ok H. inv_ok H. subst.
      by eapply res_match.
    + destruct (Z.leb_spec (size_threshold (moved st obj))
                  (bbox_area (det_bbox obj))) as [Hge|Hlt].
      * inv_ok H. destruct a0 as [st1 g]. inv_ok H. inv_ok H. inv_ok H. subst.
        by eapply res_register.
      * inv_ok H. subst. by eapply res_small.
Qed.

(** A bound track resolves without raising as soon as its entry exists. *)
Lemma process_object_bound st cm obj g :
  binding st (class_name obj) cm (local_id obj) = Some g →
  is_Some (entry st (class_name obj) g) →
  ∃ st', process_object cfg st cm obj = Ok (st', update_info obj cm (Some g)) ∧
         update_gallery_feature (moved st obj) cm (class_name obj) g
           (det_feature obj) (bbox_area (det_bbox obj)) = Ok st'.
Proof.
  intros Hb He.
  destruct (update_gallery_feature_total (moved st obj) cm (class_name obj) g
              (det_feature obj) (bbox_area (det_bbox obj)) He) as [st' Hst'].
  exists st'. split; [|exact Hst'].
  unfold process_object. fold (moved st obj).
  unfold binding in Hb.
  destruct (local_to_global_id st !! class_name obj) as [pc|] eqn:Hpc; [|discriminate].
  unfold dict_get. simpl. rewrite Hpc. simpl. rewrite Hb. by rewrite Hst'.
Qed.

Lemma wf_process_object st cm obj st' out :
  wf st → process_object cfg st cm obj = Ok (st', out) → wf st'.
Proof.
  intros Hwf H. apply (wf_moved st obj) in Hwf.
  destruct (process_object_inv _ _ _ _ _ H)
    as [g Hb Hu _|g st1 Hc Hb Hm Hbl Hu _|g st1 st2 Hc Hb Hm Hge Hr Hbl Hu _
        |Hc Hb Hlt -> _].
  - by eapply wf_update.
  - apply match_with_gallery_Some in Hm as [He _].
    eapply wf_update; [|exact Hu]. by eapply wf_bind_local.
  - destruct (wf_register _ _ _ _ _ _ _ Hwf Hc Hr) as (Hwf1 & He & _).
    eapply wf_update; [|exact Hu].
    eapply wf_bind_local; [exact Hwf1| |exact Hbl]. by rewrite He.
  - exact Hwf.
Qed.

Lemma wf_process_objects objs : ∀ st cm st' outs,
  wf st → process_objects cfg st cm objs = Ok (st', outs) → wf st'.
Proof.
  induction objs as [|obj objs IH]; intros st cm st' outs Hwf H; simpl in H.
  - by injection H as <- _.
  - inv_ok H. destruct a as [st1 o]. inv_ok H. destruct a as [st2 os].
    inv_ok H. subst. eapply IH; [|exact Ha0]. by eapply wf_process_object.
Qed.

Lemma wf_run frames : ∀ st st',
  wf st → run cfg st frames = Ok st' → wf st'.
Proof.
  induction frames as [|[cm objs] frames IH]; intros st st' Hwf H; simpl in H.
  - by injection H as <-.
  - inv_ok H. destruct a as [st1 outs].
    eapply IH; [|exact H]. by eapply wf_process_objects.
Qed.

(** A frame with one detection is one resolution. *)
Lemma run_single st cm obj st' out :
  process_object cfg st cm obj = Ok (st', out) →
  run cfg st [(cm, [obj])] = Ok st'.
Proof.
  intros H. simpl. unfold process_camera_frame. simpl. by rewrite H.
Qed.

(** *** Bindings are created once and never rewritten *)

Lemma binding_process_object st cm obj st' out c cm' lid g :
  process_object cfg st cm obj = Ok (st', out) →
  binding st c cm' lid = Some g → binding st' c cm' lid = Some g.
Proof.
  intros H Hbd.
  assert (Hupd : ∀ s s' g0, update_gallery_feature s cm (class_name obj) g0
            (det_feature obj) (bbox_area (det_bbox obj)) = Ok s' →
            local_to_global_id s' = local_to_global_id s).
  { intros s s' g0 Hu.
    apply update_gallery_feature_Ok in Hu as [[_ ->]|(_ & l & d & Hu)]; [done|].
    by destruct Hu as (_ & _ & _ & _ & Hb & _). }
  assert (Hbl : ∀ s s' g0,
            binding s (class_name obj) cm (local_id obj) = None →
            binding s c cm' lid = Some g →
            bind_local s (class_name obj) cm (local_id obj) g0 = Ok s' →
            binding s' c cm' lid = Some g).
  { intros s s' g0 Hnone Hsome Hb.
    apply bind_local_Ok in Hb as (pc & Hpc & Hl & _).
    rewrite (binding_insert s s' _ pc cm (local_id obj) g0 Hpc Hl).
    destruct (decide _) as [(-> & -> & ->)|]; [congruence | done]. }
  destruct (process_object_inv _ _ _ _ _ H)
    as [g0 Hb Hu _|g0 st1 Hc Hb Hm Hbl1 Hu _|g0 st1 st2 Hc Hb Hm Hge Hr Hbl1 Hu _
        |Hc Hb Hlt -> _].
  - by rewrite (binding_unchanged _ _ (Hupd _ _ _ Hu)).
  - rewrite (binding_unchanged _ _ (Hupd _ _ _ Hu)).
    exact (Hbl (moved st obj) st1 g0 Hb Hbd Hbl1).
  - rewrite (binding_unchanged _ _ (Hupd _ _ _ Hu)).
    apply register_object_in_gallery_Ok in Hr as (_ & l & i & Hr).
    destruct Hr as (_ & _ & _ & _ & _ & _ & Hl2g & _).
    eapply Hbl; [| |exact Hbl1]; by rewrite (binding_unchanged _ _ Hl2g).
  - exact Hbd.
Qed.

Lemma binding_process_objects objs : ∀ st cm st' outs c cm' lid g,
  process_objects cfg st cm objs = Ok (st', outs) →
  binding st c cm' lid = Some g → binding st' c cm' lid = Some g.
Proof.
  induction objs as [|obj objs IH]; intros st cm st' outs c cm' lid g H Hb;
    simpl in H.
  - by injection H as <- _.
  - inv_ok H. destruct a as [st1 o]. inv_ok H. destruct a as [st2 os].
    inv_ok H. subst. eapply IH; [exact Ha0|]. by eapply binding_process_object.
Qed.

Lemma binding_run frames : ∀ st st' c cm lid g,
  run cfg st frames = Ok st' →
  binding st c cm lid = Some g → binding st' c cm lid = Some g.
Proof.
  induction frames as [|[cm0 objs] frames IH]; intros st st' c cm lid g H Hb;
    simpl in H.
  - by injection H as <-.
  - inv_ok H. destruct a as [st1 outs].
    eapply IH; [exact H|]. by eapply binding_process_objects.
Qed.

(** A resolution that returns a global id leaves its key bound to it. *)
Lemma process_object_binds st cm obj st' out g :
  process_object cfg st cm obj = Ok (st', out) →
  t_global_id out = Some g →
  binding st' (class_name obj) cm (local_id obj) = Some g.
Proof.
  intros H Hout.
  assert (Hupd : ∀ s s' g0, update_gallery_feature s cm (class_name obj) g0
            (det_feature obj) (bbox_area (det_bbox obj)) = Ok s' →
            local_to_global_id s' = local_to_global_id s).
  { intros s s' g0 Hu.
    apply update_gallery_feature_Ok in Hu as [[_ ->]|(_ & l & d & Hu)]; [done|].
    by destruct Hu as (_ & _ & _ & _ & Hb & _). }
  assert (Hbl : ∀ s s' g0,
            bind_local s (class_name obj) cm (local_id obj) g0 = Ok s' →
            binding s' (class_name obj) cm (local_id obj) = Some g0).
  { intros s s' g0 Hb.
    apply bind_local_Ok in Hb as (pc & Hpc & Hl & _).
    rewrite (binding_insert s s' _ pc cm (local_id obj) g0 Hpc Hl).
    by rewrite decide_True. }
  destruct (process_object_inv _ _ _ _ _ H)
    as [g0 Hb Hu ->|g0 st1 Hc Hb Hm Hbl1 Hu ->|g0 st1 st2 Hc Hb Hm Hge Hr Hbl1 Hu ->
        |Hc Hb Hlt -> ->]; simpl in Hout; try (injection Hout as ->).
  - by rewrite (binding_unchanged _ _ (Hupd _ _ _ Hu)).
  - rewrite (binding_unchanged _ _ (Hupd _ _ _ Hu)). by eapply Hbl.
  - rewrite (binding_unchanged _ _ (Hupd _ _ _ Hu)). by eapply Hbl.
  - discriminate.
Qed.

(** *** The best-shot update, observed *)

Lemma update_unchanged st cm c g f a st' :
  update_gallery_feature st cm c g f a = Ok st' →
  a ≤ recorded_max st g cm → st' = st.
Proof.
  intros Hu Hle.
  apply update_gallery_feature_Ok in Hu as [[_ ->]|[Hlt _]]; [reflexivity | lia].
Qed.

Lemma update_tables st cm c g f a st' :
  update_gallery_feature st cm c g f a = Ok st' →
  local_to_global_id st' = local_to_global_id st ∧
  global_id_counter st' = global_id_counter st ∧
  faiss_indexes st' = faiss_indexes st ∧
  vessel_trajectory st' = vessel_trajectory st ∧
  ∀ c' g', is_Some (entry st' c' g') ↔ is_Some (entry st c' g').
Proof.
  intros Hu.
  apply update_gallery_feature_Ok in Hu
    as [[_ ->]|(_ & l & data & Hl & Hd & Hg & _ & Hb & Hc & Hf & _ & Ht & _)];
    [done|].
  repeat split; try done.
  - rewrite (entry_insert st st' c l g _ Hl Hg).
    destruct (decide _) as [[-> ->]|]; [|done].
    intros _. unfold entry. rewrite Hl, Hd. by eexists.
  - rewrite (entry_insert st st' c l g _ Hl Hg).
    destruct (decide _); [by eexists | done].
Qed.

Lemma stored_update st cm c g f a st' :
  update_gallery_feature st cm c g f a = Ok st' →
  recorded_max st g cm < a →
  ∀ c' g' cm', stored st' c' g' cm' =
    if decide (c' = c ∧ g' = g ∧ cm' = cm) then Some f else stored st c' g' cm'.
Proof.
  intros Hu Hlt c' g' cm'.
  apply update_gallery_feature_Ok in Hu
    as [[Hle _]|(_ & l & data & Hl & Hd & Hg & _)]; [lia|].
  unfold stored. rewrite (entry_insert st st' c l g _ Hl Hg).
  destruct (decide (c' = c ∧ g' = g)) as [[-> ->]|Hne].
  - destruct (decide (cm' = cm)) as [->|Hcm].
    + rewrite lookup_insert_eq. by rewrite decide_True.
    + rewrite lookup_insert_ne by done.
      rewrite decide_False by (by intros (? & ? & ?)).
      unfold entry. by rewrite Hl, Hd.
  - rewrite decide_False; [reflexivity|].
    intros (? & ? & ?). by apply Hne.
Qed.

Lemma recorded_update st cm c g f a st' :
  update_gallery_feature st cm c g f a = Ok st' →
  recorded_max st g cm < a →
  is_Some (max_size_record st !! g) →
  ∀ g' cm', recorded_max st' g' cm' =
    if decide (g' = g ∧ cm' = cm) then a else recorded_max st g' cm'.
Proof.
  intros Hu Hlt [rec Hrec] g' cm'.
  apply update_gallery_feature_Ok in Hu
    as [[Hle _]|(_ & l & data & _ & _ & _ & Hm & _)]; [lia|].
  unfold recorded_max. rewrite Hm, Hrec.
  destruct (decide (g' = g)) as [->|Hg].
  - rewrite lookup_insert_eq. simpl.
    destruct (decide (cm' = cm)) as [->|Hcm].
    + rewrite lookup_insert_eq. by rewrite decide_True.
    + rewrite lookup_insert_ne by done.
      rewrite decide_False by (by intros [? ?]). by rewrite Hrec.
  - rewrite lookup_insert_ne by done.
    by rewrite decide_False by (by intros [? ?]).
Qed.

(** *** Resolution of a bound track *)

(** C7, as amended.  A resolution whose key is already bound to [g] skips
    the gallery matching step: it returns [g], leaves the bindings, the
    counters and the index alone and creates no gallery entry.  The
    best-shot update still runs: when the area does not exceed the maximum
    on record for [(g, camera)] the gallery and the records are unchanged;
    when it does, the embedding and the maximum stored for that camera in
    the entry of [g] are replaced by the new ones, and nothing else is. *)
Theorem bound_resolution_effect types threshold frames st cm obj g :
  run cfg (init cfg types threshold) frames = Ok st →
  binding st (class_name obj) cm (local_id obj) = Some g →
  ∃ st', process_object cfg st cm obj = Ok (st', update_info obj cm (Some g)) ∧
    local_to_global_id st' = local_to_global_id st ∧
    global_id_counter st' = global_id_counter st ∧
    faiss_indexes st' = faiss_indexes st ∧
    (∀ c' g', is_Some (entry st' c' g') ↔ is_Some (entry st c' g')) ∧
    (bbox_area (det_bbox obj) ≤ recorded_max st g cm →
       gallery st' = gallery st ∧ max_size_record st' = max_size_record st) ∧
    (recorded_max st g cm < bbox_area (det_bbox obj) →
       (∀ c' g' cm', stored st' c' g' cm' =
          if decide (c' = class_name obj ∧ g' = g ∧ cm' = cm)
          then Some (det_feature obj) else stored st c' g' cm') ∧
       (∀ g' cm', recorded_max st' g' cm' =
          if decide (g' = g ∧ cm' = cm)
          then bbox_area (det_bbox obj) else recorded_max st g' cm')).
Proof.
  intros Hreach Hb.
  assert (Hwf : wf st) by (eapply wf_run; [apply wf_init | exact Hreach]).
  pose proof (wf_bound _ Hwf _ _ _ _ Hb) as He.
  destruct (process_object_bound st cm obj g Hb He) as (st' & Hres & Hu).
  exists st'. split; [exact Hres|].
  destruct (update_tables _ _ _ _ _ _ _ Hu) as (Hl & Hc & Hf & _ & Hent).
  repeat split; try done.
  - apply Hent.
  - apply Hent.
  - by rewrite (update_unchanged _ _ _ _ _ _ _ Hu).
  - by rewrite (update_unchanged _ _ _ _ _ _ _ Hu).
  - intros c' g' cm'. by rewrite (stored_update _ _ _ _ _ _ _ Hu).
  - intros g' cm'. rewrite (recorded_update _ _ _ _ _ _ _ Hu); [done|done|].
    by eapply (wf_record _ Hwf).
Qed.

(** *** Best-shot rule *)

Lemma stored_unchanged st st' :
  gallery st' = gallery st → ∀ c g cm, stored st' c g cm = stored st c g cm.
Proof. intros H c g cm. unfold stored. by rewrite (entry_unchanged _ _ H). Qed.

Lemma recorded_unchanged st st' :
  max_size_record st' = max_size_record st →
  ∀ g cm, recorded_max st' g cm = recorded_max st g cm.
Proof. intros H g cm. unfold recorded_max. by rewrite H. Qed.

(** The step a resolution takes after it has settled on global id [g]:
    an embedding that was stored changes only under the best-shot rule. *)
Lemma update_overwrites_only_larger st cm c g f a st' c' g' cm' e :
  update_gallery_feature st cm c g f a = Ok st' →
  stored st c' g' cm' = Some e →
  stored st' c' g' cm' ≠ Some e →
  c' = c ∧ g' = g ∧ cm' = cm ∧ recorded_max st g cm < a ∧
  stored st' c' g' cm' = Some f.
Proof.
  intros Hu Hs Hne.
  destruct (Z.le_gt_cases a (recorded_max st g cm)) as [Hle|Hlt].
  - rewrite (update_unchanged _ _ _ _ _ _ _ Hu Hle) in Hne. contradiction.
  - rewrite (stored_update _ _ _ _ _ _ _ Hu Hlt) in Hne |- *.
    destruct (decide _) as [(-> & -> & ->)|]; [done | contradiction].
Qed.

(** The best-shot update against the record as it stands.  One resolution
    replaces an embedding that was stored for [(class, global id, camera)]
    only when it resolved to that global id on that camera with an area
    strictly above the maximum then on record for [(global id, camera)],
    on every path through the resolution; and when a resolution with area
    [a1] returned [g] and no area above [a1] is on record for
    [(g, camera)] afterwards, the next detection of the same track with
    area [a2 > a1] leaves its own embedding and [a2] stored.  The record
    is that of the number [g], whatever the class. *)
Theorem best_shot_rule types threshold frames st0 cm obj1 st1 out1 :
  run cfg (init cfg types threshold) frames = Ok st0 →
  process_object cfg st0 cm obj1 = Ok (st1, out1) →
  (∀ c g cm' e,
     stored st0 c g cm' = Some e → stored st1 c g cm' ≠ Some e →
     c = class_name obj1 ∧ cm' = cm ∧ t_global_id out1 = Some g ∧
     recorded_max st0 g cm < bbox_area (det_bbox obj1) ∧
     stored st1 c g cm' = Some (det_feature obj1)) ∧
  (∀ g obj2,
     t_global_id out1 = Some g →
     class_name obj2 = class_name obj1 → local_id obj2 = local_id obj1 →
     bbox_area (det_bbox obj1) < bbox_area (det_bbox obj2) →
     recorded_max st1 g cm ≤ bbox_area (det_bbox obj1) →
     ∃ st2, process_object cfg st1 cm obj2 = Ok (st2, update_info obj2 cm (Some g)) ∧
            stored st2 (class_name obj1) g cm = Some (det_feature obj2) ∧
            recorded_max st2 g cm = bbox_area (det_bbox obj2)) ∧
  (∀ g, registers cfg st0 cm obj1 g →
        recorded_max st1 g cm = bbox_area (det_bbox obj1)).
Proof.
  intros Hreach Hres.
  assert (Hwf0 : wf st0) by (eapply wf_run; [apply wf_init | exact Hreach]).
  assert (Hwf1 : wf st1) by (by eapply wf_process_object).
  split; [|split].
  - intros c g cm' e Hs Hne.
    destruct (process_object_inv _ _ _ _ _ Hres)
      as [g0 Hb Hu ->|g0 s1 Hc Hb Hm Hbl Hu ->|g0 s1 s2 Hc Hb Hm Hge Hr Hbl Hu ->
          |Hc Hb Hlt -> ->].
    + destruct (update_overwrites_only_larger _ _ _ _ _ _ _ _ _ _ _ Hu Hs Hne)
        as (-> & -> & -> & Hlt & Hst). by repeat split.
    + apply bind_local_Ok in Hbl as (pc & _ & _ & Hg & _ & _ & Hmr & _).
      assert (Hs1 : stored s1 c g cm' = Some e)
        by (rewrite (stored_unchanged (moved st0 obj1) s1 Hg); exact Hs).
      destruct (update_overwrites_only_larger _ _ _ _ _ _ _ _ _ _ _ Hu Hs1 Hne)
        as (-> & -> & -> & Hlt & Hst).
      rewrite (recorded_unchanged (moved st0 obj1) s1 Hmr) in Hlt.
      by repeat split.
    + exfalso.
      destruct (wf_register _ _ _ _ _ _ _ (wf_moved _ obj1 Hwf0) Hc Hr)
        as (_ & _ & Hnew).
      apply register_object_in_gallery_Ok in Hr
        as (_ & l & i & Hl & _ & Hg1 & _ & _ & Hm1 & _).
      apply bind_local_Ok in Hbl as (pc & _ & _ & Hg2 & _ & _ & Hm2 & _).
      assert (Hrec : recorded_max s2 g0 cm = bbox_area (det_bbox obj1)).
      { unfold recorded_max. rewrite Hm2, Hm1, lookup_insert_eq. simpl.
        by rewrite lookup_singleton_eq. }
      rewrite (update_unchanged _ _ _ _ _ _ _ Hu) in Hne by lia.
      rewrite (stored_unchanged _ _ Hg2) in Hne.
      apply Hne. rewrite <- Hs. unfold stored.
      rewrite (entry_insert _ s1 _ l g0 _ Hl Hg1).
      destruct (decide _) as [[-> ->]|]; [|done].
      unfold stored in Hs. change (entry (moved st0 obj1)) with (entry st0) in Hnew.
      by rewrite Hnew in Hs.
    + contradiction.
  - intros g obj2 Hg Hclass Hlid Hlt Hrec.
    pose proof (process_object_binds _ _ _ _ _ _ Hres Hg) as Hb.
    rewrite <- Hclass, <- Hlid in Hb.
    pose proof (wf_bound _ Hwf1 _ _ _ _ Hb) as He.
    destruct (process_object_bound st1 cm obj2 g Hb He) as (st2 & Hres2 & Hu).
    exists st2. split; [exact Hres2|].
    assert (Hlt' : recorded_max (moved st1 obj2) g cm < bbox_area (det_bbox obj2))
      by (change (recorded_max (moved st1 obj2)) with (recorded_max st1); lia).
    split.
    + rewrite (stored_update _ _ _ _ _ _ _ Hu Hlt'), Hclass. by rewrite decide_True.
    + rewrite (recorded_update _ _ _ _ _ _ _ Hu Hlt').
      * by rewrite decide_True.
      * by eapply (wf_record _ Hwf1).
  - intros g (Hb & Hm & Hge & s1 & Hr).
    destruct (process_object_inv _ _ _ _ _ Hres)
      as [g0 Hb0 _ _|g0 s1' _ _ Hm0 _ _ _|g0 s1' s2 _ _ _ _ Hr0 Hbl Hu _|_ _ Hlt _ _].
    + congruence.
    + change (match_with_gallery cfg (moved st0 obj1))
        with (match_with_gallery cfg st0) in Hm0. congruence.
    + rewrite Hr in Hr0. injection Hr0 as -> ->.
      apply register_object_in_gallery_Ok in Hr
        as (_ & l & i & _ & _ & _ & _ & _ & Hm1 & _).
      apply bind_local_Ok in Hbl as (pc & _ & _ & _ & _ & _ & Hm2 & _).
      assert (Hrec : recorded_max s2 g0 cm = bbox_area (det_bbox obj1)).
      { unfold recorded_max. rewrite Hm2, Hm1, lookup_insert_eq. simpl.
        by rewrite lookup_singleton_eq. }
      by rewrite (update_unchanged _ _ _ _ _ _ _ Hu) by lia.
    + lia.
Qed.

(** *** Detections below the size threshold *)

Lemma classes_process_object st cm obj st' out c :
  process_object cfg st cm obj = Ok (st', out) →
  is_Some (local_to_global_id st !! c) → is_Some (local_to_global_id st' !! c).
Proof.
  intros H Hs.
  assert (Hbl : ∀ s s' g0,
            is_Some (local_to_global_id s !! c) →
            bind_local s (class_name obj) cm (local_id obj) g0 = Ok s' →
            is_Some (local_to_global_id s' !! c)).
  { intros s s' g0 Hsome Hb.
    apply bind_local_Ok in Hb as (pc & Hpc & -> & _).
    destruct (decide (c = class_name obj)) as [->|Hne];
      [rewrite lookup_insert_eq; by eexists | by rewrite lookup_insert_ne]. }
  destruct (process_object_inv _ _ _ _ _ H)
    as [g0 Hb Hu _|g0 st1 Hc Hb Hm Hbl1 Hu _|g0 st1 st2 Hc Hb Hm Hge Hr Hbl1 Hu _
        |Hc Hb Hlt -> _].
  - destruct (update_tables _ _ _ _ _ _ _ Hu) as (-> & _). exact Hs.
  - destruct (update_tables _ _ _ _ _ _ _ Hu) as (-> & _).
    exact (Hbl (moved st obj) st1 g0 Hs Hbl1).
  - destruct (update_tables _ _ _ _ _ _ _ Hu) as (-> & _).
    apply register_object_in_gallery_Ok in Hr as (_ & l & i & Hr).
    destruct Hr as (_ & _ & _ & _ & _ & _ & Hl2g & _).
    eapply Hbl; [|exact Hbl1]. by rewrite Hl2g.
  - exact Hs.
Qed.

Lemma classes_process_objects objs : ∀ st cm st' outs c,
  process_objects cfg st cm objs = Ok (st', outs) →
  is_Some (local_to_global_id st !! c) → is_Some (local_to_global_id st' !! c).
Proof.
  induction objs as [|obj objs IH]; intros st cm st' outs c H Hs; simpl in H.
  - by injection H as <- _.
  - inv_ok H. destruct a as [st1 o]. inv_ok H. destruct a as [st2 os].
    inv_ok H. subst. eapply IH; [exact Ha0|]. by eapply classes_process_object.
Qed.

Lemma classes_run frames : ∀ st st' c,
  run cfg st frames = Ok st' →
  is_Some (local_to_global_id st !! c) → is_Some (local_to_global_id st' !! c).
Proof.
  induction frames as [|[cm0 objs] frames IH]; intros st st' c H Hs; simpl in H.
  - by injection H as <-.
  - inv_ok H. destruct a as [st1 outs].
    eapply IH; [exact H|]. by eapply classes_process_objects.
Qed.

Lemma classes_init types threshold c :
  c ∈ types → is_Some (local_to_global_id (init cfg types threshold) !! c).
Proof.
  intros Hin. simpl. rewrite dict_of_keys_lookup. rewrite decide_True by done.
  by eexists.
Qed.

(** A camera whose query scope is empty never matches. *)
Lemma match_with_gallery_no_scope st c q cm a :
  default [] (camera_query_scope st !! cm) = [] →
  is_Some (gallery st !! c) →
  match_with_gallery cfg st c q cm a = Ok None.
Proof.
  intros Hscope [l Hl]. unfold match_with_gallery.
  destruct (_ <? _); [reflexivity|].
  rewrite Hscope. unfold dict_get. rewrite Hl. cbn [rbind].
  assert (Hnil : filter (fun '(_, data) => from_valid_camera [] data = true) l = []).
  { clear Hl. induction l as [|[g0 d0] l IH]; [reflexivity|].
    rewrite filter_cons_False; [exact IH | simpl; discriminate]. }
  by rewrite Hnil.
Qed.

Lemma register_object_in_gallery_total st cm c f a n :
  global_id_counter st !! c = Some n →
  is_Some (gallery st !! c) → is_Some (faiss_indexes st !! c) →
  length f = INDEX_DIM →
  ∃ st', register_object_in_gallery st cm c f a = Ok (st', n).
Proof.
  intros Hn [l Hl] [i Hi] Hlen. unfold register_object_in_gallery, dict_get.
  rewrite Hn. simpl. rewrite Hl. simpl. rewrite Hi. simpl.
  unfold faiss_add. rewrite decide_True by exact Hlen. simpl. by eexists.
Qed.

Lemma bind_local_total st c cm lid g :
  is_Some (local_to_global_id st !! c) → ∃ st', bind_local st c cm lid g = Ok st'.
Proof.
  intros [pc Hpc]. unfold bind_local, dict_get. rewrite Hpc. simpl. by eexists.
Qed.

(** The registration path, run forwards. *)
Lemma process_object_register st cm obj st1 g st2 st' :
  is_Some (local_to_global_id st !! class_name obj) →
  binding st (class_name obj) cm (local_id obj) = None →
  match_with_gallery cfg st (class_name obj) (det_feature obj) cm
    (bbox_area (det_bbox obj)) = Ok None →
  size_threshold st ≤ bbox_area (det_bbox obj) →
  register_object_in_gallery (moved st obj) cm (class_name obj)
    (det_feature obj) (bbox_area (det_bbox obj)) = Ok (st1, g) →
  bind_local st1 (class_name obj) cm (local_id obj) g = Ok st2 →
  update_gallery_feature st2 cm (class_name obj) g
    (det_feature obj) (bbox_area (det_bbox obj)) = Ok st' →
  process_object cfg st cm obj = Ok (st', update_info obj cm (Some g)).
Proof.
  intros [pc Hpc] Hb Hm Hge Hr Hbl Hu.
  unfold process_object. fold (moved st obj).
  unfold dict_get. simpl. rewrite Hpc. simpl.
  unfold binding in Hb. rewrite Hpc in Hb. rewrite Hb.
  change (match_with_gallery cfg (moved st obj)) with (match_with_gallery cfg st).
  rewrite Hm. simpl.
  destruct (Z.leb_spec (size_threshold st) (bbox_area (det_bbox obj))); [|lia].
  rewrite Hr. simpl. rewrite Hbl. simpl. by rewrite Hu.
Qed.

(** The below-threshold path, run forwards. *)
Lemma process_object_small st cm obj :
  is_Some (local_to_global_id st !! class_name obj) →
  binding st (class_name obj) cm (local_id obj) = None →
  bbox_area (det_bbox obj) < size_threshold st →
  process_object cfg st cm obj = Ok (moved st obj, update_info obj cm None).
Proof.
  intros [pc Hpc] Hb Hlt.
  unfold process_object. fold (moved st obj).
  unfold dict_get. simpl. rewrite Hpc. simpl.
  unfold binding in Hb. rewrite Hpc in Hb. rewrite Hb.
  rewrite match_with_gallery_small by exact Hlt. simpl.
  by destruct (Z.leb_spec (size_threshold st) (bbox_area (det_bbox obj))); [lia|].
Qed.

(** C5, as amended.  A detection below the size threshold whose key is
    unbound resolves to none; the gallery, the index, the counters, the
    area records and the bindings are untouched (the last-position map
    alone records the box).  A later detection of the same track at or
    above the threshold, the key being still unbound, is resolved like any
    new track: it is bound to the global id the matching step returns, or,
    when the matching step finds none, to a freshly registered one; on a
    camera with no predecessor the resolution succeeds and the id is
    always fresh. *)
Theorem below_threshold_resolution types threshold frames st cm obj :
  run cfg (init cfg types threshold) frames = Ok st →
  class_name obj ∈ types →
  binding st (class_name obj) cm (local_id obj) = None →
  bbox_area (det_bbox obj) < size_threshold st →
  process_object cfg st cm obj = Ok (moved st obj, update_info obj cm None) ∧
  same_identity_state st (moved st obj) ∧
  vessel_trajectory (moved st obj) !! local_id obj = Some (det_bbox obj) ∧
  ∀ frames2 st2 obj2,
    run cfg (moved st obj) frames2 = Ok st2 →
    class_name obj2 = class_name obj → local_id obj2 = local_id obj →
    binding st2 (class_name obj) cm (local_id obj) = None →
    size_threshold st2 ≤ bbox_area (det_bbox obj2) →
    (∀ st3 out, process_object cfg st2 cm obj2 = Ok (st3, out) →
       ∃ g, t_global_id out = Some g ∧
            binding st3 (class_name obj) cm (local_id obj) = Some g ∧
            (match_with_gallery cfg st2 (class_name obj) (det_feature obj2) cm
               (bbox_area (det_bbox obj2)) = Ok (Some g) ∨
             (match_with_gallery cfg st2 (class_name obj) (det_feature obj2) cm
                (bbox_area (det_bbox obj2)) = Ok None ∧
              entry st2 (class_name obj) g = None ∧
              global_id_counter st2 !! class_name obj = Some g))) ∧
    (default [] (camera_query_scope st2 !! cm) = [] →
     length (det_feature obj2) = INDEX_DIM →
     ∃ st3 g, process_object cfg st2 cm obj2 = Ok (st3, update_info obj2 cm (Some g)) ∧
              entry st2 (class_name obj) g = None ∧
              global_id_counter st2 !! class_name obj = Some g ∧
              binding st3 (class_name obj) cm (local_id obj) = Some g).
Proof.
  intros Hreach Hin Hb Hlt.
  assert (Hwf : wf st) by (eapply wf_run; [apply wf_init | exact Hreach]).
  assert (Hcls : is_Some (local_to_global_id st !! class_name obj))
    by (eapply classes_run; [exact Hreach | by apply classes_init]).
  split; [|split; [by repeat split|split; [simpl; by rewrite lookup_insert_eq|]]].
  - by apply process_object_small.
  - intros frames2 st2 obj2 Hrun2 Hclass Hlid Hb2 Hge.
    assert (Hwf2 : wf st2)
      by (eapply wf_run; [apply (wf_moved st obj Hwf) | exact Hrun2]).
    assert (Hcls2 : is_Some (local_to_global_id st2 !! class_name obj))
      by (eapply classes_run; [exact Hrun2 | exact Hcls]).
    rewrite <- Hclass, <- Hlid in *.
    split.
    + intros st3 out Hres.
      destruct (process_object_inv _ _ _ _ _ Hres)
        as [g Hbd _ _|g s1 _ _ Hm _ _ Hout|g s1 s2 Hc _ Hm _ Hr _ _ Hout|_ _ Hsm _ _];
        [congruence| | |lia].
      * exists g. split; [by rewrite Hout|].
        split; [eapply process_object_binds; [exact Hres | by rewrite Hout]|].
        by left.
      * exists g. split; [by rewrite Hout|].
        split; [eapply process_object_binds; [exact Hres | by rewrite Hout]|].
        right. split; [exact Hm|].
        destruct (wf_register _ _ _ _ _ _ _ (wf_moved _ obj2 Hwf2) Hc Hr)
          as (_ & _ & Hnew).
        apply register_object_in_gallery_Ok in Hr as (Hn & _).
        by split.
    + intros Hscope Hlen.
      destruct (wf_classes _ Hwf2 _ Hcls2) as (Hgal & [n Hn] & Hidx).
      pose proof (match_with_gallery_no_scope st2 (class_name obj2)
                    (det_feature obj2) cm (bbox_area (det_bbox obj2)) Hscope Hgal)
        as Hm.
      destruct (register_object_in_gallery_total (moved st2 obj2) cm
                  (class_name obj2) (det_feature obj2) (bbox_area (det_bbox obj2))
                  n Hn Hgal Hidx Hlen) as [s1 Hr].
      destruct (wf_register _ _ _ _ _ _ _ (wf_moved _ obj2 Hwf2) Hcls2 Hr)
        as (Hwf1 & He1 & Hnew).
      pose proof Hr as Hr'.
      apply register_object_in_gallery_Ok in Hr'
        as (_ & l & i & _ & _ & _ & _ & _ & _ & Hl2g & _).
      destruct (bind_local_total s1 (class_name obj2) cm (local_id obj2) n)
        as [s2 Hbl]; [by rewrite Hl2g|].
      assert (He2 : is_Some (entry s2 (class_name obj2) n)).
      { pose proof Hbl as Hbl'.
        apply bind_local_Ok in Hbl' as (pc & _ & _ & Hg & _).
        rewrite (entry_unchanged _ _ Hg), He1. by eexists. }
      destruct (update_gallery_feature_total s2 cm (class_name obj2) n
                  (det_feature obj2) (bbox_area (det_bbox obj2)) He2) as [st3 Hu].
      pose proof (process_object_register st2 cm obj2 s1 n s2 st3
                    Hcls2 Hb2 Hm Hge Hr Hbl Hu) as Hres.
      exists st3, n. split; [exact Hres|]. split; [exact Hnew|]. split; [exact Hn|].
      by eapply process_object_binds.
Qed.

(** *** The counters *)

Lemma counter_process_object st cm obj st' out c n :
  process_object cfg st cm obj = Ok (st', out) →
  global_id_counter st !! c = Some n →
  ∃ n', global_id_counter st' !! c = Some n' ∧ n ≤ n'.
Proof.
  intros H Hn.
  assert (Hbl : ∀ s s' g0, bind_local s (class_name obj) cm (local_id obj) g0 = Ok s' →
                           global_id_counter s' = global_id_counter s).
  { intros s s' g0 Hb. by apply bind_local_Ok in Hb as (pc & _ & _ & _ & Hc & _). }
  destruct (process_object_inv _ _ _ _ _ H)
    as [g0 Hb Hu _|g0 st1 Hc Hb Hm Hbl1 Hu _|g0 st1 st2 Hc Hb Hm Hge Hr Hbl1 Hu _
        |Hc Hb Hlt -> _].
  - destruct (update_tables _ _ _ _ _ _ _ Hu) as (_ & -> & _). by exists n.
  - destruct (update_tables _ _ _ _ _ _ _ Hu) as (_ & -> & _).
    rewrite (Hbl _ _ _ Hbl1). by exists n.
  - destruct (update_tables _ _ _ _ _ _ _ Hu) as (_ & -> & _).
    rewrite (Hbl _ _ _ Hbl1).
    apply register_object_in_gallery_Ok in Hr
      as (Hg0 & l & i & _ & _ & _ & -> & _).
    destruct (decide (c = class_name obj)) as [->|Hne].
    + rewrite lookup_insert_eq. simpl in Hg0. rewrite Hn in Hg0.
      injection Hg0 as <-. exists (n + 1). split; [done | lia].
    + rewrite lookup_insert_ne by done. by exists n.
  - by exists n.
Qed.

Lemma counter_process_objects objs : ∀ st cm st' outs c n,
  process_objects cfg st cm objs = Ok (st', outs) →
  global_id_counter st !! c = Some n →
  ∃ n', global_id_counter st' !! c = Some n' ∧ n ≤ n'.
Proof.
  induction objs as [|obj objs IH]; intros st cm st' outs c n H Hn; simpl in H.
  - injection H as <- _. by exists n.
  - inv_ok H. destruct a as [st1 o]. inv_ok H. destruct a as [st2 os].
    inv_ok H. subst.
    destruct (counter_process_object _ _ _ _ _ _ _ Ha Hn) as (n1 & Hn1 & Hle1).
    destruct (IH _ _ _ _ _ _ Ha0 Hn1) as (n2 & Hn2 & Hle2).
    exists n2. split; [done | lia].
Qed.

Lemma counter_run frames : ∀ st st' c n,
  run cfg st frames = Ok st' →
  global_id_counter st !! c = Some n →
  ∃ n', global_id_counter st' !! c = Some n' ∧ n ≤ n'.
Proof.
  induction frames as [|[cm0 objs] frames IH]; intros st st' c n H Hn; simpl in H.
  - injection H as <-. by exists n.
  - inv_ok H. destruct a as [st1 outs].
    destruct (counter_process_objects _ _ _ _ _ _ _ Ha Hn) as (n1 & Hn1 & Hle1).
    destruct (IH _ _ _ _ H Hn1) as (n2 & Hn2 & Hle2).
    exists n2. split; [done | lia].
Qed.

(** A resolution that registers [g] leaves the counter of the class at
    [g + 1]. *)
Lemma registers_counter st cm obj g st' out :
  registers cfg st cm obj g →
  process_object cfg st cm obj = Ok (st', out) →
  global_id_counter st !! class_name obj = Some g ∧
  global_id_counter st' !! class_name obj = Some (g + 1) ∧
  t_global_id out = Some g.
Proof.
  intros (Hb & Hm & Hge & s1 & Hr) H.
  assert (Hbl : ∀ s s' g0, bind_local s (class_name obj) cm (local_id obj) g0 = Ok s' →
                           global_id_counter s' = global_id_counter s).
  { intros s s' g0 Hb0. by apply bind_local_Ok in Hb0 as (pc & _ & _ & _ & Hc & _). }
  destruct (process_object_inv _ _ _ _ _ H)
    as [g0 Hb0 _ _|g0 st1 _ _ Hm0 _ _ _|g0 st1 st2 Hc _ _ _ Hr0 Hbl1 Hu ->
        |_ _ Hlt _ _].
  - congruence.
  - change (match_with_gallery cfg (moved st obj)) with (match_with_gallery cfg st)
      in Hm0. congruence.
  - rewrite Hr in Hr0. injection Hr0 as -> ->.
    destruct (update_tables _ _ _ _ _ _ _ Hu) as (_ & -> & _).
    rewrite (Hbl _ _ _ Hbl1).
    apply register_object_in_gallery_Ok in Hr
      as (Hg0 & l & i & _ & _ & _ & -> & _).
    rewrite lookup_insert_eq. by repeat split.
  - lia.
Qed.

(** *** Idempotence of resolution *)

(** C2.  Once a resolution has returned global id [g] for the key
    [(class, camera, local track)], every later resolution with that key,
    whatever was processed in between and whatever the new box and
    embedding are, returns without raising and returns [g] again; the key
    stays bound to [g]. *)
Theorem resolve_idempotent types threshold frames0 st0 cm obj st1 out g
    frames st2 obj' :
  run cfg (init cfg types threshold) frames0 = Ok st0 →
  process_object cfg st0 cm obj = Ok (st1, out) →
  t_global_id out = Some g →
  run cfg st1 frames = Ok st2 →
  class_name obj' = class_name obj →
  local_id obj' = local_id obj →
  ∃ st3, process_object cfg st2 cm obj' = Ok (st3, update_info obj' cm (Some g)) ∧
         binding st3 (class_name obj) cm (local_id obj) = Some g.
Proof.
  intros Hreach Hfirst Hg Hrun Hclass Hlid.
  assert (Hwf2 : wf st2).
  { eapply wf_run; [|exact Hrun]. eapply wf_process_object; [|exact Hfirst].
    eapply wf_run; [|exact Hreach]. apply wf_init. }
  pose proof (process_object_binds _ _ _ _ _ _ Hfirst Hg) as Hb1.
  pose proof (binding_run _ _ _ _ _ _ _ Hrun Hb1) as Hb2.
  rewrite <- Hclass, <- Hlid in Hb2.
  destruct (process_object_bound st2 cm obj' g Hb2 (wf_bound _ Hwf2 _ _ _ _ Hb2))
    as (st3 & Hres & _).
  exists st3. split; [exact Hres|].
  rewrite <- Hclass, <- Hlid.
  by eapply binding_process_object.
Qed.

End WithConfig.

(** *** Runs of the sample deployment *)

Lemma ran_run st frames :
  completes st frames = true → run sample_config st frames = Ok (ran st frames).
Proof.
  unfold completes, ran. by destruct (run sample_config st frames).
Qed.

Lemma state_after_run frames :
  completes sample_init frames = true →
  run sample_config sample_init frames = Ok (state_after frames).
Proof. apply ran_run. Qed.

Lemma resolved_answer st cm obj g :
  answer st cm obj = Ok g →
  process_object sample_config st cm obj
    = Ok (resolved st cm obj, update_info obj cm g).
Proof.
  unfold answer, resolved.
  pose proof (process_object_inv sample_config st cm obj) as Hinv.
  destruct (process_object sample_config st cm obj) as [[st' out]|]; [|discriminate].
  intros [= <-]. f_equal. f_equal.
  by destruct (Hinv st' out eq_refl) as [? _ _ ->|? ? _ _ _ _ _ ->
                                        |? ? ? _ _ _ _ _ _ _ ->|_ _ _ _ ->].
Qed.

(** *** The matching step against the specification *)

(** C1.  Three runs on the sample deployment.  In the first, camera 1
    registers ids 0 and 2 and camera 2 registers id 1 with the embedding
    [vec 100]; a new camera-2 track with that embedding has the candidates
    0 and 2, both at squared distance 10000, so the specified matcher
    reports no match, yet [match_with_gallery] returns 2: the index is
    searched whole, its answer is position 1 (the camera-2 entry), and that
    position is read in the list of candidate ids.  In the second, the
    position returned by the index lies beyond the candidate list and the
    call raises, where the specified matcher returns the candidate 1 at
    distance 0.  In the third, identity 0 holds [vec 0] from camera 1 and
    [vec 50] from camera 2; a new camera-3 track with embedding [vec 0] may
    only be compared with the camera-2 embedding, at squared distance 2500,
    yet it is matched to 0 at distance 0, against the camera-1 embedding
    that the index holds. *)
Theorem match_with_gallery_searches_whole_index :
  let st := state_after [(camera1, [det "vessel" 1 200 0]);
                         (camera2, [det "vessel" 1 200 100]);
                         (camera1, [det "vessel" 2 200 200])] in
  let st' := state_after [(camera2, [det "vessel" 1 200 0]);
                          (camera1, [det "vessel" 1 200 1])] in
  let st'' := state_after [(camera1, [det "vessel" 1 200 0]);
                           (camera2, [det "vessel" 1 200 (1 # 2)]);
                           (camera2, [det "vessel" 1 300 50])] in
  (alist_keys (default [] (gallery st !! "vessel")) = [0; 1; 2] ∧
   stored st "vessel" 0 camera1 = Some (vec 0) ∧
   stored st "vessel" 1 camera1 = None ∧
   stored st "vessel" 2 camera1 = Some (vec 200) ∧
   match_with_gallery sample_config st "vessel" (vec 100) camera2 40000
     = Ok (Some 2) ∧
   spec_match_with_gallery sample_config st "vessel" (vec 100) camera2 40000
     = None) ∧
  (alist_keys (default [] (gallery st' !! "vessel")) = [0; 1] ∧
   stored st' "vessel" 0 camera1 = None ∧
   stored st' "vessel" 1 camera1 = Some (vec 1) ∧
   match_with_gallery sample_config st' "vessel" (vec 1) camera2 40000
     = Raise IndexError ∧
   spec_match_with_gallery sample_config st' "vessel" (vec 1) camera2 40000
     = Some 1) ∧
  (alist_keys (default [] (gallery st'' !! "vessel")) = [0] ∧
   stored st'' "vessel" 0 camera1 = Some (vec 0) ∧
   stored st'' "vessel" 0 camera2 = Some (vec 50) ∧
   camera_query_scope st'' !! camera3 = Some [camera2] ∧
   match_with_gallery sample_config st'' "vessel" (vec 0) camera3 40000
     = Ok (Some 0) ∧
   spec_match_with_gallery sample_config st'' "vessel" (vec 0) camera3 40000
     = None).
Proof. vm_compute. by repeat split. Qed.

(** The same runs, seen from the resolution of the new track. *)
Lemma resolution_wrong_match :
  answer (state_after [(camera1, [det "vessel" 1 200 0]);
                       (camera2, [det "vessel" 1 200 100]);
                       (camera1, [det "vessel" 2 200 200])])
         camera2 (det "vessel" 2 200 100) = Ok (Some 2) ∧
  answer (state_after [(camera2, [det "vessel" 1 200 0]);
                       (camera1, [det "vessel" 1 200 1])])
         camera2 (det "vessel" 2 200 1) = Raise IndexError ∧
  answer (state_after [(camera1, [det "vessel" 1 200 0]);
                       (camera2, [det "vessel" 1 200 (1 # 2)]);
                       (camera2, [det "vessel" 1 300 50])])
         camera3 (det "vessel" 1 200 0) = Ok (Some 0).
Proof. repeat split; vm_compute; reflexivity. Qed.

(** C7, as stated, fails: the track [(vessel, camera1, 1)] is bound to 0
    with area 40000 on record; a larger box for it replaces the stored
    embedding and the recorded maximum. *)
Lemma bound_resolution_mutates_gallery :
  let st := state_after [(camera1, [det "vessel" 1 200 0])] in
  let obj := det "vessel" 1 300 5 in
  binding st "vessel" camera1 (Some 1) = Some 0 ∧
  ∃ st', process_object sample_config st camera1 obj
           = Ok (st', update_info obj camera1 (Some 0)) ∧
         stored st "vessel" 0 camera1 = Some (vec 0) ∧
         stored st' "vessel" 0 camera1 = Some (vec 5) ∧
         stored st' "vessel" 0 camera1 ≠ stored st "vessel" 0 camera1 ∧
         recorded_max st 0 camera1 = 40000 ∧
         recorded_max st' 0 camera1 = 90000.
Proof.
  intros st obj. split; [vm_compute; reflexivity|].
  exists (resolved st camera1 obj).
  split; [apply resolved_answer; vm_compute; reflexivity|].
  vm_compute. repeat split; congruence.
Qed.

Lemma bound_resolution_effect_witness :
  let st := state_after [(camera1, [det "vessel" 1 200 0])] in
  let obj := det "vessel" 1 300 5 in
  ∃ st', process_object sample_config st camera1 obj
           = Ok (st', update_info obj camera1 (Some 0)) ∧
         local_to_global_id st' = local_to_global_id st ∧
         global_id_counter st' = global_id_counter st ∧
         faiss_indexes st' = faiss_indexes st.
Proof.
  intros st obj.
  destruct (bound_resolution_effect sample_config default_object_types 10000
              [(camera1, [det "vessel" 1 200 0])] st camera1 obj 0)
    as (st' & Hres & Hl & Hc & Hf & _).
  - apply state_after_run. vm_compute; reflexivity.
  - vm_compute; reflexivity.
  - exists st'. by repeat split.
Defined.

(** With area 90000 on record, two further detections of the track with
    areas 40000 < 62500 leave the first embedding stored: neither exceeds
    the maximum. *)
Lemma smaller_pair_keeps_best_shot :
  let st0 := state_after [(camera1, [det "vessel" 1 300 0])] in
  let obj1 := det "vessel" 1 200 1 in
  let obj2 := det "vessel" 1 250 2 in
  ∃ st1 st2,
    process_object sample_config st0 camera1 obj1
      = Ok (st1, update_info obj1 camera1 (Some 0)) ∧
    process_object sample_config st1 camera1 obj2
      = Ok (st2, update_info obj2 camera1 (Some 0)) ∧
    bbox_area (det_bbox obj1) < bbox_area (det_bbox obj2) ∧
    stored st2 "vessel" 0 camera1 = Some (vec 0) ∧
    stored st2 "vessel" 0 camera1 ≠ Some (det_feature obj2).
Proof.
  intros st0 obj1 obj2.
  exists (resolved st0 camera1 obj1).
  exists (resolved (resolved st0 camera1 obj1) camera1 obj2).
  split; [apply resolved_answer; vm_compute; reflexivity|].
  split; [apply resolved_answer; vm_compute; reflexivity|].
  vm_compute. repeat split; congruence.
Qed.

(** The track registers with area 40000 and is seen again with area 62500:
    the second embedding is stored, and the replacement of the first is
    one the rule allows. *)
Lemma best_shot_rule_witness :
  let obj1 := det "vessel" 1 200 1 in
  let obj2 := det "vessel" 1 250 2 in
  let st1 := resolved sample_init camera1 obj1 in
  let st2 := resolved st1 camera1 obj2 in
  (∃ st2', process_object sample_config st1 camera1 obj2
             = Ok (st2', update_info obj2 camera1 (Some 0)) ∧
           stored st2' "vessel" 0 camera1 = Some (vec 2) ∧
           recorded_max st2' 0 camera1 = 62500) ∧
  stored st1 "vessel" 0 camera1 = Some (vec 1) ∧
  stored st2 "vessel" 0 camera1 ≠ Some (vec 1) ∧
  recorded_max st1 0 camera1 < bbox_area (det_bbox obj2) ∧
  stored st2 "vessel" 0 camera1 = Some (det_feature obj2).
Proof.
  intros obj1 obj2 st1 st2.
  assert (H1 : process_object sample_config sample_init camera1 obj1
               = Ok (st1, update_info obj1 camera1 (Some 0)))
    by (apply resolved_answer; vm_compute; reflexivity).
  assert (H2 : process_object sample_config st1 camera1 obj2
               = Ok (st2, update_info obj2 camera1 (Some 0)))
    by (apply resolved_answer; vm_compute; reflexivity).
  assert (Hs : stored st1 "vessel" 0 camera1 = Some (vec 1))
    by (vm_compute; reflexivity).
  assert (Hne : stored st2 "vessel" 0 camera1 ≠ Some (vec 1))
    by (vm_compute; discriminate).
  split; [|split; [exact Hs|split; [exact Hne|]]].
  - apply (proj1 (proj2 (best_shot_rule sample_config default_object_types 10000 []
                    sample_init camera1 obj1 st1 (update_info obj1 camera1 (Some 0))
                    eq_refl H1)) 0 obj2);
      vm_compute; (reflexivity || discriminate).
  - destruct (proj1 (best_shot_rule sample_config default_object_types 10000
                       [(camera1, [obj1])] st1 camera1 obj2 st2
                       (update_info obj2 camera1 (Some 0))
                       (run_single sample_config _ _ _ _ _ H1) H2)
                "vessel" 0 camera1 (vec 1) Hs Hne)
      as (_ & _ & _ & Hlt & Hst).
    by split.
Defined.


(** C5, as stated, fails in its last clause: camera 2 sees track 7 first
    below the threshold, then above it with the embedding camera 1
    registered under id 0; the track is matched to the existing id 0, no
    id is allocated.  The below-threshold resolution had recorded the box
    in the last-position map. *)
Lemma later_detection_may_match :
  let st := state_after [(camera1, [det "vessel" 1 200 0])] in
  let obj := det "vessel" 7 50 0 in
  let obj2 := det "vessel" 7 200 0 in
  binding st "vessel" camera2 (Some 7) = None ∧
  process_object sample_config st camera2 obj
    = Ok (moved st obj, update_info obj camera2 None) ∧
  vessel_trajectory st !! Some 7 = None ∧
  vessel_trajectory (moved st obj) !! Some 7 = Some (0, 0, 50, 50) ∧
  ∃ st3, process_object sample_config (moved st obj) camera2 obj2
           = Ok (st3, update_info obj2 camera2 (Some 0)) ∧
         stored (moved st obj) "vessel" 0 camera1 = Some (vec 0) ∧
         global_id_counter st !! "vessel" = Some 1 ∧
         global_id_counter st3 !! "vessel" = Some 1.
Proof.
  intros st obj obj2.
  assert (Hsmall : process_object sample_config st camera2 obj
                   = Ok (moved st obj, update_info obj camera2 None)).
  { apply process_object_small.
    - apply (classes_run sample_config [(camera1, [det "vessel" 1 200 0])]
               sample_init st "vessel").
      + apply state_after_run. vm_compute; reflexivity.
      + apply classes_init. vm_compute. apply list_elem_of_here.
    - vm_compute; reflexivity.
    - vm_compute; reflexivity. }
  split; [vm_compute; reflexivity|].
  split; [exact Hsmall|].
  split; [vm_compute; reflexivity|].
  split; [vm_compute; reflexivity|].
  exists (resolved (moved st obj) camera2 obj2).
  split; [apply resolved_answer; vm_compute; reflexivity|].
  repeat split; vm_compute; reflexivity.
Qed.

Lemma below_threshold_resolution_witness :
  let obj := det "vessel" 7 50 0 in
  process_object sample_config sample_init camera1 obj
    = Ok (moved sample_init obj, update_info obj camera1 None) ∧
  same_identity_state sample_init (moved sample_init obj).
Proof.
  intros obj.
  destruct (below_threshold_resolution sample_config default_object_types 10000 []
              sample_init camera1 obj) as (H1 & H2 & _).
  - reflexivity.
  - vm_compute. apply list_elem_of_here.
  - vm_compute; reflexivity.
  - vm_compute; reflexivity.
  - by split.
Defined.

Lemma resolve_idempotent_witness :
  let obj := det "vessel" 1 200 0 in
  let obj' := det "vessel" 1 300 3 in
  let st1 := resolved sample_init camera1 obj in
  let st2 := ran st1 [(camera2, [det "vessel" 1 200 5])] in
  ∃ st3, process_object sample_config st2 camera1 obj'
           = Ok (st3, update_info obj' camera1 (Some 0)) ∧
         binding st3 "vessel" camera1 (Some 1) = Some 0.
Proof.
  intros obj obj' st1 st2.
  apply (resolve_idempotent sample_config default_object_types 10000 []
           sample_init camera1 obj st1 (update_info obj camera1 (Some 0)) 0
           [(camera2, [det "vessel" 1 200 5])] st2 obj').
  - reflexivity.
  - apply resolved_answer. vm_compute; reflexivity.
  - reflexivity.
  - apply ran_run. vm_compute; reflexivity.
  - reflexivity.
  - reflexivity.
Defined.

End VesselTheory.

(** ** Allocation of global ids *)

Module Allocation.

Local Open Scope Z_scope.

(** C6.  In [VesselMCMOT] and in the base [MCMOT] alike: when a resolution
    registers [g] for a class and, after any further frames (in the base
    class each camera-4 frame ends with the sweep that deletes gallery
    entries) and any part of a frame, another resolution registers [g'] for
    the same class, then [g < g']: the ids registered in a class strictly
    increase, so none is allocated twice, whatever was evicted in
    between. *)
Theorem global_ids_strictly_increase :
  (∀ cfg st cm obj g st1 out frames st2 cm' obj' g',
     VesselMCMOT.registers cfg st cm obj g →
     VesselMCMOT.process_object cfg st cm obj = Ok (st1, out) →
     VesselMCMOT.run cfg st1 frames = Ok st2 →
     class_name obj' = class_name obj →
     VesselMCMOT.registers cfg st2 cm' obj' g' →
     t_global_id out = Some g ∧ g < g') ∧
  (∀ st cm obj g st1 o frames st2 cm' objs st3 outs obj' g',
     MCMOT.registers st cm obj g →
     MCMOT.process_object st cm obj = Ok (st1, o) →
     MCMOT.run st1 frames = Ok st2 →
     MCMOT.process_objects st2 cm' objs = Ok (st3, outs) →
     class_name obj' = class_name obj →
     MCMOT.registers st3 cm' obj' g' →
     o = Some g ∧ g < g').
Proof.
  split.
  - intros cfg st cm obj g st1 out frames st2 cm' obj' g' Hreg Hres Hrun Hclass Hreg'.
    destruct (VesselTheory.registers_counter _ _ _ _ _ _ _ Hreg Hres)
      as (_ & Hc1 & Hout).
    split; [exact Hout|].
    destruct (VesselTheory.counter_run _ _ _ _ _ _ Hrun Hc1) as (n & Hn & Hle).
    destruct Hreg' as (_ & _ & _ & s & Hr).
    apply VesselTheory.register_object_in_gallery_Ok in Hr as (Hg' & _).
    simpl in Hg'. rewrite Hclass, Hn in Hg'. injection Hg' as <-. lia.
  - intros st cm obj g st1 o frames st2 cm' objs st3 outs obj' g'
      Hreg Hres Hrun Hpre Hclass Hreg'.
    destruct (MCMOTTheory.base_registers_counter _ _ _ _ _ _ Hreg Hres)
      as (_ & Hc1 & Hout).
    split; [exact Hout|].
    destruct (MCMOTTheory.base_counter_run _ _ _ _ _ Hrun Hc1) as (n & Hn & Hle).
    destruct (MCMOTTheory.base_counter_process_objects _ _ _ _ _ Hpre) as [_ Hmono].
    destruct (Hmono _ _ Hn) as (n' & Hn' & Hle').
    destruct Hreg' as (_ & _ & _ & s & Hr).
    apply MCMOTTheory.register_object_in_gallery_counter in Hr as (Hg' & _).
    rewrite Hclass, Hn' in Hg'. injection Hg' as <-. lia.
Qed.

(** The base tracker registers id 0 on camera 1; an empty camera-4 frame
    sweeps the entry away; the next registration gets id 1. *)
Lemma global_ids_strictly_increase_witness :
  let st := MCMOT.init ["vessel"] in
  let obj := det "vessel" 1 200 0 in
  let st1 := MCMOT.resolved st (CamInt 1) obj in
  let st2 := MCMOT.ran st1 [(CamInt 4, [])] in
  let obj' := det "vessel" 2 200 0 in
  MCMOT.gallery st1 !! "vessel" = Some [(0, vec 0)] ∧
  MCMOT.gallery st2 !! "vessel" = Some [] ∧
  MCMOT.registers st (CamInt 1) obj 0 ∧
  MCMOT.registers st2 (CamInt 1) obj' 1 ∧
  0 < 1.
Proof.
  intros st obj st1 st2 obj'.
  assert (Hreg : MCMOT.registers st (CamInt 1) obj 0).
  { split; [eexists; split; vm_compute; reflexivity|].
    split; [vm_compute; reflexivity|].
    split; [vm_compute; reflexivity|].
    apply MCMOTTheory.register_object_in_gallery_returns. vm_compute; reflexivity. }
  assert (Hreg' : MCMOT.registers st2 (CamInt 1) obj' 1).
  { split; [eexists; split; vm_compute; reflexivity|].
    split; [vm_compute; reflexivity|].
    split; [vm_compute; reflexivity|].
    apply MCMOTTheory.register_object_in_gallery_returns. vm_compute; reflexivity. }
  split; [vm_compute; reflexivity|].
  split; [vm_compute; reflexivity|].
  split; [exact Hreg|]. split; [exact Hreg'|].
  apply (proj2 global_ids_strictly_increase st (CamInt 1) obj 0 st1 (Some 0)
           [(CamInt 4, [])] st2 (CamInt 1) [] st2 [] obj' 1).
  - exact Hreg.
  - apply MCMOTTheory.base_resolved_answer. vm_compute; reflexivity.
  - apply MCMOTTheory.base_ran_run. vm_compute; reflexivity.
  - reflexivity.
  - reflexivity.
  - exact Hreg'.
Defined.

End Allocation.

(** ** [EventService] *)

Module EventTheory.
Import EventService.

Local Open Scope Z_scope.

(** C3.  A fresh service; in one cycle camera 4 reports identity 5 (the
    event is created with the camera-4 position) and the completion check
    for camera 4 runs at the same time 1000.  The event is completed at
    once: it leaves the active set and is persisted with [end_time] 1000,
    although camera 4 contributes a position for it in this very cycle and
    had contributed none before.  The check reads only the stored
    positions; nothing tells it what the current cycle reported. *)
Theorem completes_identity_seen_this_cycle :
  let seen := after (process_detection init 1000 (Detection (Some 5) None)
                       "camera4" 1000 (Coords 22 120) None) in
  let checked := check_event_completion seen "camera4" 1000 in
  alist_keys (active_events seen) = [5%Z] ∧
  (end_time <$> event_table seen) = [None] ∧
  alist_keys (active_events (after checked)) = [] ∧
  (end_time <$> event_table (after checked)) = [Some 1000%Q] ∧
  (∃ st, checked = Ok st).
Proof.
  vm_compute. repeat split; try reflexivity. by eexists.
Qed.

(** A point appended by the sampling test is at least the interval after
    the previous sampling time on record, and becomes the new one. *)
Lemma sampled_after_interval st now gid st' t :
  _should_record_tracking_point st now gid = (st', true) →
  last_track_time st !! gid = Some t →
  (tracking_interval st <= now - t)%Q ∧ last_track_time st' !! gid = Some now.
Proof.
  unfold _should_record_tracking_point. intros H Ht. rewrite Ht in H. simpl in H.
  destruct (Qle_bool _ _) eqn:Hle; [|discriminate].
  injection H as <-. simpl. split; [by apply Qle_bool_iff|].
  by rewrite lookup_insert_eq.
Qed.

(** Creation records no sampling time. *)
Lemma creation_keeps_last_track_time st gid det camera_id current_time coordinates :
  last_track_time (_create_new_event st gid det camera_id current_time coordinates)
  = last_track_time st.
Proof. reflexivity. Qed.

(** C8.  Identity 5 is created at time 1000 and seen again at 1001 (the
    clock read by the sampling test agrees with the timestamps).  The
    second sighting appends a tracking point: creation does not record a
    sampling time, so the test compares the clock with 0.  The event then
    holds two points one second apart; a third sighting at 1005 is
    sampled out. *)
Theorem second_point_follows_creation_at_once :
  let det := Detection (Some 5) None in
  let created := after (process_detection init 1000 det "camera1" 1000
                          (Coords 22 120) None) in
  let updated := after (process_detection created 1001 det "camera1" 1001
                          (Coords 22 120) None) in
  let again := after (process_detection updated 1005 det "camera1" 1005
                        (Coords 22 120) None) in
  tracking_interval init = 10%Q ∧
  last_track_time created !! 5%Z = None ∧
  persisted_timestamps created = [[1000%Q]] ∧
  persisted_timestamps updated = [[1000%Q; 1001%Q]] ∧
  persisted_timestamps again = [[1000%Q; 1001%Q]].
Proof.
  vm_compute. by repeat split.
Qed.

End EventTheory.

(** ** Identity 0 *)

Module FirstIdentity.

Local Open Scope Z_scope.

(** C10.  The counter of every class starts at 0 in both trackers, so the
    first registration of a class returns global id 0; [process_detection]
    returns at once on a falsy global id, and 0 is falsy: a detection that
    carries global id 0 leaves the service exactly as one that carries
    none, whereas any other id not yet active opens an event. *)
Theorem identity_zero_is_never_tracked :
  (∀ cfg types threshold c, c ∈ types →
     VesselMCMOT.global_id_counter (VesselMCMOT.init cfg types threshold) !! c
       = Some 0%Z ∧
     MCMOT.global_id_counter (MCMOT.init types) !! c = Some 0%Z) ∧
  (∀ cfg types threshold c cm f a, c ∈ types → length f = INDEX_DIM →
     ∃ st', VesselMCMOT.register_object_in_gallery
              (VesselMCMOT.init cfg types threshold) cm c f a = Ok (st', 0%Z)) ∧
  (∀ st now det camera_id current_time coordinates channel,
     EventService.global_id det = Some 0%Z →
     EventService.process_detection st now det camera_id current_time
       coordinates channel = Ok st ∧
     EventService.process_detection st now
       (EventService.Detection None (EventService.det_feature det))
       camera_id current_time coordinates channel = Ok st) ∧
  (∀ st now det camera_id current_time coordinates channel g,
     EventService.global_id det = Some g → g ≠ 0%Z →
     alist_get (EventService.active_events st) g = None →
     ∃ st', EventService.process_detection st now det camera_id current_time
              coordinates channel = Ok st' ∧
            is_Some (alist_get (EventService.active_events st') g)).
Proof.
  split; [|split; [|split]].
  - intros cfg types threshold c Hin. simpl.
    rewrite !dict_of_keys_lookup. by rewrite !decide_True by done.
  - intros cfg types threshold c cm f a Hin Hlen.
    apply VesselTheory.register_object_in_gallery_total; simpl;
      rewrite ?dict_of_keys_lookup, ?decide_True by done; (done || by eexists).
  - intros st now det camera_id current_time coordinates channel Hg.
    unfold EventService.process_detection. rewrite Hg. by split.
  - intros st now det camera_id current_time coordinates channel g Hg Hne Hnone.
    unfold EventService.process_detection. rewrite Hg. simpl.
    rewrite bool_decide_eq_false_2 by done. rewrite Hnone.
    eexists. split; [reflexivity|]. simpl.
    rewrite alist_get_set_eq. by eexists.
Qed.

Lemma identity_zero_is_never_tracked_witness :
  VesselMCMOT.global_id_counter VesselMCMOT.sample_init !! "vessel" = Some 0%Z ∧
  (∃ st', VesselMCMOT.register_object_in_gallery VesselMCMOT.sample_init
            VesselMCMOT.camera1 "vessel" (vec 3) 40000 = Ok (st', 0%Z)) ∧
  EventService.process_detection EventService.init 1000
    (EventService.Detection (Some 0%Z) None) "camera1" 1000
    (EventService.Coords 22 120) None = Ok EventService.init.
Proof.
  destruct identity_zero_is_never_tracked as (H1 & H2 & H3 & _).
  assert (Hin : "vessel" ∈ VesselMCMOT.default_object_types)
    by (vm_compute; apply list_elem_of_here).
  split; [|split].
  - exact (proj1 (H1 VesselMCMOT.sample_config _ 10000%Z _ Hin)).
  - apply (H2 VesselMCMOT.sample_config _ 10000%Z "vessel" VesselMCMOT.camera1
              (vec 3) 40000%Z Hin). vm_compute; reflexivity.
  - apply (H3 EventService.init 1000%Q (EventService.Detection (Some 0%Z) None)
              "camera1" 1000%Q (EventService.Coords 22 120) None). reflexivity.
Defined.

End FirstIdentity.

(** ** [GridLocationService] *)

Module GridTheory.
Import GridLocationService.

Local Open Scope R_scope.

(** Seven digits of pi, from the alternating series of Machin's formula
    with arctangents of 1/3 and 1/7. *)
Lemma PI_seven_digits : 3.1415926 < PI < 3.1415927.
Proof.
  pose proof (PI_2_3_7_ineq 4) as [Hlo Hhi].
  unfold sum_f_R0, tg_alt, PI_2_3_7_tg, Ratan_seq in Hlo, Hhi.
  simpl in Hlo, Hhi.
  split; lra.
Qed.

Lemma atan2_right_half_plane y x : 0 < x → atan2 y x = atan (y / x).
Proof.
  intros Hx. unfold atan2. destruct (Rlt_dec 0 x); [reflexivity | contradiction].
Qed.

(** *** The square roots *)

Lemma math_sqrt_Ok x : 0 <= x → math_sqrt x = Ok (sqrt x).
Proof. intros Hx. unfold math_sqrt. destruct (Rlt_dec x 0); [lra | reflexivity]. Qed.

Lemma math_sqrt_inv x r : math_sqrt x = Ok r → 0 <= x ∧ r = sqrt x.
Proof.
  unfold math_sqrt. destruct (Rlt_dec x 0); [discriminate|].
  intros [= <-]. split; [lra | reflexivity].
Qed.

(** [haversine_distance] returns exactly when [a] lies between 0 and 1. *)
Lemma haversine_distance_Ok lat1 lon1 lat2 lon2 :
  0 <= haversine_a lat1 lon1 lat2 lon2 <= 1 →
  haversine_distance lat1 lon1 lat2 lon2 =
  Ok (earth_radius *
      (2 * atan2 (sqrt (haversine_a lat1 lon1 lat2 lon2))
                 (sqrt (1 - haversine_a lat1 lon1 lat2 lon2)))).
Proof.
  intros [Hlo Hhi]. unfold haversine_distance. cbv zeta.
  fold (haversine_a lat1 lon1 lat2 lon2).
  rewrite (math_sqrt_Ok _ Hlo). cbn [rbind].
  rewrite math_sqrt_Ok by lra. reflexivity.
Qed.

Lemma haversine_distance_inv lat1 lon1 lat2 lon2 d :
  haversine_distance lat1 lon1 lat2 lon2 = Ok d →
  0 <= haversine_a lat1 lon1 lat2 lon2 <= 1 ∧
  d = earth_radius *
      (2 * atan2 (sqrt (haversine_a lat1 lon1 lat2 lon2))
                 (sqrt (1 - haversine_a lat1 lon1 lat2 lon2))).
Proof.
  unfold haversine_distance. cbv zeta.
  fold (haversine_a lat1 lon1 lat2 lon2). intros H.
  apply rbind_Ok in H as (ra & Ha & H). apply rbind_Ok in H as (rb & Hb & H).
  apply math_sqrt_inv in Ha as [Ha ->]. apply math_sqrt_inv in Hb as [Hb ->].
  injection H as <-. split; [lra | reflexivity].
Qed.

(** *** The trigonometry *)

Lemma half_angle theta : sin (theta / 2) ^ 2 = hav theta.
Proof.
  unfold hav. pose proof (cos_2a_sin (theta / 2)) as H.
  replace (2 * (theta / 2)) with theta in H by lra. rewrite H. lra.
Qed.

(** The argument of the square roots is the haversine of the central
    angle. *)
Lemma haversine_a_central lat1 lon1 lat2 lon2 :
  haversine_a lat1 lon1 lat2 lon2
  = (1 - central_cosine lat1 lon1 lat2 lon2) / 2.
Proof.
  unfold haversine_a, central_cosine. cbv zeta.
  rewrite !half_angle. unfold hav. rewrite cos_minus. lra.
Qed.

Lemma central_cosine_range lat1 lon1 lat2 lon2 :
  -1 <= central_cosine lat1 lon1 lat2 lon2 <= 1.
Proof.
  unfold central_cosine. cbv zeta.
  set (p1 := radians lat1). set (p2 := radians lat2).
  set (dl := radians lon2 - radians lon1).
  pose proof (sin2_cos2 p1) as H1. pose proof (sin2_cos2 p2) as H2.
  pose proof (COS_bound dl) as [Hk1 Hk2].
  unfold Rsqr in H1, H2.
  set (s1 := sin p1) in *. set (s2 := sin p2) in *.
  set (c1 := cos p1) in *. set (c2 := cos p2) in *. set (k := cos dl) in *.
  pose proof (Rle_0_sqr (s1 - s2)) as Q1. pose proof (Rle_0_sqr (s1 + s2)) as Q2.
  assert (Q3 : 0 <= (1 + k) * Rsqr (c1 - c2))
    by (apply Rmult_le_pos; [lra | apply Rle_0_sqr]).
  assert (Q4 : 0 <= (1 - k) * Rsqr (c1 + c2))
    by (apply Rmult_le_pos; [lra | apply Rle_0_sqr]).
  assert (Q5 : 0 <= (1 + k) * Rsqr (c1 + c2))
    by (apply Rmult_le_pos; [lra | apply Rle_0_sqr]).
  assert (Q6 : 0 <= (1 - k) * Rsqr (c1 - c2))
    by (apply Rmult_le_pos; [lra | apply Rle_0_sqr]).
  unfold Rsqr in *. split; nra.
Qed.

Lemma haversine_a_range lat1 lon1 lat2 lon2 :
  0 <= haversine_a lat1 lon1 lat2 lon2 <= 1.
Proof.
  rewrite haversine_a_central.
  pose proof (central_cosine_range lat1 lon1 lat2 lon2). lra.
Qed.

Lemma atan2_sin_cos t : 0 <= t <= PI / 2 → atan2 (sin t) (cos t) = t.
Proof.
  intros [Hlo Hhi]. pose proof PI_RGT_0 as HPI.
  destruct (Req_dec t (PI / 2)) as [->|Hne].
  - rewrite cos_PI2, sin_PI2. unfold atan2.
    destruct (Rlt_dec 0 0); [lra|]. destruct (Rlt_dec 0 0); [lra|].
    destruct (Rlt_dec 0 1); [reflexivity | lra].
  - assert (Hc : 0 < cos t) by (apply cos_gt_0; lra).
    rewrite atan2_right_half_plane by exact Hc.
    fold (tan t). apply atan_tan. lra.
Qed.

Lemma asin_root_range a :
  0 <= a <= 1 → 0 <= asin (sqrt a) <= PI / 2 ∧ sin (asin (sqrt a)) = sqrt a.
Proof.
  intros [Hlo Hhi].
  assert (Hr : 0 <= sqrt a <= 1).
  { split; [apply sqrt_pos|]. rewrite <- sqrt_1. by apply sqrt_le_1_alt. }
  pose proof (asin_bound (sqrt a)) as [Hb1 Hb2].
  assert (Hs : sin (asin (sqrt a)) = sqrt a) by (apply sin_asin; lra).
  split; [|exact Hs]. split; [|exact Hb2].
  destruct (Rle_lt_dec 0 (asin (sqrt a))) as [?|Hneg]; [done|].
  pose proof PI_RGT_0 as HPI.
  assert (sin (asin (sqrt a)) < 0) by (apply sin_lt_0_var; lra). lra.
Qed.

(** The two-argument arctangent of the code is the arcsine of the
    haversine formula. *)
Lemma atan2_roots a :
  0 <= a <= 1 → atan2 (sqrt a) (sqrt (1 - a)) = asin (sqrt a).
Proof.
  intros Ha. destruct (asin_root_range a Ha) as [[Hlo Hhi] Hs].
  set (t := asin (sqrt a)) in *.
  assert (Hc : 0 <= cos t) by (apply cos_ge_0; pose proof PI_RGT_0; lra).
  assert (Hcos : cos t = sqrt (1 - a)).
  { rewrite <- (sqrt_Rsqr (cos t)) by exact Hc. f_equal.
    pose proof (sin2_cos2 t) as H. rewrite Hs in H.
    unfold Rsqr in *. rewrite sqrt_sqrt in H by lra. lra. }
  rewrite <- Hs at 1. rewrite <- Hcos. apply atan2_sin_cos. by split.
Qed.

Lemma double_asin_root a : 0 <= a <= 1 → 2 * asin (sqrt a) = acos (1 - 2 * a).
Proof.
  intros Ha. destruct (asin_root_range a Ha) as [[Hlo Hhi] Hs].
  set (t := asin (sqrt a)) in *.
  rewrite <- (acos_cos (2 * t)) by lra. f_equal.
  rewrite cos_2a_sin, Hs.
  replace (1 - 2 * sqrt a * sqrt a) with (1 - 2 * (sqrt a * sqrt a)) by ring.
  rewrite sqrt_sqrt by lra. reflexivity.
Qed.

Lemma spec_haversine_a lat1 lon1 lat2 lon2 :
  spec_haversine lat1 lon1 lat2 lon2
  = 6371000 * (2 * asin (sqrt (haversine_a lat1 lon1 lat2 lon2))).
Proof.
  unfold spec_haversine, haversine_a. cbv zeta. rewrite <- !half_angle. ring.
Qed.

(** The haversine formula gives the great-circle distance. *)
Lemma spec_haversine_great_circle lat1 lon1 lat2 lon2 :
  spec_haversine lat1 lon1 lat2 lon2 = great_circle_distance lat1 lon1 lat2 lon2.
Proof.
  rewrite spec_haversine_a. unfold great_circle_distance.
  pose proof (haversine_a_range lat1 lon1 lat2 lon2) as Ha.
  rewrite (double_asin_root _ Ha), haversine_a_central.
  f_equal. f_equal. lra.
Qed.

(** Where [a] lies between 0 and 1 the code computes the haversine
    formula. *)
Lemma haversine_distance_spec lat1 lon1 lat2 lon2 :
  0 <= haversine_a lat1 lon1 lat2 lon2 <= 1 →
  haversine_distance lat1 lon1 lat2 lon2 = Ok (spec_haversine lat1 lon1 lat2 lon2).
Proof.
  intros Ha. rewrite (haversine_distance_Ok _ _ _ _ Ha). f_equal.
  rewrite (atan2_roots _ Ha), spec_haversine_a. reflexivity.
Qed.

(** On equal longitudes [a] is the squared sine of half the difference
    of latitude. *)
Lemma meridian_a lat1 lat2 lon :
  haversine_a lat1 lon lat2 lon
  = Rsqr (sin ((radians lat2 - radians lat1) / 2)).
Proof.
  unfold haversine_a. cbv zeta.
  replace ((radians lon - radians lon) / 2) with 0 by lra.
  rewrite sin_0. unfold Rsqr. ring.
Qed.

(** Where [a] is the squared sine of an angle of the first quadrant, the
    distance is the radius times twice the angle. *)
Lemma haversine_of_sine lat1 lon1 lat2 lon2 x :
  0 <= x <= PI / 2 →
  haversine_a lat1 lon1 lat2 lon2 = Rsqr (sin x) →
  haversine_distance lat1 lon1 lat2 lon2 = Ok (earth_radius * (2 * x)).
Proof.
  intros Hx Ha. pose proof PI_RGT_0 as HPI.
  assert (Hs : 0 <= sin x) by (apply sin_ge_0; lra).
  assert (Hc : 0 <= cos x) by (apply cos_ge_0; lra).
  pose proof (sin2_cos2 x) as H2.
  rewrite haversine_distance_Ok; rewrite Ha.
  - rewrite sqrt_Rsqr by exact Hs.
    replace (1 - Rsqr (sin x)) with (Rsqr (cos x)) by lra.
    rewrite sqrt_Rsqr by exact Hc.
    by rewrite atan2_sin_cos.
  - pose proof (Rle_0_sqr (sin x)). pose proof (Rle_0_sqr (cos x)). lra.
Qed.

(** One degree of latitude along a meridian is [R * pi / 180]. *)
Lemma haversine_one_degree :
  haversine_distance 0 0 1 0 = Ok (earth_radius * (PI / 180)).
Proof.
  pose proof PI_RGT_0 as HPI.
  rewrite (haversine_of_sine 0 0 1 0 ((radians 1 - radians 0) / 2)).
  - f_equal. unfold radians. lra.
  - unfold radians. split; lra.
  - apply meridian_a.
Qed.

Lemma within_quarter_circle_a lat1 lon1 lat2 lon2 :
  within_quarter_circle lat1 lon1 lat2 lon2 →
  0 <= haversine_a lat1 lon1 lat2 lon2 <= 1 / 2.
Proof.
  intros (_ & _ & Hc). rewrite haversine_a_central.
  pose proof (central_cosine_range lat1 lon1 lat2 lon2). lra.
Qed.

(** *** The reference line *)

Lemma pixel_distance_pos px1 px2 : px1 ≠ px2 → 0 < pixel_distance px1 px2.
Proof.
  intros Hpx. unfold pixel_distance. apply sqrt_lt_R0, IZR_lt.
  destruct px1 as [x1 y1], px2 as [x2 y2]. simpl.
  assert ((x2 - x1 ≠ 0)%Z ∨ (y2 - y1 ≠ 0)%Z) as [Hd|Hd].
  { destruct (decide (x2 - x1 = 0)%Z) as [Hx|]; [|by left].
    destruct (decide (y2 - y1 = 0)%Z) as [Hy|]; [|by right].
    exfalso. apply Hpx. f_equal; lia. }
  - nia.
  - nia.
Qed.

Lemma np_div_pos x y : 0 < y → np_div x y = Finite (x / y).
Proof. intros Hy. unfold np_div. destruct (Rlt_dec 0 y); [reflexivity | lra]. Qed.

(** The second of two reference points, where the distance is computed. *)
Lemma second_reference_point id1 id2 px1 geo1 px2 geo2 d :
  id1 ≠ id2 →
  haversine_distance (fst geo1) (snd geo1) (fst geo2) (snd geo2) = Ok d →
  add_reference_point (State [(id1, ReferencePoint px1 geo1)] None None)
    id2 px2 geo2
  = Ok (State [(id1, ReferencePoint px1 geo1); (id2, ReferencePoint px2 geo2)]
          (Some (np_div (IZR (fst px2 - fst px1)) (pixel_distance px1 px2),
                 np_div (IZR (snd px2 - snd px1)) (pixel_distance px1 px2)))
          (Some (np_div d (pixel_distance px1 px2)))).
Proof.
  intros Hid Hd. unfold add_reference_point, calculate_reference_line.
  cbn -[haversine_distance sqrt IZR Rdiv Z.pow Z.sub np_div].
  destruct (decide (id1 = id2)) as [Heq|_]; [contradiction|].
  set (p1 := ReferencePoint px1 geo1). set (p2 := ReferencePoint px2 geo2).
  destruct (decide (length [(id1, p1); (id2, p2)] = 2%nat)) as [_|Hne];
    [|by exfalso; apply Hne].
  change ([(id1, p1); (id2, p2)].*2) with [p1; p2].
  change (py_index [p1; p2] 0) with (Ok p1).
  change (py_index [p1; p2] 1) with (Ok p2).
  cbn [rbind]. subst p1 p2. cbn [pixel_coord geo_coord].
  rewrite Hd. reflexivity.
Qed.

(** C9.  Over the real numbers, for points between the poles and at most
    a quarter of a great circle apart: [haversine_distance] returns the
    value of the haversine formula with radius 6,371,000 m, which is the
    great-circle distance of the two points; once the second of two
    reference points is added, the stored scale is that distance divided,
    as NumPy divides, by the Euclidean distance of the two pixels, a
    finite quotient when the pixels differ; and the distance from (0, 0)
    to (1 degree, 0) is between 111194.92 m and 111194.93 m. *)
Theorem reference_scale_is_haversine_over_pixels :
  earth_radius = 6371000 ∧
  (∀ lat1 lon1 lat2 lon2, within_quarter_circle lat1 lon1 lat2 lon2 →
     haversine_distance lat1 lon1 lat2 lon2
       = Ok (spec_haversine lat1 lon1 lat2 lon2) ∧
     spec_haversine lat1 lon1 lat2 lon2
       = great_circle_distance lat1 lon1 lat2 lon2) ∧
  (∀ id1 id2 px1 geo1 px2 geo2, id1 ≠ id2 →
     within_quarter_circle (fst geo1) (snd geo1) (fst geo2) (snd geo2) →
     ∃ st1 st2,
       add_reference_point init id1 px1 geo1 = Ok st1 ∧
       scale_factor st1 = None ∧
       add_reference_point st1 id2 px2 geo2 = Ok st2 ∧
       scale_factor st2 =
         Some (np_div (spec_haversine (fst geo1) (snd geo1) (fst geo2) (snd geo2))
                      (pixel_distance px1 px2)) ∧
       (px1 ≠ px2 →
        0 < pixel_distance px1 px2 ∧
        scale_factor st2 =
          Some (Finite (spec_haversine (fst geo1) (snd geo1) (fst geo2) (snd geo2)
                        / pixel_distance px1 px2)))) ∧
  (∃ d, haversine_distance 0 0 1 0 = Ok d ∧ 111194.92 < d < 111194.93).
Proof.
  split; [reflexivity|]. split; [|split].
  - intros lat1 lon1 lat2 lon2 Hq. split.
    + apply haversine_distance_spec.
      pose proof (within_quarter_circle_a _ _ _ _ Hq). lra.
    + apply spec_haversine_great_circle.
  - intros id1 id2 px1 geo1 px2 geo2 Hid Hq.
    assert (Hd : haversine_distance (fst geo1) (snd geo1) (fst geo2) (snd geo2)
                 = Ok (spec_haversine (fst geo1) (snd geo1) (fst geo2) (snd geo2))).
    { apply haversine_distance_spec.
      pose proof (within_quarter_circle_a _ _ _ _ Hq). lra. }
    exists (State [(id1, ReferencePoint px1 geo1)] None None).
    eexists. split; [reflexivity|]. split; [reflexivity|].
    split; [exact (second_reference_point _ _ _ _ _ _ _ Hid Hd)|].
    split; [reflexivity|].
    intros Hpx. pose proof (pixel_distance_pos _ _ Hpx) as Hp.
    split; [exact Hp|]. simpl. by rewrite (np_div_pos _ _ Hp).
  - exists (earth_radius * (PI / 180)). split; [exact haversine_one_degree|].
    unfold earth_radius. pose proof PI_seven_digits. lra.
Qed.

Lemma one_degree_within_quarter_circle : within_quarter_circle 0 0 1 0.
Proof.
  unfold within_quarter_circle, valid_latitude, central_cosine, radians.
  split; [lra|]. split; [lra|]. cbv zeta.
  replace (0 * (PI / 180)) with 0 by lra.
  replace (0 - 0) with 0 by lra.
  rewrite sin_0, cos_0.
  pose proof PI_seven_digits as HPI.
  assert (0 <= cos (1 * (PI / 180))) by (apply cos_ge_0; lra).
  lra.
Qed.

Lemma reference_scale_is_haversine_over_pixels_witness :
  ∃ st1 st2,
    add_reference_point init "gcp1" (0, 0)%Z (0, 0) = Ok st1 ∧
    scale_factor st1 = None ∧
    add_reference_point st1 "gcp2" (3, 4)%Z (1, 0) = Ok st2 ∧
    scale_factor st2 =
      Some (np_div (spec_haversine 0 0 1 0) (pixel_distance (0, 0)%Z (3, 4)%Z)).
Proof.
  destruct (proj1 (proj2 (proj2 reference_scale_is_haversine_over_pixels))
              "gcp1" "gcp2" (0, 0)%Z (0, 0) (3, 4)%Z (1, 0))
    as (st1 & st2 & H1 & Hn & H2 & Hs & _).
  - discriminate.
  - exact one_degree_within_quarter_circle.
  - by exists st1, st2.
Defined.

End GridTheory.

(** * Further properties of the code *)

(** ** Association lists *)

Section AListMore.
Context {K V : Type} `{EqDecision K}.
Implicit Types (l : list (K * V)) (k : K) (v : V).

Lemma alist_get_None l k : alist_get l k = None ↔ k ∉ alist_keys l.
Proof.
  unfold alist_keys. induction l as [|[k0 v0] l IH]; simpl.
  - split; [intros _; apply not_elem_of_nil | done].
  - destruct (decide (k0 = k)) as [->|Hne].
    + split; [discriminate|]. intros Hn. exfalso. apply Hn, list_elem_of_here.
    + rewrite IH. rewrite not_elem_of_cons. split; [by split | by intros [_ ?]].
Qed.

Lemma alist_keys_set_present l k v :
  is_Some (alist_get l k) → alist_keys (alist_set l k v) = alist_keys l.
Proof.
  unfold alist_keys. induction l as [|[k0 v0] l IH]; simpl.
  - by intros [? ?].
  - destruct (decide (k0 = k)) as [->|Hne]; [done|].
    intros Hs. simpl. f_equal. by apply IH.
Qed.

Lemma alist_set_absent l k v :
  alist_get l k = None → alist_set l k v = l ++ [(k, v)].
Proof.
  induction l as [|[k0 v0] l IH]; simpl; [done|].
  destruct (decide (k0 = k)); [discriminate|]. intros Hn. by rewrite IH.
Qed.

Lemma length_alist_set_present l k v :
  is_Some (alist_get l k) → length (alist_set l k v) = length l.
Proof.
  intros Hs. pose proof (alist_keys_set_present l k v Hs) as Hk.
  apply (f_equal length) in Hk. unfold alist_keys in Hk.
  by rewrite !length_fmap in Hk.
Qed.

Lemma alist_get_del_ne l k k' :
  k ≠ k' → alist_get (alist_del l k) k' = alist_get l k'.
Proof.
  intros Hne. induction l as [|[k0 v0] l IH]; simpl; [done|].
  destruct (decide (k0 = k)) as [->|Hne0].
  - by rewrite decide_False.
  - simpl. destruct (decide (k0 = k')); [done | exact IH].
Qed.

Lemma alist_get_del_eq l k :
  NoDup (alist_keys l) → alist_get (alist_del l k) k = None.
Proof.
  unfold alist_keys. induction l as [|[k0 v0] l IH]; simpl; [done|].
  intros Hnd. apply NoDup_cons in Hnd as [Hnin Hnd].
  destruct (decide (k0 = k)) as [->|Hne].
  - by apply alist_get_None.
  - simpl. rewrite decide_False by done. by apply IH.
Qed.

Lemma alist_keys_del_subseteq l k : alist_keys (alist_del l k) ⊆ alist_keys l.
Proof.
  unfold alist_keys. induction l as [|[k0 v0] l IH]; simpl; [done|].
  destruct (decide (k0 = k)).
  - intros x Hx. by apply list_elem_of_further.
  - simpl. intros x Hx. apply elem_of_cons in Hx as [->|Hx].
    + apply list_elem_of_here.
    + apply list_elem_of_further, IH, Hx.
Qed.

Lemma NoDup_alist_del l k : NoDup (alist_keys l) → NoDup (alist_keys (alist_del l k)).
Proof.
  unfold alist_keys. induction l as [|[k0 v0] l IH]; simpl; [done|].
  intros Hnd. apply NoDup_cons in Hnd as [Hnin Hnd].
  destruct (decide (k0 = k)); [done|]. simpl. apply NoDup_cons. split.
  - intros Hin. apply Hnin. by apply (alist_keys_del_subseteq l k).
  - by apply IH.
Qed.

Lemma NoDup_alist_set l k v : NoDup (alist_keys l) → NoDup (alist_keys (alist_set l k v)).
Proof.
  intros Hnd. destruct (alist_get l k) as [v0|] eqn:Hg.
  - rewrite alist_keys_set_present by (by eexists). done.
  - rewrite alist_set_absent by done. unfold alist_keys in *.
    rewrite fmap_app. simpl. apply NoDup_app. split; [done|]. split.
    + intros x Hx Hx'. apply list_elem_of_singleton in Hx' as ->.
      by apply alist_get_None in Hg.
    + apply NoDup_singleton.
Qed.

End AListMore.

(** ** Reading off computed results *)

Lemma result_unwrap {A} (r : result A) (d : A) :
  match r with Ok _ => true | Raise _ => false end = true →
  r = Ok (match r with Ok a => a | Raise _ => d end).
Proof. destruct r; [done | discriminate]. Qed.

Lemma is_Some_computed {A} (o : option A) :
  match o with Some _ => true | None => false end = true → is_Some o.
Proof. destruct o; [by eexists | discriminate]. Qed.

Lemma lookup_default_Some `{Countable K} {V} (m : gmap K V) (k : K) (d : V) :
  bool_decide (is_Some (m !! k)) = true → m !! k = Some (default d (m !! k)).
Proof.
  intros Hs. apply bool_decide_eq_true_1 in Hs as [v Hv]. by rewrite Hv.
Qed.

(** ** [VesselMCMOT]: states, matches and outputs *)

Module VesselFacts.
Import VesselMCMOT VesselTheory.

Local Open Scope Z_scope.

(** *** What every reachable state satisfies *)

(** X1.  In every state the tracker reaches, a bound local track points to
    an entry of the gallery of its class, every entry has an id below the
    counter of the class and an area record. *)
Theorem reachable_bindings_have_entries cfg types threshold frames st :
  run cfg (init cfg types threshold) frames = Ok st →
  (∀ c cm lid g, binding st c cm lid = Some g → is_Some (entry st c g)) ∧
  (∀ c g, is_Some (entry st c g) →
     ∃ n, global_id_counter st !! c = Some n ∧ g < n) ∧
  (∀ c g, is_Some (entry st c g) → is_Some (max_size_record st !! g)).
Proof.
  intros Hrun.
  assert (Hwf : wf st) by (eapply wf_run; [apply wf_init | exact Hrun]).
  destruct Hwf as [_ H2 H3 H4]. by repeat split.
Qed.

Lemma reachable_bindings_have_entries_witness :
  let st := state_after [(camera1, [det "vessel" 1 200 0]);
                         (camera2, [det "vessel" 4 200 0])] in
  binding st "vessel" camera2 (Some 4) = Some 0 ∧
  is_Some (entry st "vessel" 0).
Proof.
  intros st.
  assert (Hb : binding st "vessel" camera2 (Some 4) = Some 0)
    by (vm_compute; reflexivity).
  split; [exact Hb|].
  apply (proj1 (reachable_bindings_have_entries sample_config default_object_types
                  10000 [(camera1, [det "vessel" 1 200 0]);
                         (camera2, [det "vessel" 4 200 0])] st
                  ltac:(apply state_after_run; vm_compute; reflexivity))
           "vessel" camera2 (Some 4) 0 Hb).
Defined.

Lemma aligned_init cfg types threshold : aligned (init cfg types threshold).
Proof.
  intros c l. simpl. rewrite !dict_of_keys_lookup.
  destruct (decide (c ∈ types)); [|discriminate].
  intros [= <-]. simpl. split; [by rewrite seqZ_nil|]. split; [done|].
  by exists [].
Qed.

Lemma aligned_update st cm c g f a st' :
  aligned st → update_gallery_feature st cm c g f a = Ok st' → aligned st'.
Proof.
  intros Hal Hu.
  apply update_gallery_feature_Ok in Hu
    as [[_ ->]|(_ & l & data & Hl & Hd & Hg & _ & _ & Hc & Hf & _)]; [done|].
  intros c' l'. rewrite Hg, Hc, Hf.
  destruct (decide (c' = c)) as [->|Hne].
  - rewrite lookup_insert_eq. intros [= <-].
    rewrite alist_keys_set_present, length_alist_set_present by (by eexists).
    by apply Hal.
  - rewrite lookup_insert_ne by done. apply Hal.
Qed.

Lemma aligned_bind_local st c cm lid g st' :
  aligned st → bind_local st c cm lid g = Ok st' → aligned st'.
Proof.
  intros Hal Hb.
  apply bind_local_Ok in Hb as (pc & _ & _ & Hg & Hc & Hf & _).
  intros c' l'. rewrite Hg, Hc, Hf. apply Hal.
Qed.

Lemma aligned_register st cm c f a st' g :
  aligned st → register_object_in_gallery st cm c f a = Ok (st', g) → aligned st'.
Proof.
  intros Hal Hr.
  apply register_object_in_gallery_Ok in Hr
    as (Hn & l & index & Hl & Hi & Hg & Hc & Hf & _).
  destruct (Hal c l Hl) as (Hkeys & Hcnt & index' & Hi' & Hlen).
  rewrite Hi in Hi'. injection Hi' as <-.
  rewrite Hn in Hcnt. injection Hcnt as ->.
  assert (Hnone : alist_get l (Z.of_nat (length l)) = None).
  { apply alist_get_None. rewrite Hkeys. rewrite elem_of_seqZ. lia. }
  intros c' l'. rewrite Hg, Hc, Hf.
  destruct (decide (c' = c)) as [->|Hne].
  - rewrite !lookup_insert_eq. intros [= <-].
    rewrite alist_set_absent by done.
    rewrite length_app. simpl. unfold alist_keys in *. rewrite fmap_app, Hkeys. simpl.
    split; [|split].
    + replace (Z.of_nat (length l + 1)) with (Z.of_nat (length l) + 1) by lia.
      rewrite seqZ_app by lia. f_equal.
    + f_equal. lia.
    + exists (index ++ [f]). split; [done|]. rewrite length_app. simpl. lia.
  - rewrite !lookup_insert_ne by done. apply Hal.
Qed.

Lemma aligned_process_object cfg st cm obj st' out :
  aligned st → process_object cfg st cm obj = Ok (st', out) → aligned st'.
Proof.
  intros Hal H.
  assert (Hal0 : aligned (moved st obj)) by exact Hal.
  destruct (process_object_inv _ _ _ _ _ _ H)
    as [g Hb Hu _|g st1 Hc Hb Hm Hbl Hu _|g st1 st2 Hc Hb Hm Hge Hr Hbl Hu _
        |Hc Hb Hlt -> _].
  - by eapply aligned_update.
  - eapply aligned_update; [|exact Hu]. by eapply aligned_bind_local.
  - eapply aligned_update; [|exact Hu].
    eapply aligned_bind_local; [|exact Hbl]. by eapply aligned_register.
  - exact Hal0.
Qed.

Lemma aligned_process_objects cfg objs : ∀ st cm st' outs,
  aligned st → process_objects cfg st cm objs = Ok (st', outs) → aligned st'.
Proof.
  induction objs as [|obj objs IH]; intros st cm st' outs Hal H; simpl in H.
  - by injection H as <- _.
  - inv_ok H. destruct a as [st1 o]. inv_ok H. destruct a as [st2 os].
    injection H as <- _. eapply IH; [|exact Ha0]. by eapply aligned_process_object.
Qed.

(** X2.  The gallery of a class and its index never drift apart in
    [VesselMCMOT]: the ids of the class are [0 .. n-1] in registration
    order, [n] is the counter of the class, and the index of the class holds
    [n] vectors, so index position [i] is the vector registered under id
    [i]. *)
Theorem gallery_aligned_with_index cfg types threshold frames st c l :
  run cfg (init cfg types threshold) frames = Ok st →
  gallery st !! c = Some l →
  alist_keys l = seqZ 0 (Z.of_nat (length l)) ∧
  global_id_counter st !! c = Some (Z.of_nat (length l)) ∧
  ∃ index, faiss_indexes st !! c = Some index ∧ length index = length l.
Proof.
  intros Hrun. 
  assert (Hal : aligned st); [|by apply Hal].
  revert Hrun. generalize (aligned_init cfg types threshold).
  generalize (init cfg types threshold). 
  induction frames as [|[cm objs] frames IH]; intros st0 Hal H; simpl in H.
  - by injection H as <-.
  - inv_ok H. destruct a as [st1 outs].
    eapply IH; [|exact H]. by eapply aligned_process_objects.
Qed.

Lemma gallery_aligned_with_index_witness :
  let frames := [(camera1, [det "vessel" 1 200 0; det "vessel" 2 200 9]);
                 (camera2, [det "vessel" 1 200 50])] in
  let l := default [] (gallery (state_after frames) !! "vessel") in
  length l = 3%nat ∧
  alist_keys l = seqZ 0 (Z.of_nat (length l)) ∧
  global_id_counter (state_after frames) !! "vessel" = Some (Z.of_nat (length l)).
Proof.
  intros frames l.
  split; [vm_compute; reflexivity|].
  destruct (gallery_aligned_with_index sample_config default_object_types 10000
              frames (state_after frames) "vessel" l) as (Hk & Hc & _).
  - apply state_after_run. vm_compute; reflexivity.
  - apply lookup_default_Some. vm_compute; reflexivity.
  - by split.
Defined.

(** *** The matching step *)

Lemma from_valid_camera_true valid (data : gmap cam feature) :
  from_valid_camera valid data = true →
  ∃ cm', cm' ∈ valid ∧ is_Some (data !! cm').
Proof.
  unfold from_valid_camera. intros H.
  apply existsb_exists in H as (cm' & Hin & Hs).
  exists cm'. split; [by apply list_elem_of_In|]. by apply bool_decide_eq_true_1 in Hs.
Qed.

(** X3.  Whatever position the index returns, an id returned by
    [match_with_gallery] is an id of the gallery of the class whose entry
    holds an embedding from a camera of the query scope, and the area is at
    or above the size threshold. *)
Theorem match_is_a_scoped_entry cfg st c q cm a g :
  match_with_gallery cfg st c q cm a = Ok (Some g) →
  size_threshold st ≤ a ∧
  ∃ l data cm',
    gallery st !! c = Some l ∧ (g, data) ∈ l ∧
    cm' ∈ default [] (camera_query_scope st !! cm) ∧ is_Some (data !! cm').
Proof.
  unfold match_with_gallery.
  destruct (Z.ltb_spec a (size_threshold st)) as [Hlt|Hge]; [discriminate|].
  intros H. split; [exact Hge|].
  inv_ok H. inv_ok Ha.
  destruct (decide _); [discriminate|].
  destruct (decide _); [discriminate|].
  inv_ok H. inv_ok H. destruct a2 as [dist i].
  inv_ok H. inv_ok H.
  destruct (Qltb _ _); [|discriminate]. injection H as ->.
  apply py_index_elem_of in Ha2.
  apply list_elem_of_fmap in Ha2 as ([f g'] & -> & Hin).
  apply gallery_candidates_ids in Hin as [data Hin].
  apply list_elem_of_filter in Hin as [Hvalid Hin].
  apply from_valid_camera_true in Hvalid as (cm' & Hcm' & Hsome).
  by exists a0, data, cm'.
Qed.

Lemma match_is_a_scoped_entry_witness :
  let st := state_after [(camera1, [det "vessel" 1 200 0])] in
  ∃ l data cm',
    gallery st !! "vessel" = Some l ∧ (0, data) ∈ l ∧
    cm' ∈ default [] (camera_query_scope st !! camera2) ∧ is_Some (data !! cm').
Proof.
  intros st.
  apply (match_is_a_scoped_entry sample_config st "vessel" (vec 0) camera2 40000 0).
  vm_compute; reflexivity.
Defined.

(** X4.  When no entry of the class holds an embedding from a camera of the
    query scope (the scope is empty, the camera is unknown, or the gallery
    holds nothing from those cameras) [match_with_gallery] answers no match
    without consulting the index. *)
Theorem no_scoped_entry_no_match cfg st c q cm a l :
  gallery st !! c = Some l →
  (∀ g data cm', (g, data) ∈ l →
     cm' ∈ default [] (camera_query_scope st !! cm) → data !! cm' = None) →
  match_with_gallery cfg st c q cm a = Ok None.
Proof.
  intros Hl Hnone. unfold match_with_gallery.
  destruct (_ <? _); [reflexivity|].
  unfold dict_get. rewrite Hl. cbn [rbind].
  set (valid := default [] (camera_query_scope st !! cm)) in *.
  assert (Hnil : filter (fun '(_, data) => from_valid_camera valid data = true) l = []).
  { clear Hl. induction l as [|[g0 d0] l IH]; [reflexivity|].
    rewrite filter_cons_False.
    - apply IH. intros g data cm' Hin. apply (Hnone g). by apply list_elem_of_further.
    - intros Hv. apply from_valid_camera_true in Hv as (cm' & Hcm' & [f Hf]).
      rewrite (Hnone g0 d0 cm') in Hf; [discriminate|apply list_elem_of_here|done]. }
  by rewrite Hnil.
Qed.

Lemma no_scoped_entry_no_match_witness :
  let st := state_after [(camera1, [det "vessel" 1 200 0])] in
  match_with_gallery sample_config st "vessel" [] camera3 40000 = Ok None.
Proof.
  intros st.
  apply (no_scoped_entry_no_match sample_config st "vessel" [] camera3 40000
           (default [] (gallery st !! "vessel"))).
  - apply lookup_default_Some. vm_compute; reflexivity.
  - intros g data cm' Hin Hcm'.
    assert (Hscope : default [] (camera_query_scope st !! camera3) = [camera2])
      by (vm_compute; reflexivity).
    rewrite Hscope in Hcm'. apply list_elem_of_singleton in Hcm' as ->.
    assert (Hall : forallb (fun '(_, d) => bool_decide (d !! camera2 = None))
                     (default [] (gallery st !! "vessel")) = true)
      by (vm_compute; reflexivity).
    rewrite forallb_forall in Hall. apply list_elem_of_In in Hin.
    specialize (Hall _ Hin). by apply bool_decide_eq_true_1 in Hall.
Defined.

(** *** Classes *)

Lemma unknown_class_process_object cfg st cm obj st' out c :
  process_object cfg st cm obj = Ok (st', out) →
  local_to_global_id st !! c = None → local_to_global_id st' !! c = None.
Proof.
  intros H Hn.
  assert (Hbl : ∀ s s' g0,
            local_to_global_id s !! c = None →
            bind_local s (class_name obj) cm (local_id obj) g0 = Ok s' →
            local_to_global_id s' !! c = None).
  { intros s s' g0 Hnone Hb.
    apply bind_local_Ok in Hb as (pc & Hpc & -> & _).
    destruct (decide (c = class_name obj)) as [->|Hne]; [congruence|].
    by rewrite lookup_insert_ne. }
  destruct (process_object_inv _ _ _ _ _ _ H)
    as [g0 Hb Hu _|g0 st1 Hc Hb Hm Hbl1 Hu _|g0 st1 st2 Hc Hb Hm Hge Hr Hbl1 Hu _
        |Hc Hb Hlt -> _].
  - destruct (update_tables _ _ _ _ _ _ _ Hu) as (-> & _). exact Hn.
  - destruct (update_tables _ _ _ _ _ _ _ Hu) as (-> & _).
    exact (Hbl (moved st obj) st1 g0 Hn Hbl1).
  - destruct (update_tables _ _ _ _ _ _ _ Hu) as (-> & _).
    apply register_object_in_gallery_Ok in Hr as (_ & l & i & Hr).
    destruct Hr as (_ & _ & _ & _ & _ & _ & Hl2g & _).
    eapply Hbl; [|exact Hbl1]. by rewrite Hl2g.
  - exact Hn.
Qed.

Lemma unknown_class_run cfg frames : ∀ st st' c,
  run cfg st frames = Ok st' →
  local_to_global_id st !! c = None → local_to_global_id st' !! c = None.
Proof.
  induction frames as [|[cm objs] frames IH]; intros st st' c H Hn; simpl in H.
  - by injection H as <-.
  - inv_ok H. destruct a as [st1 outs]. eapply IH; [exact H|].
    clear H IH. unfold process_camera_frame in Ha.
    revert st st1 outs Ha Hn.
    induction objs as [|obj objs IHo]; intros st st1 outs Ha Hn; simpl in Ha.
    + by injection Ha as <- _.
    + inv_ok Ha. destruct a as [s1 o]. inv_ok Ha. destruct a as [s2 os].
      injection Ha as <- _. eapply IHo; [exact Ha1|].
      by eapply unknown_class_process_object.
Qed.

(** X5.  A detection of a class that was not given to [__init__] makes the
    resolution raise [KeyError], in every state the tracker reaches. *)
Theorem unknown_class_raises cfg types threshold frames st cm obj :
  run cfg (init cfg types threshold) frames = Ok st →
  class_name obj ∉ types →
  process_object cfg st cm obj = Raise KeyError ∧
  process_camera_frame cfg st [obj] cm = Raise KeyError.
Proof.
  intros Hrun Hnin.
  assert (Hn : local_to_global_id st !! class_name obj = None).
  { eapply unknown_class_run; [exact Hrun|]. simpl.
    rewrite dict_of_keys_lookup. by rewrite decide_False. }
  assert (Hp : process_object cfg st cm obj = Raise KeyError).
  { unfold process_object, dict_get. simpl. by rewrite Hn. }
  split; [exact Hp|]. unfold process_camera_frame. simpl. by rewrite Hp.
Qed.

Lemma unknown_class_raises_witness :
  process_object sample_config sample_init camera1 (det "ferry" 1 200 0)
    = Raise KeyError ∧
  process_camera_frame sample_config sample_init [det "ferry" 1 200 0] camera1
    = Raise KeyError.
Proof.
  apply (unknown_class_raises sample_config default_object_types 10000 []
           sample_init camera1 (det "ferry" 1 200 0) eq_refl).
  vm_compute. intros Hin.
  repeat (apply elem_of_cons in Hin as [Hin|Hin]; [discriminate|]).
  by apply not_elem_of_nil in Hin.
Defined.

(** *** The best-shot update on its own *)

(** X6.  For an id with a gallery entry and an area record,
    [update_gallery_feature] succeeds, leaves the maximum of the old record
    and the new area on record for the camera, and stores the new embedding
    exactly when the new area is strictly larger. *)
Theorem update_records_the_maximum st cm c g f a :
  is_Some (entry st c g) →
  is_Some (max_size_record st !! g) →
  ∃ st', update_gallery_feature st cm c g f a = Ok st' ∧
         recorded_max st' g cm = Z.max (recorded_max st g cm) a ∧
         stored st' c g cm =
           if decide (recorded_max st g cm < a) then Some f else stored st c g cm.
Proof.
  intros He Hrec.
  destruct (update_gallery_feature_total st cm c g f a He) as [st' Hu].
  exists st'. split; [exact Hu|].
  destruct (decide (recorded_max st g cm < a)) as [Hlt|Hge].
  - rewrite (recorded_update _ _ _ _ _ _ _ Hu Hlt Hrec).
    rewrite (stored_update _ _ _ _ _ _ _ Hu Hlt).
    rewrite !decide_True by done. split; [lia | done].
  - rewrite (update_unchanged _ _ _ _ _ _ _ Hu) by lia. split; [lia | done].
Qed.

Lemma update_records_the_maximum_witness :
  let st := state_after [(camera1, [det "vessel" 1 200 0])] in
  ∃ st', update_gallery_feature st camera1 "vessel" 0 (vec 7) 50000 = Ok st' ∧
         recorded_max st' 0 camera1 = Z.max (recorded_max st 0 camera1) 50000 ∧
         stored st' "vessel" 0 camera1 =
           if decide (recorded_max st 0 camera1 < 50000) then Some (vec 7)
           else stored st "vessel" 0 camera1.
Proof.
  intros st.
  apply (update_records_the_maximum st camera1 "vessel" 0 (vec 7) 50000).
  - apply is_Some_computed. vm_compute; reflexivity.
  - apply is_Some_computed. vm_compute; reflexivity.
Defined.

(** X7.  Ids are counted per class, but [max_size_record] is keyed by
    the id alone.  In a state the tracker reaches, once a registration in
    another class on another camera returns the number [g], the area
    record of the identity [g] of class [c] is gone: the next detection of
    a track bound to that identity overwrites the embedding stored for its
    camera, whatever its positive area and however large the area seen
    before. *)
Theorem area_records_are_shared_between_classes
    cfg types threshold frames st c cm lid g c' cm' f' a' st1 obj :
  run cfg (init cfg types threshold) frames = Ok st →
  binding st c cm lid = Some g →
  c' ≠ c → cm' ≠ cm →
  register_object_in_gallery st cm' c' f' a' = Ok (st1, g) →
  class_name obj = c → local_id obj = lid → 0 < bbox_area (det_bbox obj) →
  recorded_max st1 g cm = 0 ∧
  ∃ st2, process_object cfg st1 cm obj = Ok (st2, update_info obj cm (Some g)) ∧
         stored st2 c g cm = Some (det_feature obj).
Proof.
  intros Hrun Hb Hc Hcm Hr <- <- Hpos.
  pose proof (wf_run cfg _ _ _ (wf_init cfg types threshold) Hrun) as Hwf.
  pose proof (wf_bound _ Hwf _ _ _ _ Hb) as He.
  apply register_object_in_gallery_Ok in Hr
    as (_ & l & index & Hl & _ & Hg & _ & _ & Hm & Hl2g & _).
  assert (H0 : recorded_max st1 g cm = 0).
  { unfold recorded_max. rewrite Hm, lookup_insert_eq. simpl.
    by rewrite lookup_singleton_ne. }
  split; [exact H0|].
  destruct (process_object_bound cfg st1 cm obj g) as (st2 & Hp & Hu).
  - by rewrite (binding_unchanged _ _ Hl2g).
  - rewrite (entry_insert _ _ _ _ _ _ Hl Hg).
    rewrite decide_False; [done|]. by intros [? _].
  - exists st2. split; [exact Hp|].
    rewrite (stored_update _ _ _ _ _ _ _ Hu).
    + by rewrite decide_True.
    + change (recorded_max st1 g cm < bbox_area (det_bbox obj)). lia.
Qed.

Lemma area_records_are_shared_between_classes_witness :
  let st := state_after [(camera1, [det "vessel" 1 300 0])] in
  let st1 := fst (default (st, 0) (match register_object_in_gallery st camera2
                                            "truck" (vec 5) 40000 with
                                   | Ok r => Some r
                                   | Raise _ => None
                                   end)) in
  let obj := det "vessel" 1 100 7 in
  recorded_max st 0 camera1 = 90000 ∧
  recorded_max st1 0 camera1 = 0 ∧
  ∃ st2, process_object sample_config st1 camera1 obj
         = Ok (st2, update_info obj camera1 (Some 0)) ∧
         stored st2 "vessel" 0 camera1 = Some (vec 7).
Proof.
  intros st st1 obj. split; [vm_compute; reflexivity|].
  apply (area_records_are_shared_between_classes sample_config
           default_object_types 10000 [(camera1, [det "vessel" 1 300 0])]
           st "vessel" camera1 (Some 1) 0 "truck" camera2 (vec 5) 40000 st1 obj).
  - apply state_after_run. vm_compute; reflexivity.
  - vm_compute; reflexivity.
  - discriminate.
  - discriminate.
  - destruct (register_object_in_gallery_total st camera2 "truck"
                (vec 5) 40000 0) as [st1' Hr].
    + vm_compute; reflexivity.
    + apply is_Some_computed. vm_compute; reflexivity.
    + apply is_Some_computed. vm_compute; reflexivity.
    + vm_compute; reflexivity.
    + unfold st1. by rewrite Hr.
  - reflexivity.
  - reflexivity.
  - vm_compute; reflexivity.
Defined.

(** *** What one resolution touches *)

(** X8.  A resolution writes at most one binding, that of its own key: every
    other key is bound after it exactly as before. *)
Theorem resolution_leaves_other_bindings cfg st cm obj st' out c cm' lid :
  process_object cfg st cm obj = Ok (st', out) →
  (c, cm', lid) ≠ (class_name obj, cm, local_id obj) →
  binding st' c cm' lid = binding st c cm' lid.
Proof.
  intros H Hne.
  assert (Hupd : ∀ s s' g0, update_gallery_feature s cm (class_name obj) g0
            (det_feature obj) (bbox_area (det_bbox obj)) = Ok s' →
            binding s' c cm' lid = binding s c cm' lid).
  { intros s s' g0 Hu. apply binding_unchanged.
    by destruct (update_tables _ _ _ _ _ _ _ Hu) as (-> & _). }
  assert (Hbl : ∀ s s' g0,
            bind_local s (class_name obj) cm (local_id obj) g0 = Ok s' →
            binding s' c cm' lid = binding s c cm' lid).
  { intros s s' g0 Hb.
    apply bind_local_Ok in Hb as (pc & Hpc & Hl & _).
    rewrite (binding_insert s s' _ pc cm (local_id obj) g0 Hpc Hl).
    destruct (decide _) as [(-> & -> & ->)|]; [by destruct Hne | done]. }
  destruct (process_object_inv _ _ _ _ _ _ H)
    as [g0 Hb Hu _|g0 st1 Hc Hb Hm Hbl1 Hu _|g0 st1 st2 Hc Hb Hm Hge Hr Hbl1 Hu _
        |Hc Hb Hlt -> _].
  - by rewrite (Hupd _ _ _ Hu).
  - by rewrite (Hupd _ _ _ Hu), (Hbl _ _ _ Hbl1).
  - rewrite (Hupd _ _ _ Hu), (Hbl _ _ _ Hbl1).
    apply register_object_in_gallery_Ok in Hr as (_ & l & i & Hr).
    destruct Hr as (_ & _ & _ & _ & _ & _ & Hl2g & _).
    by rewrite (binding_unchanged _ _ Hl2g).
  - done.
Qed.

Lemma resolution_leaves_other_bindings_witness :
  let st := state_after [(camera1, [det "vessel" 1 200 0])] in
  let obj := det "vessel" 2 200 9 in
  binding (resolved st camera1 obj) "vessel" camera1 (Some 1)
  = binding st "vessel" camera1 (Some 1).
Proof.
  intros st obj.
  apply (resolution_leaves_other_bindings sample_config st camera1 obj
           (resolved st camera1 obj) (update_info obj camera1 (Some 1))).
  - apply resolved_answer. vm_compute; reflexivity.
  - discriminate.
Defined.

(** *** What a frame returns *)

Lemma size_threshold_process_object cfg st cm obj st' out :
  process_object cfg st cm obj = Ok (st', out) →
  size_threshold st' = size_threshold st.
Proof.
  intros H.
  assert (Hupd : ∀ s s' g0, update_gallery_feature s cm (class_name obj) g0
            (det_feature obj) (bbox_area (det_bbox obj)) = Ok s' →
            size_threshold s' = size_threshold s).
  { intros s s' g0 Hu.
    apply update_gallery_feature_Ok in Hu as [[_ ->]|(_ & l & d & Hu)]; [done|].
    by destruct Hu as (_ & _ & _ & _ & _ & _ & _ & Ht & _). }
  assert (Hbl : ∀ s s' g0,
            bind_local s (class_name obj) cm (local_id obj) g0 = Ok s' →
            size_threshold s' = size_threshold s).
  { intros s s' g0 Hb.
    by apply bind_local_Ok in Hb as (pc & _ & _ & _ & _ & _ & _ & Ht & _). }
  destruct (process_object_inv _ _ _ _ _ _ H)
    as [g0 Hb Hu _|g0 st1 Hc Hb Hm Hbl1 Hu _|g0 st1 st2 Hc Hb Hm Hge Hr Hbl1 Hu _
        |Hc Hb Hlt -> _].
  - by rewrite (Hupd _ _ _ Hu).
  - by rewrite (Hupd _ _ _ Hu), (Hbl _ _ _ Hbl1).
  - rewrite (Hupd _ _ _ Hu), (Hbl _ _ _ Hbl1).
    apply register_object_in_gallery_Ok in Hr as (_ & l & i & Hr).
    by destruct Hr as (_ & _ & _ & _ & _ & _ & _ & Ht & _).
  - done.
Qed.

(** X9.  A frame that does not raise returns one dictionary per detection,
    in order, with the class, local id, box and score of the detection and
    the camera of the frame; a global id in it is the binding of the
    detection's key when the frame ends, and a detection returned without
    global id has an area below the size threshold. *)
Theorem frame_outputs_follow_detections cfg objs : ∀ st cm st' outs,
  process_camera_frame cfg st objs cm = Ok (st', outs) →
  Forall2 (fun obj out =>
             t_class_name out = class_name obj ∧ t_local_id out = local_id obj ∧
             t_bbox out = det_bbox obj ∧ t_score out = score obj ∧
             t_camera_id out = cm ∧
             match t_global_id out with
             | Some g => binding st' (class_name obj) cm (local_id obj) = Some g
             | None => bbox_area (det_bbox obj) < size_threshold st
             end) objs outs.
Proof.
  unfold process_camera_frame.
  induction objs as [|obj objs IH]; intros st cm st' outs H; simpl in H.
  - injection H as <- <-. constructor.
  - inv_ok H. destruct a as [st1 o]. inv_ok H. destruct a as [st2 os].
    injection H as <- <-.
    pose proof (size_threshold_process_object _ _ _ _ _ _ Ha) as Hthr.
    constructor.
    + destruct (process_object_inv _ _ _ _ _ _ Ha)
        as [g0 _ _ ->|g0 s1 _ _ _ _ _ ->|g0 s1 s2 _ _ _ _ _ _ _ ->|_ _ Hlt _ ->];
        simpl; repeat split; try done;
        (eapply binding_process_objects; [exact Ha0|];
         by eapply process_object_binds).
    + rewrite <- Hthr. by apply IH.
Qed.

Lemma frame_outputs_follow_detections_witness :
  let objs := [det "vessel" 1 200 0; det "vessel" 2 50 0] in
  let r := match process_camera_frame sample_config sample_init objs camera1 with
           | Ok r => r
           | Raise _ => (sample_init, [])
           end in
  (t_global_id <$> snd r) = [Some 0; None] ∧
  length objs = length (snd r).
Proof.
  intros objs r. split; [vm_compute; reflexivity|].
  eapply Forall2_length.
  apply (frame_outputs_follow_detections sample_config objs sample_init camera1
           (fst r) (snd r)).
  rewrite <- surjective_pairing. apply result_unwrap. vm_compute; reflexivity.
Defined.

(** *** The direction test *)

Lemma Qltb_asym a b : Qltb a b = true → Qltb b a = false.
Proof.
  unfold Qltb. intros H. apply negb_true_iff in H. apply negb_false_iff.
  apply Qle_bool_iff. destruct (Qlt_le_dec a b) as [Hlt|Hle].
  - by apply Qlt_le_weak.
  - apply Qle_bool_iff in Hle. congruence.
Qed.

(** X10.  When [is_moving_towards_port] holds from one box to another, the
    camera is one of the four configured cameras, the two boxes differ and
    the test fails in the opposite direction. *)
Theorem moving_towards_port_is_one_way cfg last current cm :
  is_moving_towards_port cfg last current cm = true →
  cm ∈ [CAMERA_1_ID cfg; CAMERA_2_ID cfg; CAMERA_3_ID cfg; CAMERA_4_ID cfg] ∧
  last ≠ current ∧
  is_moving_towards_port cfg current last cm = false.
Proof.
  unfold is_moving_towards_port.
  destruct (bool_decide (cm ∈ [CAMERA_1_ID cfg; CAMERA_2_ID cfg])) eqn:H12.
  - intros H. apply andb_true_iff in H as [Hx Hy].
    apply bool_decide_eq_true_1 in H12. split; [|split].
    + apply elem_of_cons in H12 as [->|H12]; [apply list_elem_of_here|].
      apply list_elem_of_further. apply list_elem_of_singleton in H12 as ->.
      apply list_elem_of_here.
    + intros ->. apply Qltb_asym in Hx as Hx'. congruence.
    + by rewrite (Qltb_asym _ _ Hx).
  - destruct (bool_decide (cm ∈ [CAMERA_3_ID cfg; CAMERA_4_ID cfg])) eqn:H34;
      [|discriminate].
    intros Hx. apply bool_decide_eq_true_1 in H34. split; [|split].
    + by do 2 apply list_elem_of_further.
    + intros ->. apply Qltb_asym in Hx as Hx'. congruence.
    + exact (Qltb_asym _ _ Hx).
Qed.

Lemma moving_towards_port_is_one_way_witness :
  is_moving_towards_port sample_config (10, 0, 20, 10) (0, 5, 10, 15) camera1 = true ∧
  is_moving_towards_port sample_config (0, 5, 10, 15) (10, 0, 20, 10) camera1 = false.
Proof.
  split; [reflexivity|].
  apply (moving_towards_port_is_one_way sample_config (10, 0, 20, 10) (0, 5, 10, 15)
           camera1). reflexivity.
Defined.

End VesselFacts.

(** ** [MCMOT]: the gallery under resolution and sweep *)

Module MCMOTFacts.
Import MCMOT MCMOTTheory.

Local Open Scope Z_scope.

(** *** What a resolution does to the gallery *)

Lemma base_register_Ok st c f st' g :
  register_object_in_gallery st c f = Ok (st', g) →
  ∃ l, gallery st !! c = Some l ∧
       gallery st' = <[c := alist_set l g f]> (gallery st) ∧
       local_to_global_id st' = local_to_global_id st ∧
       object_types st' = object_types st.
Proof.
  unfold register_object_in_gallery. intros H.
  inv_ok H. inv_ok H. inv_ok Ha0. inv_ok H. inv_ok H.
  injection H as <- <-. by exists a0.
Qed.

Lemma base_bind_local_Ok st c cm lid g st' :
  bind_local st c cm lid g = Ok st' →
  gallery st' = gallery st ∧ object_types st' = object_types st ∧
  ∃ pc, local_to_global_id st !! c = Some pc ∧
        local_to_global_id st' =
          <[c := <[cm := <[lid := g]> (default ∅ (pc !! cm))]> pc]>
            (local_to_global_id st).
Proof.
  unfold bind_local. intros H. inv_ok H. inv_ok Ha. injection H as <-.
  repeat split; try done. by exists a.
Qed.

(** The gallery after one resolution: unchanged, or one entry written. *)
Lemma base_process_object_gallery st cm obj st' o :
  process_object st cm obj = Ok (st', o) →
  object_types st' = object_types st ∧
  (∀ c, is_Some (local_to_global_id st !! c) ↔ is_Some (local_to_global_id st' !! c)) ∧
  (gallery st' = gallery st ∨
   ∃ l g, gallery st !! class_name obj = Some l ∧
          gallery st' = <[class_name obj := alist_set l g (det_feature obj)]> (gallery st)).
Proof.
  unfold process_object. intros H.
  inv_ok H. inv_ok Ha.
  destruct (bound_track a cm (local_id obj)) as [g|] eqn:Hb.
  - injection H as <- _. by repeat split; [..|left].
  - destruct (Z.ltb_spec 10000 (bbox_area (det_bbox obj))) as [Hgt|Hle].
    + inv_ok H. inv_ok H. destruct a1 as [st1 g]. inv_ok H.
      injection H as <- _.
      destruct (base_bind_local_Ok _ _ _ _ _ _ Ha2) as (Hg & Ht & pc & Hpc & Hl).
      assert (Hdom : local_to_global_id st1 = local_to_global_id st →
                object_types st1 = object_types st →
                object_types a1 = object_types st ∧
                (∀ c, is_Some (local_to_global_id st !! c)
                      ↔ is_Some (local_to_global_id a1 !! c))).
      { intros Hs1 Hs2. split; [congruence|].
        intros c. rewrite Hl, Hs1.
        destruct (decide (c = class_name obj)) as [->|Hne].
        - rewrite lookup_insert_eq. rewrite Ha. split; by eexists.
        - by rewrite lookup_insert_ne. }
      destruct a0 as [g0|].
      * injection Ha1 as <- <-. destruct Hdom as [? ?]; try done.
        split; [done|]. split; [done|]. by left.
      * destruct (base_register_Ok _ _ _ _ _ Ha1) as (l & Hgl & Hg1 & Hl1 & Ht1).
        destruct Hdom as [? ?]; try done.
        split; [done|]. split; [done|]. right. exists l, g. by rewrite Hg.
    + injection H as <- _. by repeat split; [..|left].
Qed.

Lemma base_entry_process_object st cm obj st' o c g :
  process_object st cm obj = Ok (st', o) →
  is_Some (entry st c g) → is_Some (entry st' c g).
Proof.
  intros H Hs.
  destruct (base_process_object_gallery _ _ _ _ _ H)
    as (_ & _ & [Hg|(l & g0 & Hl & Hg)]); unfold entry in *; rewrite Hg; [done|].
  destruct (decide (c = class_name obj)) as [->|Hne].
  - rewrite lookup_insert_eq. rewrite Hl in Hs. rewrite alist_get_set.
    by destruct (decide (g0 = g)).
  - by rewrite lookup_insert_ne.
Qed.

Lemma base_entry_process_objects objs : ∀ st cm st' outs c g,
  process_objects st cm objs = Ok (st', outs) →
  is_Some (entry st c g) → is_Some (entry st' c g).
Proof.
  induction objs as [|obj objs IH]; intros st cm st' outs c g H Hs; simpl in H.
  - by injection H as <- _.
  - inv_ok H. destruct a as [st1 o]. inv_ok H. destruct a as [st2 os].
    injection H as <- _. eapply IH; [exact Ha0|].
    by eapply base_entry_process_object.
Qed.

(** X11.  As long as no frame comes from the camera [4] (the integer), and
    in particular when camera ids are strings, no gallery entry is ever
    deleted: the sweep never runs. *)
Theorem no_sweep_without_integer_camera frames : ∀ st st' c g,
  Forall (fun '(cm, _) => cm ≠ CamInt 4) frames →
  run st frames = Ok st' →
  is_Some (entry st c g) → is_Some (entry st' c g).
Proof.
  induction frames as [|[cm objs] frames IH]; intros st st' c g Hall H Hs;
    simpl in H.
  - by injection H as <-.
  - apply Forall_cons in Hall as [Hcm Hall].
    inv_ok H. destruct a as [st1 outs].
    eapply IH; [exact Hall|exact H|].
    unfold process_camera_frame in Ha. inv_ok Ha. destruct a as [s1 out].
    rewrite decide_False in Ha by exact Hcm. injection Ha as <- _.
    by eapply base_entry_process_objects.
Qed.

Lemma no_sweep_without_integer_camera_witness :
  let st := resolved (init ["vessel"]) (CamStr "camera1") (det "vessel" 1 200 0) in
  entry st "vessel" 0 = Some (vec 0) ∧
  is_Some (entry (ran st [(CamStr "camera4", []); (CamStr "camera4", [])])
             "vessel" 0).
Proof.
  intros st.
  assert (He : entry st "vessel" 0 = Some (vec 0)) by (vm_compute; reflexivity).
  split; [exact He|].
  apply (no_sweep_without_integer_camera
           [(CamStr "camera4", []); (CamStr "camera4", [])] st).
  - repeat constructor; discriminate.
  - apply base_ran_run. vm_compute; reflexivity.
  - rewrite He. by eexists.
Defined.

(** *** The sweep *)

(** The deletion loop over a snapshot [ks] of the keys. *)
Lemma sweep_loop_get (bound : list Z) (ks : list Z) : ∀ (g0 : list (Z * feature)),
  NoDup (alist_keys g0) →
  let g' := foldl (fun g gid => if bool_decide (gid ∈ bound) then g
                                else alist_del g gid) g0 ks in
  NoDup (alist_keys g') ∧
  ∀ k, alist_get g' k =
       if decide (k ∈ ks ∧ k ∉ bound) then None else alist_get g0 k.
Proof.
  induction ks as [|k0 ks IH]; intros g0 Hnd; cbn [foldl].
  - split; [done|]. intros k. rewrite decide_False; [done|].
    intros [Hin _]. by apply not_elem_of_nil in Hin.
  - set (g1 := if bool_decide (k0 ∈ bound) then g0 else alist_del g0 k0).
    assert (Hnd1 : NoDup (alist_keys g1)).
    { unfold g1. destruct (bool_decide _); [done | by apply NoDup_alist_del]. }
    assert (Hg1 : ∀ k, alist_get g1 k =
                       if decide (k = k0 ∧ k ∉ bound) then None else alist_get g0 k).
    { intros k. unfold g1. destruct (bool_decide (k0 ∈ bound)) eqn:Hb.
      - apply bool_decide_eq_true_1 in Hb.
        rewrite decide_False; [done|]. by intros [-> ?].
      - apply bool_decide_eq_false_1 in Hb.
        destruct (decide (k = k0)) as [->|Hne].
        + rewrite decide_True by done. by apply alist_get_del_eq.
        + rewrite decide_False by (by intros [? ?]). by apply alist_get_del_ne. }
    destruct (IH g1 Hnd1) as [Hnd' Hget]. split; [exact Hnd'|].
    intros k. rewrite Hget, Hg1.
    destruct (decide (k ∈ ks ∧ k ∉ bound)) as [[Hin Hnb]|Hn1].
    + rewrite decide_True; [done|]. split; [by apply list_elem_of_further | done].
    + destruct (decide (k = k0 ∧ k ∉ bound)) as [[-> Hnb]|Hn2].
      * rewrite decide_True; [done|]. split; [apply list_elem_of_here | done].
      * rewrite decide_False; [done|]. intros [Hin Hnb].
        apply elem_of_cons in Hin as [->|Hin]; [by apply Hn2 | by apply Hn1].
Qed.

Lemma sweep_class_Ok st cm c :
  is_Some (gallery st !! c) → is_Some (local_to_global_id st !! c) →
  (∀ c' l, gallery st !! c' = Some l → NoDup (alist_keys l)) →
  ∃ st', sweep_class st cm c = Ok st' ∧
         object_types st' = object_types st ∧
         local_to_global_id st' = local_to_global_id st ∧
         (∀ c' l, gallery st' !! c' = Some l → NoDup (alist_keys l)) ∧
         (∀ c', is_Some (gallery st' !! c') ↔ is_Some (gallery st !! c')) ∧
         ∀ c' g, entry st' c' g =
                 if decide (c' = c ∧ g ∉ bound_ids st c cm) then None
                 else entry st c' g.
Proof.
  intros [l Hl] [pc Hpc] Hnd.
  unfold sweep_class, dict_get. rewrite Hl. cbn [rbind].
  destruct (alist_keys l) as [|k0 ks] eqn:Hks.
  - exists st. repeat split; try done.
    intros c' g. destruct (decide _) as [[-> _]|]; [|done].
    unfold entry. rewrite Hl. apply alist_get_None. rewrite Hks. apply not_elem_of_nil.
  - rewrite Hpc. cbn [rbind]. eexists. split; [reflexivity|]. simpl.
    set (bound := (map_to_list (default ∅ (pc !! cm))).*2).
    assert (Hbound : bound_ids st c cm = bound) by (unfold bound_ids; by rewrite Hpc).
    destruct (sweep_loop_get bound (k0 :: ks) l (Hnd c l Hl)) as [Hnd' Hget].
    repeat split; try done.
    + intros c' l'. destruct (decide (c' = c)) as [->|Hne].
      * rewrite lookup_insert_eq. by intros [= <-].
      * rewrite lookup_insert_ne by done. apply Hnd.
    + destruct (decide (c' = c)) as [->|Hne];
        [by rewrite Hl | by rewrite lookup_insert_ne].
    + destruct (decide (c' = c)) as [->|Hne];
        [rewrite lookup_insert_eq; by eexists | by rewrite lookup_insert_ne].
    + intros c' g. unfold entry. simpl.
      destruct (decide (c' = c)) as [->|Hne].
      * rewrite lookup_insert_eq, Hl, Hget, Hbound, <- Hks.
        destruct (decide (g ∈ alist_keys l ∧ g ∉ bound)) as [[Hin Hnb]|Hn].
        -- by rewrite decide_True.
        -- destruct (decide (c = c ∧ g ∉ bound)) as [[_ Hnb]|]; [|done].
           apply alist_get_None. intros Hin. by apply Hn.
      * rewrite lookup_insert_ne by done.
        by rewrite decide_False by (by intros [? ?]).
Qed.

Lemma sweep_Ok cm types : ∀ st,
  (∀ c, c ∈ types →
     is_Some (gallery st !! c) ∧ is_Some (local_to_global_id st !! c)) →
  (∀ c l, gallery st !! c = Some l → NoDup (alist_keys l)) →
  ∃ st', sweep st cm types = Ok st' ∧
         object_types st' = object_types st ∧
         local_to_global_id st' = local_to_global_id st ∧
         (∀ c l, gallery st' !! c = Some l → NoDup (alist_keys l)) ∧
         (∀ c, is_Some (gallery st' !! c) ↔ is_Some (gallery st !! c)) ∧
         ∀ c g, entry st' c g =
                if decide (c ∈ types ∧ g ∉ bound_ids st c cm) then None
                else entry st c g.
Proof.
  induction types as [|t types IH]; intros st Hdom Hnd; cbn [sweep].
  - exists st. do 5 (split; [done|]). intros c g.
    destruct (decide _) as [[Hin _]|]; [by apply not_elem_of_nil in Hin | done].
  - destruct (Hdom t (list_elem_of_here _ _)) as [Hgt Hlt].
    destruct (sweep_class_Ok st cm t Hgt Hlt Hnd)
      as (st1 & Hs1 & Ht1 & Hl1 & Hnd1 & Hd1 & He1).
    rewrite Hs1. cbn [rbind].
    destruct (IH st1) as (st' & Hs' & Ht' & Hl' & Hnd' & Hd' & He').
    { intros c Hin. rewrite Hd1, Hl1. apply Hdom. by apply list_elem_of_further. }
    { exact Hnd1. }
    exists st'. split; [exact Hs'|]. split; [congruence|]. split; [congruence|].
    split; [exact Hnd'|]. split; [intros c; by rewrite Hd', Hd1|].
    intros c g. rewrite He', He1.
    assert (Hb : bound_ids st1 c cm = bound_ids st c cm)
      by (unfold bound_ids; by rewrite Hl1).
    rewrite Hb.
    destruct (decide (c ∈ types ∧ g ∉ bound_ids st c cm)) as [[Hin Hnb]|Hn1].
    + rewrite decide_True; [done|]. split; [by apply list_elem_of_further | done].
    + destruct (decide (c = t ∧ g ∉ bound_ids st t cm)) as [[-> Hnb]|Hn2].
      * rewrite decide_True; [done|]. split; [apply list_elem_of_here | done].
      * rewrite decide_False; [done|]. intros [Hin Hnb].
        apply elem_of_cons in Hin as [->|Hin]; [by apply Hn2 | by apply Hn1].
Qed.

(** *** The invariant *)

Lemma well_keyed_init types : well_keyed types (init types).
Proof.
  split; [done|]. split.
  - intros c Hin. simpl. rewrite !dict_of_keys_lookup.
    rewrite !decide_True by done. split; by eexists.
  - intros c l. simpl. rewrite dict_of_keys_lookup.
    destruct (decide _); [|discriminate]. intros [= <-]. apply NoDup_nil_2.
Qed.

Lemma well_keyed_process_object types st cm obj st' o :
  well_keyed types st → process_object st cm obj = Ok (st', o) →
  well_keyed types st'.
Proof.
  intros (Ht & Hdom & Hnd) H.
  destruct (base_process_object_gallery _ _ _ _ _ H) as (Ht' & Hl & Hg).
  split; [congruence|].
  destruct Hg as [Hg|(l & g & Hgl & Hg)]; rewrite Hg.
  - split; [|done]. intros c Hin. rewrite <- Hl. by apply Hdom.
  - split.
    + intros c Hin. rewrite <- Hl. destruct (Hdom c Hin) as [? ?]. split; [|done].
      destruct (decide (c = class_name obj)) as [->|Hne];
        [rewrite lookup_insert_eq; by eexists | by rewrite lookup_insert_ne].
    + intros c l'. destruct (decide (c = class_name obj)) as [->|Hne].
      * rewrite lookup_insert_eq. intros [= <-]. apply NoDup_alist_set. by eapply Hnd.
      * rewrite lookup_insert_ne by done. apply Hnd.
Qed.

Lemma well_keyed_process_objects types objs : ∀ st cm st' outs,
  well_keyed types st → process_objects st cm objs = Ok (st', outs) →
  well_keyed types st'.
Proof.
  induction objs as [|obj objs IH]; intros st cm st' outs Hwk H; simpl in H.
  - by injection H as <- _.
  - inv_ok H. destruct a as [st1 o]. inv_ok H. destruct a as [st2 os].
    injection H as <- _. eapply IH; [|exact Ha0].
    by eapply well_keyed_process_object.
Qed.

Lemma well_keyed_process_camera_frame types st objs cm st' outs :
  well_keyed types st → process_camera_frame st objs cm = Ok (st', outs) →
  well_keyed types st'.
Proof.
  intros Hwk H. unfold process_camera_frame in H. inv_ok H. destruct a as [s1 out].
  pose proof (well_keyed_process_objects _ _ _ _ _ _ Hwk Ha) as (Ht & Hdom & Hnd).
  destruct (decide (cm = CamInt 4)); [|by injection H as <- _].
  inv_ok H. injection H as <- _. rewrite Ht in Ha0.
  destruct (sweep_Ok cm types s1 Hdom Hnd) as (s2 & Hs2 & Ht2 & Hl2 & Hnd2 & Hd2 & _).
  rewrite Hs2 in Ha0. injection Ha0 as <-.
  split; [congruence|]. split; [|exact Hnd2].
  intros c Hin. rewrite Hd2, Hl2. by apply Hdom.
Qed.

Lemma well_keyed_run types frames : ∀ st st',
  well_keyed types st → run st frames = Ok st' → well_keyed types st'.
Proof.
  induction frames as [|[cm objs] frames IH]; intros st st' Hwk H; simpl in H.
  - by injection H as <-.
  - inv_ok H. destruct a as [st1 outs]. eapply IH; [|exact H].
    by eapply well_keyed_process_camera_frame.
Qed.

(** X12.  In any state the base tracker reaches, a frame of camera [4] whose
    detections resolve without raising ends with a sweep that does not
    raise, leaves bindings, counters and indexes alone, and keeps in the
    gallery of every class exactly the entries whose id some local track of
    camera [4] is bound to. *)
Theorem sweep_keeps_the_bound_ids types frames st objs st1 outs :
  run (init types) frames = Ok st →
  process_objects st (CamInt 4) objs = Ok (st1, outs) →
  ∃ st', process_camera_frame st objs (CamInt 4) = Ok (st', outs) ∧
         local_to_global_id st' = local_to_global_id st1 ∧
         global_id_counter st' = global_id_counter st1 ∧
         faiss_indexes st' = faiss_indexes st1 ∧
         ∀ c g, c ∈ types →
           entry st' c g =
             if decide (g ∈ bound_ids st1 c (CamInt 4)) then entry st1 c g else None.
Proof.
  intros Hrun Hobjs.
  pose proof (well_keyed_run _ _ _ _ (well_keyed_init types) Hrun) as Hwk.
  pose proof (well_keyed_process_objects _ _ _ _ _ _ Hwk Hobjs) as (Ht & Hdom & Hnd).
  destruct (sweep_Ok (CamInt 4) types st1 Hdom Hnd)
    as (st' & Hs & _ & Hl & _ & _ & He).
  exists st'. unfold process_camera_frame. rewrite Hobjs. cbn [rbind].
  rewrite decide_True by done. rewrite Ht, Hs. cbn [rbind].
  destruct (sweep_counter _ _ _ _ Hs) as (Hc & _ & Hf).
  repeat split; try done.
  intros c g Hin. rewrite He.
  destruct (decide (g ∈ bound_ids st1 c (CamInt 4))) as [Hb|Hnb].
  - rewrite decide_False; [done|]. by intros [_ ?].
  - by rewrite decide_True.
Qed.

Lemma sweep_keeps_the_bound_ids_witness :
  let st := ran (init ["vessel"])
              [(CamInt 1, [det "vessel" 1 200 0; det "vessel" 2 200 9])] in
  let objs := [det "vessel" 5 200 9] in
  let st1 := fst (match process_objects st (CamInt 4) objs with
                  | Ok r => r
                  | Raise _ => (st, [])
                  end) in
  bound_ids st1 "vessel" (CamInt 4) = [1] ∧
  ∃ st', process_camera_frame st objs (CamInt 4) = Ok (st', [Some 1]) ∧
         entry st' "vessel" 0 = None ∧
         entry st' "vessel" 1 = entry st1 "vessel" 1.
Proof.
  intros st objs st1.
  assert (Hb : bound_ids st1 "vessel" (CamInt 4) = [1]) by (vm_compute; reflexivity).
  split; [exact Hb|].
  destruct (sweep_keeps_the_bound_ids ["vessel"]
              [(CamInt 1, [det "vessel" 1 200 0; det "vessel" 2 200 9])]
              st objs st1 [Some 1]) as (st' & Hres & _ & _ & _ & He).
  - apply base_ran_run. vm_compute; reflexivity.
  - assert (Hout : snd (match process_objects st (CamInt 4) objs with
                        | Ok r => r
                        | Raise _ => (st, [])
                        end) = [Some 1]) by (vm_compute; reflexivity).
    rewrite <- Hout. unfold st1. rewrite <- surjective_pairing.
    apply result_unwrap. vm_compute; reflexivity.
  - exists st'. split; [exact Hres|].
    rewrite !He by apply list_elem_of_here. rewrite Hb. split.
    + rewrite decide_False; [done|]. intros Hin.
      apply list_elem_of_singleton in Hin. discriminate.
    + rewrite decide_True; [done|]. apply list_elem_of_here.
Defined.

End MCMOTFacts.

(** ** [EventService]: runs of the public interface *)

Module EventFacts.
Import EventService.

Local Open Scope Z_scope.

Lemma active_keys st gid :
  gid ∈ alist_keys (active_events st) → is_Some (active st gid).
Proof.
  intros Hin. unfold active.
  destruct (alist_get (active_events st) gid) eqn:Hg; [by eexists|].
  by apply alist_get_None in Hg.
Qed.

Lemma synced_init : synced init.
Proof. split; try done. simpl. apply NoDup_nil_2. Qed.

Lemma synced_lt st gid d :
  synced st → active st gid = Some d →
  (event_pk (ed_event d) < length (event_table st))%nat ∧
  (vessel_pk (ed_vessel d) < length (vessel_table st))%nat.
Proof.
  intros Hs Hd. destruct (synced_rows _ Hs _ _ Hd) as (He & Hv & _).
  split; by eapply lookup_lt_Some.
Qed.

(** *** Creation *)

Lemma synced_create st gid det camera_id current_time coordinates :
  synced st → active st gid = None →
  synced (_create_new_event st gid det camera_id current_time coordinates).
Proof.
  intros Hs Hn.
  assert (Hget : ∀ gid' d',
            active (_create_new_event st gid det camera_id current_time coordinates)
              gid' = Some d' →
            (gid' = gid ∧
             d' = EventData
                    (Vessel (length (vessel_table st)) current_time current_time
                            (det_feature det))
                    (VesselEvent (length (event_table st)) (length (vessel_table st))
                       current_time None
                       [TrackingPoint current_time (longitude coordinates)
                                      (latitude coordinates) None])
                    [(camera_id, coordinates)]) ∨
            (gid' ≠ gid ∧ active st gid' = Some d')).
  { intros gid' d'. unfold active, _create_new_event. simpl.
    rewrite alist_get_set. destruct (decide (gid = gid')) as [->|Hne].
    - intros [= <-]. by left.
    - intros Hd. right. by split. }
  split.
  - simpl. apply NoDup_alist_set, Hs.
  - intros gid' d' Hd. destruct (Hget _ _ Hd) as [[-> ->]|[Hne Hd']].
    + simpl. by rewrite !list_lookup_middle.
    + destruct (synced_rows _ Hs _ _ Hd') as (He & Hv & ? & ?).
      destruct (synced_lt _ _ _ Hs Hd') as [? ?]. simpl.
      rewrite !lookup_app_l by done. done.
  - intros gid1 gid2 d1 d2 H1 H2 Hpk.
    destruct (Hget _ _ H1) as [[-> ->]|[Hne1 Hd1]];
      destruct (Hget _ _ H2) as [[-> ->]|[Hne2 Hd2]]; try done.
    + destruct (synced_lt _ _ _ Hs Hd2) as [? ?]. simpl in Hpk. lia.
    + destruct (synced_lt _ _ _ Hs Hd1) as [? ?]. simpl in Hpk. lia.
    + by eapply (synced_pks _ Hs).
  - intros gid'. unfold active. simpl. rewrite alist_get_set.
    destruct (decide (gid = gid')); [done|]. apply (synced_times _ Hs).
Qed.

(** *** Update *)

(** [_update_event] on an active identity: it does not raise; the entry
    in memory and the rows are rewritten, and a point is appended when
    the sampling test succeeds. *)
Lemma _update_event_Ok st now gid camera_id current_time coordinates channel d :
  active st gid = Some d →
  ∃ st' e',
    _update_event st now gid camera_id current_time coordinates channel = Ok st' ∧
    tracking_interval st' = tracking_interval st ∧
    active_events st' =
      alist_set (active_events st) gid
        (EventData (Vessel (vessel_pk (ed_vessel d)) (first_seen (ed_vessel d))
                           current_time (vessel_features (ed_vessel d)))
                   e' (alist_set (camera_positions d) camera_id coordinates)) ∧
    vessel_table st' =
      <[vessel_pk (ed_vessel d) :=
          Vessel (vessel_pk (ed_vessel d)) (first_seen (ed_vessel d))
                 current_time (vessel_features (ed_vessel d))]> (vessel_table st) ∧
    ((Qle_bool (tracking_interval st)
               (now - default 0%Q (last_track_time st !! gid)) = true ∧
      (∃ p, timestamp p = current_time ∧
            e' = VesselEvent (event_pk (ed_event d)) (event_vessel (ed_event d))
                   (start_time (ed_event d)) (end_time (ed_event d))
                   (tracking_points (ed_event d) ++ [p])) ∧
      event_table st' = <[event_pk (ed_event d) := e']> (event_table st) ∧
      last_track_time st' = <[gid := now]> (last_track_time st)) ∨
     (Qle_bool (tracking_interval st)
               (now - default 0%Q (last_track_time st !! gid)) = false ∧
      e' = ed_event d ∧
      event_table st' = event_table st ∧
      last_track_time st' = last_track_time st)).
Proof.
  unfold active. intros Hd. unfold _update_event. rewrite Hd. cbn [rbind].
  unfold _should_record_tracking_point.
  destruct (Qle_bool _ _) eqn:Hle.
  - destruct (_calculate_average_position _) as [avg|] eqn:Havg.
    + cbn [rbind]. eexists _, _. split; [reflexivity|]. simpl.
      split; [done|]. split; [done|]. split; [done|]. left.
      split; [done|]. split; [|done]. by eexists (TrackingPoint _ _ _ _).
    + exfalso. unfold _calculate_average_position in Havg.
      destruct (alist_set (camera_positions d) camera_id coordinates)
        as [|[k v] l] eqn:Hset; [|discriminate].
      destruct (camera_positions d) as [|[k0 v0] l0]; simpl in Hset; [discriminate|].
      destruct (decide (k0 = camera_id)); discriminate.
  - eexists _, _. split; [reflexivity|]. simpl.
    split; [done|]. split; [done|]. split; [done|]. right. done.
Qed.

Lemma alist_set_nonempty {K V} `{EqDecision K} (l : list (K * V)) k v :
  alist_set l k v ≠ [].
Proof.
  destruct l as [|[k0 v0] l]; simpl; [done|]. by destruct (decide (k0 = k)).
Qed.

Lemma synced_update st now gid camera_id current_time coordinates channel d st' :
  synced st → active st gid = Some d →
  _update_event st now gid camera_id current_time coordinates channel = Ok st' →
  synced st'.
Proof.
  intros Hs Hd H.
  destruct (_update_event_Ok st now gid camera_id current_time coordinates channel
              d Hd) as (st1 & e' & H1 & _ & Ha & Hv & Hcase).
  rewrite H1 in H. injection H as <-.
  destruct (synced_rows _ Hs _ _ Hd) as (Hrow & Hvrow & Hend & Hpos).
  destruct (synced_lt _ _ _ Hs Hd) as [Hlt Hvlt].
  assert (He' : event_pk e' = event_pk (ed_event d) ∧ end_time e' = None ∧
                event_table st1 !! event_pk (ed_event d) = Some e' ∧
                (∀ pk, pk ≠ event_pk (ed_event d) →
                       event_table st1 !! pk = event_table st !! pk) ∧
                (∀ g, g ≠ gid → last_track_time st1 !! g = last_track_time st !! g)).
  { destruct Hcase as [(_ & (p & _ & ->) & -> & ->)|(_ & -> & -> & ->)]; simpl.
    - split; [done|]. split; [done|].
      split; [by rewrite list_lookup_insert_eq|].
      split; [intros pk Hne; by rewrite list_lookup_insert_ne|].
      intros g Hne. by rewrite lookup_insert_ne.
    - done. }
  destruct He' as (Hpk' & Hend' & Hrow' & Hrows' & Htimes').
  assert (Hget : ∀ gid' d', active st1 gid' = Some d' →
            (gid' = gid ∧ event_pk (ed_event d') = event_pk (ed_event d) ∧
             vessel_pk (ed_vessel d') = vessel_pk (ed_vessel d) ∧
             ed_event d' = e' ∧ camera_positions d' ≠ [] ∧
             vessel_table st1 !! vessel_pk (ed_vessel d') = Some (ed_vessel d')) ∨
            (gid' ≠ gid ∧ active st gid' = Some d')).
  { intros gid' d'. unfold active. rewrite Ha, alist_get_set.
    destruct (decide (gid = gid')) as [->|Hne].
    - intros [= <-]. left. simpl. repeat split; try done.
      + apply alist_set_nonempty.
      + rewrite Hv. by rewrite list_lookup_insert_eq.
    - intros Hd'. right. by split. }
  split.
  - rewrite Ha. apply NoDup_alist_set, Hs.
  - intros gid' d' Hd'.
    destruct (Hget _ _ Hd') as [(-> & Hp & Hvp & He & Hne & Hvr)|[Hne Hd0]].
    + rewrite Hp, He. done.
    + destruct (synced_rows _ Hs _ _ Hd0) as (Hr0 & Hv0 & ? & ?).
      assert (Hdiff : event_pk (ed_event d') ≠ event_pk (ed_event d) ∧
                      vessel_pk (ed_vessel d') ≠ vessel_pk (ed_vessel d)).
      { split; intros Heq; apply Hne;
          apply (synced_pks _ Hs _ _ _ _ Hd0 Hd); [by left | by right]. }
      destruct Hdiff as [Hde Hdv].
      rewrite Hrows' by done. rewrite Hv, list_lookup_insert_ne by done. done.
  - intros gid1 gid2 d1 d2 H1' H2' Hpk.
    destruct (Hget _ _ H1') as [(-> & Hp1 & Hvp1 & _)|[Hne1 Hd1]];
      destruct (Hget _ _ H2') as [(-> & Hp2 & Hvp2 & _)|[Hne2 Hd2]]; try done.
    + symmetry. apply (synced_pks _ Hs _ _ _ _ Hd2 Hd). rewrite <- Hp1, <- Hvp1.
      destruct Hpk; [by left | by right].
    + apply (synced_pks _ Hs _ _ _ _ Hd1 Hd). rewrite <- Hp2, <- Hvp2. done.
    + by eapply (synced_pks _ Hs).
  - intros gid'. unfold active. rewrite Ha, alist_get_set.
    destruct (decide (gid = gid')) as [->|Hne]; [done|].
    intros Hn. rewrite Htimes' by done. by apply (synced_times _ Hs).
Qed.

(** The three ways of a detection call. *)
Lemma process_detection_cases st now det camera_id current_time coordinates channel :
  process_detection st now det camera_id current_time coordinates channel = Ok st ∨
  (∃ gid, global_id det = Some gid ∧ active st gid = None ∧
          process_detection st now det camera_id current_time coordinates channel
          = Ok (_create_new_event st gid det camera_id current_time coordinates)) ∨
  (∃ gid d, global_id det = Some gid ∧ active st gid = Some d ∧
            process_detection st now det camera_id current_time coordinates channel
            = _update_event st now gid camera_id current_time coordinates channel).
Proof.
  unfold process_detection, active.
  destruct (falsy (global_id det)); [by left|].
  destruct (global_id det) as [gid|]; [|by left].
  destruct (alist_get (active_events st) gid) as [d|] eqn:Hd.
  - right. right. by exists gid, d.
  - right. left. by exists gid.
Qed.

(** *** Completion *)

Lemma _complete_event_Ok st gid t d :
  active st gid = Some d →
  _complete_event st gid t =
    Ok {| active_events := alist_del (active_events st) gid;
          last_track_time := delete gid (last_track_time st);
          tracking_interval := tracking_interval st;
          vessel_table := vessel_table st;
          event_table :=
            <[event_pk (ed_event d) := ended (ed_event d) t]> (event_table st) |}.
Proof. unfold active, _complete_event. by intros ->. Qed.

Lemma active_complete st gid t d st' :
  synced st → active st gid = Some d → _complete_event st gid t = Ok st' →
  ∀ g, active st' g = if decide (g = gid) then None else active st g.
Proof.
  intros Hs Hd H g. rewrite (_complete_event_Ok _ _ _ _ Hd) in H.
  injection H as <-. unfold active. simpl.
  destruct (decide (g = gid)) as [->|Hne].
  - apply alist_get_del_eq, Hs.
  - by apply alist_get_del_ne.
Qed.

Lemma synced_complete st gid t d st' :
  synced st → active st gid = Some d → _complete_event st gid t = Ok st' →
  synced st'.
Proof.
  intros Hs Hd H. pose proof (active_complete _ _ _ _ _ Hs Hd H) as Hact.
  rewrite (_complete_event_Ok _ _ _ _ Hd) in H. injection H as <-.
  assert (Hget : ∀ g d', active
            {| active_events := alist_del (active_events st) gid;
               last_track_time := delete gid (last_track_time st);
               tracking_interval := tracking_interval st;
               vessel_table := vessel_table st;
               event_table :=
                 <[event_pk (ed_event d) := ended (ed_event d) t]> (event_table st) |}
            g = Some d' → g ≠ gid ∧ active st g = Some d').
  { intros g d'. rewrite Hact. by destruct (decide (g = gid)). }
  split.
  - simpl. apply NoDup_alist_del, Hs.
  - intros g d' Hd'. apply Hget in Hd' as [Hne Hd'].
    destruct (synced_rows _ Hs _ _ Hd') as (Hr & Hv & ? & ?). simpl.
    rewrite list_lookup_insert_ne; [done|].
    intros Heq. apply Hne. symmetry.
    apply (synced_pks _ Hs _ _ _ _ Hd Hd'). by left.
  - intros g1 g2 d1 d2 H1 H2. apply Hget in H1 as [_ H1]. apply Hget in H2 as [_ H2].
    by apply (synced_pks _ Hs).
  - intros g. rewrite Hact. simpl. destruct (decide (g = gid)) as [->|Hne].
    + intros _. apply lookup_delete_eq.
    + intros Hn. rewrite lookup_delete_ne by done. by apply (synced_times _ Hs).
Qed.

(** The loop of [check_event_completion] over keys that are active and
    distinct: it does not raise, and ends exactly the events that hold a
    position of camera 4. *)
Lemma complete_each_Ok t ks : ∀ st,
  synced st → NoDup ks → (∀ k, k ∈ ks → is_Some (active st k)) →
  ∃ st', complete_each st ks t = Ok st' ∧ synced st' ∧
    tracking_interval st' = tracking_interval st ∧
    vessel_table st' = vessel_table st ∧
    length (event_table st') = length (event_table st) ∧
    (∀ g, active st' g =
          match active st g with
          | Some d => if decide (g ∈ ks ∧ seen_by_camera4 d = true) then None
                      else Some d
          | None => None
          end) ∧
    (∀ g d, active st g = Some d → g ∈ ks → seen_by_camera4 d = true →
       event_table st' !! event_pk (ed_event d) = Some (ended (ed_event d) t) ∧
       last_track_time st' !! g = None) ∧
    (∀ pk, (∀ g d, active st g = Some d → g ∈ ks → seen_by_camera4 d = true →
                   event_pk (ed_event d) ≠ pk) →
       event_table st' !! pk = event_table st !! pk) ∧
    (∀ g, (∀ d, active st g = Some d → g ∈ ks → seen_by_camera4 d = false) →
       last_track_time st' !! g = last_track_time st !! g).
Proof.
  induction ks as [|k ks IH]; intros st Hs Hnd Hact; cbn [complete_each].
  - exists st. do 5 (split; [done|]). split; [|split; [|done]].
    + intros g. destruct (active st g); [|done].
      destruct (decide _) as [[Hin _]|]; [by apply not_elem_of_nil in Hin | done].
    + intros g d _ Hin. by apply not_elem_of_nil in Hin.
  - apply NoDup_cons in Hnd as [Hk Hnd].
    destruct (Hact k (list_elem_of_here _ _)) as [d Hd].
    change (alist_get (active_events st) k) with (active st k). rewrite Hd.
    cbn [rbind]. change (bool_decide _) with (seen_by_camera4 d).
    destruct (seen_by_camera4 d) eqn:Hseen.
    + pose proof (_complete_event_Ok st k t d Hd) as Hc. rewrite Hc. cbn [rbind].
      set (st1 := {| active_events := alist_del (active_events st) k;
                     last_track_time := delete k (last_track_time st);
                     tracking_interval := tracking_interval st;
                     vessel_table := vessel_table st;
                     event_table :=
                       <[event_pk (ed_event d) := ended (ed_event d) t]>
                         (event_table st) |}) in *.
      pose proof (synced_complete _ _ _ _ _ Hs Hd Hc) as Hs1.
      pose proof (active_complete _ _ _ _ _ Hs Hd Hc) as Ha1.
      destruct (synced_lt _ _ _ Hs Hd) as [Hlt _].
      destruct (IH st1 Hs1 Hnd) as (st' & Hrun & Hs' & Hti & Hvt & Hlen & Ha' & Hend & Hrows & Htimes).
      { intros k' Hin. rewrite Ha1. rewrite decide_False by (by intros ->).
        apply Hact. by apply list_elem_of_further. }
      exists st'. split; [exact Hrun|]. split; [exact Hs'|].
      split; [by rewrite Hti|]. split; [by rewrite Hvt|].
      split; [rewrite Hlen; apply length_insert|].
      split; [|split; [|split]].
      * intros g. rewrite Ha', Ha1. destruct (decide (g = k)) as [->|Hne].
        -- rewrite Hd. rewrite decide_True; [done|].
           split; [apply list_elem_of_here | done].
        -- destruct (active st g) as [dg|]; [|done].
           destruct (decide (g ∈ ks ∧ seen_by_camera4 dg = true)) as [[Hin Hsg]|Hn].
           ++ rewrite decide_True; [done|]. split; [by apply list_elem_of_further | done].
           ++ rewrite decide_False; [done|]. intros [Hin Hsg]. apply Hn.
              apply elem_of_cons in Hin as [->|Hin]; done.
      * intros g dg Hdg Hin Hsg. apply elem_of_cons in Hin as [->|Hin].
        -- assert (dg = d) as -> by congruence. split.
           ++ rewrite Hrows.
              ** simpl. by rewrite list_lookup_insert_eq.
              ** intros g' d' Hd' Hin' _ Heq. rewrite Ha1 in Hd'.
                 destruct (decide (g' = k)) as [->|Hne]; [done|].
                 apply Hne. apply (synced_pks _ Hs _ _ _ _ Hd' Hd). by left.
           ++ rewrite Htimes; [apply lookup_delete_eq|].
              intros d'. rewrite Ha1. by rewrite decide_True.
        -- apply Hend; [|done..]. rewrite Ha1.
           rewrite decide_False; [done|]. by intros ->.
      * intros pk Hpk. rewrite Hrows.
        -- simpl. rewrite list_lookup_insert_ne; [done|].
           apply (Hpk k d); [done | apply list_elem_of_here | done].
        -- intros g' d' Hd' Hin'. rewrite Ha1 in Hd'.
           destruct (decide (g' = k)); [done|].
           apply (Hpk g' d'); [done | by apply list_elem_of_further].
      * intros g Hg. destruct (decide (g = k)) as [->|Hne].
        -- specialize (Hg d Hd (list_elem_of_here _ _)). congruence.
        -- rewrite Htimes.
           ++ simpl. by rewrite lookup_delete_ne.
           ++ intros d'. rewrite Ha1, decide_False by done. intros Hd' Hin.
              apply (Hg d'); [done | by apply list_elem_of_further].
    + cbn [rbind].
      destruct (IH st Hs Hnd) as (st' & Hrun & Hs' & Hti & Hvt & Hlen & Ha' & Hend & Hrows & Htimes).
      { intros k' Hin. apply Hact. by apply list_elem_of_further. }
      exists st'. do 5 (split; [done|]).
      split; [|split; [|split]].
      * intros g. rewrite Ha'. destruct (active st g) as [dg|] eqn:Hdg; [|done].
        destruct (decide (g ∈ ks ∧ seen_by_camera4 dg = true)) as [[Hin Hsg]|Hn].
        -- rewrite decide_True; [done|]. split; [by apply list_elem_of_further | done].
        -- rewrite decide_False; [done|]. intros [Hin Hsg]. apply Hn.
           apply elem_of_cons in Hin as [->|Hin]; [|done]. congruence.
      * intros g dg Hdg Hin Hsg. apply elem_of_cons in Hin as [->|Hin]; [congruence|].
        by apply Hend.
      * intros pk Hpk. apply Hrows. intros g' d' Hd' Hin'.
        apply (Hpk g' d'); [done | by apply list_elem_of_further].
      * intros g Hg. apply Htimes. intros d' Hd' Hin.
        apply (Hg d'); [done | by apply list_elem_of_further].
Qed.

Lemma check_event_completion_Ok st camera_id t :
  synced st → ∃ st', check_event_completion st camera_id t = Ok st' ∧ synced st'.
Proof.
  intros Hs. unfold check_event_completion.
  destruct (decide (camera_id = "camera4")); [|by exists st].
  destruct (complete_each_Ok t (alist_keys (active_events st)) st Hs)
    as (st' & H & Hs' & _).
  - apply Hs.
  - intros k. apply active_keys.
  - by exists st'.
Qed.

Lemma synced_step st c : synced st → ∃ st', step st c = Ok st' ∧ synced st'.
Proof.
  intros Hs. destruct c as [now det camera_id current_time coordinates channel
                           | camera_id current_time]; cbn [step].
  - destruct (process_detection_cases st now det camera_id current_time coordinates
                channel) as [->|[(gid & _ & Hn & ->)|(gid & d & _ & Hd & ->)]].
    + by exists st.
    + eexists. split; [reflexivity|]. by apply synced_create.
    + destruct (_update_event_Ok st now gid camera_id current_time coordinates
                  channel d Hd) as (st' & e' & H & _).
      exists st'. split; [done|]. by eapply synced_update.
  - by apply check_event_completion_Ok.
Qed.

Lemma synced_run cs : ∀ st, synced st → ∃ st', run_calls st cs = Ok st' ∧ synced st'.
Proof.
  induction cs as [|c cs IH]; intros st Hs; cbn [run_calls].
  - by exists st.
  - destruct (synced_step st c Hs) as (st1 & -> & Hs1). cbn [rbind]. by apply IH.
Qed.

Lemma synced_reached cs st : run_calls init cs = Ok st → synced st.
Proof.
  intros H. destruct (synced_run cs init synced_init) as (st' & H' & Hs).
  congruence.
Qed.

(** X13.  From a fresh service no sequence of calls of [process_detection]
    and [check_event_completion] raises: the dictionary lookups find their
    keys and the average position is never [None] where it is read. In the
    state reached, the row of every active event is the event held in memory
    and has no end time. *)
Theorem calls_never_raise cs :
  ∃ st, run_calls init cs = Ok st ∧
        ∀ gid d, active st gid = Some d →
          event_table st !! event_pk (ed_event d) = Some (ed_event d) ∧
          vessel_table st !! vessel_pk (ed_vessel d) = Some (ed_vessel d) ∧
          end_time (ed_event d) = None.
Proof.
  destruct (synced_run cs init synced_init) as (st & H & Hs).
  exists st. split; [exact H|]. intros gid d Hd.
  destruct (synced_rows _ Hs _ _ Hd) as (? & ? & ? & _). done.
Qed.

(** X14.  In a service reached from [__init__], the completion check for
    ['camera4'] does not raise and ends exactly the active events that hold
    a position of camera 4: they leave the active set, their rows get the
    end time and their sampling times are dropped; every other active event,
    its row and its sampling time stay, and no row is added. *)
Theorem completion_ends_the_camera4_events cs st t :
  run_calls init cs = Ok st →
  ∃ st', check_event_completion st "camera4" t = Ok st' ∧
    (∀ g, active st' g =
          match active st g with
          | Some d => if seen_by_camera4 d then None else Some d
          | None => None
          end) ∧
    (∀ g d, active st g = Some d → seen_by_camera4 d = true →
       event_table st' !! event_pk (ed_event d) = Some (ended (ed_event d) t) ∧
       last_track_time st' !! g = None) ∧
    (∀ g d, active st g = Some d → seen_by_camera4 d = false →
       event_table st' !! event_pk (ed_event d) = Some (ed_event d) ∧
       last_track_time st' !! g = last_track_time st !! g) ∧
    vessel_table st' = vessel_table st ∧
    length (event_table st') = length (event_table st).
Proof.
  intros Hrun. pose proof (synced_reached _ _ Hrun) as Hs.
  destruct (complete_each_Ok t (alist_keys (active_events st)) st Hs)
    as (st' & H & Hs' & _ & Hvt & Hlen & Ha & Hend & Hrows & Htimes).
  { apply Hs. }
  { intros k. apply active_keys. }
  assert (Hkeys : ∀ g d, active st g = Some d → g ∈ alist_keys (active_events st)).
  { intros g d Hd. destruct (decide (g ∈ alist_keys (active_events st))); [done|].
    apply alist_get_None in n. unfold active in Hd. congruence. }
  exists st'. unfold check_event_completion. rewrite decide_True by done.
  split; [exact H|]. split; [|split; [|split; [|done]]].
  - intros g. rewrite Ha. destruct (active st g) as [d|] eqn:Hd; [|done].
    destruct (seen_by_camera4 d) eqn:Hseen.
    + rewrite decide_True; [done|]. split; [by eapply Hkeys | done].
    + rewrite decide_False; [done|]. by intros [_ ?].
  - intros g d Hd Hseen. apply Hend; [done | by eapply Hkeys | done].
  - intros g d Hd Hseen. split.
    + rewrite Hrows; [by apply (synced_rows _ Hs _ _ Hd)|].
      intros g' d' Hd' _ Hseen' Heq.
      assert (g' = g) as -> by (apply (synced_pks _ Hs _ _ _ _ Hd' Hd); by left).
      congruence.
    + apply Htimes. intros d' Hd' _. congruence.
Qed.

Lemma completion_ends_the_camera4_events_witness :
  let cs := [ProcessDetection 1000 (Detection (Some 5) None) "camera1" 1000
               (Coords 22 120) None;
             ProcessDetection 1001 (Detection (Some 6) None) "camera4" 1001
               (Coords 22 120) None] in
  let st := after (run_calls init cs) in
  ∃ st', check_event_completion st "camera4" 1002 = Ok st' ∧
         is_Some (active st' 5) ∧ active st' 6 = None.
Proof.
  intros cs st.
  destruct (completion_ends_the_camera4_events cs st 1002%Q)
    as (st' & H & Ha & _).
  { apply result_unwrap. vm_compute; reflexivity. }
  exists st'. split; [exact H|]. rewrite !Ha. split.
  - apply is_Some_computed. vm_compute; reflexivity.
  - vm_compute; reflexivity.
Defined.

(** *** The rows over time *)

Lemma extends_refl e : extends e e.
Proof. by repeat split. Qed.

Lemma extends_trans e1 e2 e3 : extends e1 e2 → extends e2 e3 → extends e1 e3.
Proof.
  intros (Hp & Hv & Hs & Hpre & Hfin) (Hp' & Hv' & Hs' & Hpre' & Hfin').
  split; [congruence|]. split; [congruence|]. split; [congruence|].
  split; [by etransitivity|].
  intros Hend. specialize (Hfin Hend). subst e2. by apply Hfin'.
Qed.

Lemma rows_update st now gid camera_id current_time coordinates channel d st' pk e :
  synced st → active st gid = Some d →
  _update_event st now gid camera_id current_time coordinates channel = Ok st' →
  event_table st !! pk = Some e →
  ∃ e', event_table st' !! pk = Some e' ∧ extends e e'.
Proof.
  intros Hs Hd H He.
  destruct (_update_event_Ok st now gid camera_id current_time coordinates channel
              d Hd) as (st1 & e' & H1 & _ & _ & _ & Hcase).
  rewrite H1 in H. injection H as <-.
  destruct (synced_rows _ Hs _ _ Hd) as (Hrow & _ & Hend & _).
  destruct Hcase as [(_ & (p & _ & ->) & -> & _)|(_ & _ & -> & _)].
  - destruct (decide (pk = event_pk (ed_event d))) as [->|Hne].
    + eexists. split; [apply list_lookup_insert_eq; by eapply lookup_lt_Some|].
      assert (e = ed_event d) as -> by congruence.
      split; [done|]. split; [done|]. split; [done|]. split.
      * simpl. by apply prefix_app_r.
      * rewrite Hend. by intros [? ?].
    + exists e. split; [by rewrite list_lookup_insert_ne | apply extends_refl].
  - exists e. split; [done | apply extends_refl].
Qed.

(** A completion loop leaves a row as it is or sets its end time. *)
Lemma rows_complete_each t ks : ∀ st st' pk e,
  synced st → NoDup ks → (∀ k, k ∈ ks → is_Some (active st k)) →
  complete_each st ks t = Ok st' →
  event_table st !! pk = Some e →
  event_table st' !! pk = Some e ∨
  (end_time e = None ∧ event_table st' !! pk = Some (ended e t)).
Proof.
  induction ks as [|k ks IH]; intros st st' pk e Hs Hnd Hact H He;
    cbn [complete_each] in H.
  - injection H as <-. by left.
  - apply NoDup_cons in Hnd as [Hk Hnd].
    destruct (Hact k (list_elem_of_here _ _)) as [d Hd].
    change (alist_get (active_events st) k) with (active st k) in H.
    rewrite Hd in H. cbn [rbind] in H.
    change (bool_decide _) with (seen_by_camera4 d) in H.
    destruct (seen_by_camera4 d).
    + pose proof (_complete_event_Ok st k t d Hd) as Hc.
      rewrite Hc in H. cbn [rbind] in H.
      pose proof (synced_complete _ _ _ _ _ Hs Hd Hc) as Hs1.
      pose proof (active_complete _ _ _ _ _ Hs Hd Hc) as Ha1.
      destruct (synced_rows _ Hs _ _ Hd) as (Hrow & _ & Hend & _).
      assert (Hact1 : ∀ k', k' ∈ ks → is_Some (active
                {| active_events := alist_del (active_events st) k;
                   last_track_time := delete k (last_track_time st);
                   tracking_interval := tracking_interval st;
                   vessel_table := vessel_table st;
                   event_table :=
                     <[event_pk (ed_event d) := ended (ed_event d) t]>
                       (event_table st) |} k')).
      { intros k' Hin. rewrite Ha1. rewrite decide_False by (by intros ->).
        apply Hact. by apply list_elem_of_further. }
      destruct (decide (pk = event_pk (ed_event d))) as [->|Hne].
      * assert (e = ed_event d) as -> by congruence.
        right. split; [done|].
        destruct (IH _ _ (event_pk (ed_event d)) (ended (ed_event d) t)
                    Hs1 Hnd Hact1 H) as [Hl|[Hcontra _]]; [|done|done].
        simpl. apply list_lookup_insert_eq. by eapply lookup_lt_Some.
      * apply (IH _ _ pk e Hs1 Hnd Hact1 H).
        simpl. by rewrite list_lookup_insert_ne.
    + cbn [rbind] in H. apply (IH _ _ pk e Hs Hnd); [|done..].
      intros k' Hin. apply Hact. by apply list_elem_of_further.
Qed.

Lemma rows_check st camera_id t st' pk e :
  synced st → check_event_completion st camera_id t = Ok st' →
  event_table st !! pk = Some e →
  event_table st' !! pk = Some e ∨
  (end_time e = None ∧ event_table st' !! pk = Some (ended e t)).
Proof.
  intros Hs H He. unfold check_event_completion in H.
  destruct (decide (camera_id = "camera4")); [|injection H as <-; by left].
  eapply rows_complete_each; [exact Hs | apply Hs | | exact H | exact He].
  intros k. apply active_keys.
Qed.

Lemma rows_step st c st' pk e :
  synced st → step st c = Ok st' → event_table st !! pk = Some e →
  ∃ e', event_table st' !! pk = Some e' ∧ extends e e'.
Proof.
  intros Hs H He.
  destruct c as [now det camera_id current_time coordinates channel
                | camera_id current_time]; cbn [step] in H.
  - destruct (process_detection_cases st now det camera_id current_time coordinates
                channel) as [Hp|[(gid & _ & Hn & Hp)|(gid & d & _ & Hd & Hp)]];
      rewrite Hp in H.
    + injection H as <-. exists e. split; [done | apply extends_refl].
    + injection H as <-. exists e. split; [|apply extends_refl].
      simpl. rewrite lookup_app_l; [done | by eapply lookup_lt_Some].
    + by eapply rows_update.
  - destruct (rows_check _ _ _ _ _ _ Hs H He) as [Hl|[Hend Hl]].
    + exists e. split; [done | apply extends_refl].
    + eexists. split; [exact Hl|]. split; [done|]. split; [done|].
      split; [done|]. split; [done|]. rewrite Hend. by intros [? ?].
Qed.

Lemma rows_run cs : ∀ st st' pk e,
  synced st → run_calls st cs = Ok st' → event_table st !! pk = Some e →
  ∃ e', event_table st' !! pk = Some e' ∧ extends e e'.
Proof.
  induction cs as [|c cs IH]; intros st st' pk e Hs H He; cbn [run_calls] in H.
  - injection H as <-. exists e. split; [done | apply extends_refl].
  - destruct (synced_step st c Hs) as (st1 & H1 & Hs1).
    rewrite H1 in H. cbn [rbind] in H.
    destruct (rows_step _ _ _ _ _ Hs H1 He) as (e1 & He1 & Hx1).
    destruct (IH _ _ _ _ Hs1 H He1) as (e' & He' & Hx').
    exists e'. split; [done | by eapply extends_trans].
Qed.

(** X15.  Once an event row has an end time, no later call changes it: the
    same identity seen again gets a new row. *)
Theorem completed_events_are_final cs cs' st st' pk e :
  run_calls init cs = Ok st → run_calls st cs' = Ok st' →
  event_table st !! pk = Some e → is_Some (end_time e) →
  event_table st' !! pk = Some e.
Proof.
  intros Hrun Hrun' He Hend.
  destruct (rows_run cs' st st' pk e (synced_reached _ _ Hrun) Hrun' He)
    as (e' & He' & Hx).
  destruct Hx as (_ & _ & _ & _ & Hfin). by rewrite <- (Hfin Hend).
Qed.

Lemma completed_events_are_final_witness :
  let cs := [ProcessDetection 1000 (Detection (Some 5) None) "camera4" 1000
               (Coords 22 120) None;
             CheckEventCompletion "camera4" 1010] in
  let cs' := [ProcessDetection 1020 (Detection (Some 5) None) "camera4" 1020
                (Coords 23 121) None;
              ProcessDetection 1040 (Detection (Some 5) None) "camera3" 1040
                (Coords 23 121) None;
              CheckEventCompletion "camera4" 1050] in
  let st := after (run_calls init cs) in
  let st' := after (run_calls st cs') in
  (end_time <$> event_table st) = [Some 1010%Q] ∧
  (end_time <$> event_table st') = [Some 1010%Q; Some 1050%Q] ∧
  event_table st' !! 0%nat = event_table st !! 0%nat.
Proof.
  intros cs cs' st st'.
  split; [vm_compute; reflexivity|]. split; [vm_compute; reflexivity|].
  assert (He : event_table st !! 0%nat
               = Some (default (VesselEvent 0 0 0 None [])
                               (event_table st !! 0%nat)))
    by (vm_compute; reflexivity).
  etransitivity; [|symmetry; exact He].
  apply (completed_events_are_final cs cs' st st').
  - apply result_unwrap. vm_compute; reflexivity.
  - apply result_unwrap. vm_compute; reflexivity.
  - exact He.
  - apply is_Some_computed. vm_compute; reflexivity.
Defined.

(** X16.  The event table is an append-only history: a row keeps its
    position, key, vessel and start time for ever, and its tracking points
    are only ever extended at the end. *)
Theorem event_history_is_append_only cs cs' st st' pk e :
  run_calls init cs = Ok st → run_calls st cs' = Ok st' →
  event_table st !! pk = Some e →
  ∃ e', event_table st' !! pk = Some e' ∧
        event_pk e' = event_pk e ∧ event_vessel e' = event_vessel e ∧
        start_time e' = start_time e ∧
        tracking_points e `prefix_of` tracking_points e'.
Proof.
  intros Hrun Hrun' He.
  destruct (rows_run cs' st st' pk e (synced_reached _ _ Hrun) Hrun' He)
    as (e' & He' & Hp & Hv & Hs & Hpre & _).
  by exists e'.
Qed.

Lemma event_history_is_append_only_witness :
  let cs := [ProcessDetection 1000 (Detection (Some 5) None) "camera1" 1000
               (Coords 22 120) None] in
  let cs' := [ProcessDetection 1020 (Detection (Some 5) None) "camera2" 1020
                (Coords 24 122) None] in
  let st := after (run_calls init cs) in
  let st' := after (run_calls st cs') in
  persisted_timestamps st = [[1000%Q]] ∧
  persisted_timestamps st' = [[1000%Q; 1020%Q]] ∧
  ∃ e', event_table st' !! 0%nat = Some e' ∧ start_time e' = 1000%Q.
Proof.
  intros cs cs' st st'.
  split; [vm_compute; reflexivity|]. split; [vm_compute; reflexivity|].
  destruct (event_history_is_append_only cs cs' st st' 0%nat
              (default (VesselEvent 0 0 0 None []) (event_table st !! 0%nat)))
    as (e' & He' & _ & _ & Hs & _).
  - apply result_unwrap. vm_compute; reflexivity.
  - apply result_unwrap. vm_compute; reflexivity.
  - vm_compute; reflexivity.
  - exists e'. split; [exact He'|]. rewrite Hs. vm_compute; reflexivity.
Defined.

(** *** Sampling *)

Lemma spaced_snoc d ts t' :
  spaced d ts → (∀ t, last ts = Some t → (d <= t' - t)%Q) → spaced d (ts ++ [t']).
Proof.
  induction ts as [|t1 ts IH]; intros Hsp Hlast; [done|].
  destruct Hsp as [H1 Hsp]. destruct ts as [|t2 ts].
  - simpl. split; [|done]. by apply Hlast.
  - split; [exact H1|]. apply IH; [exact Hsp|]. intros t Ht. by apply Hlast.
Qed.

Lemma sampled_timestamps_snoc e p :
  tracking_points e ≠ [] →
  sampled_timestamps (VesselEvent (event_pk e) (event_vessel e) (start_time e)
                        (end_time e) (tracking_points e ++ [p]))
  = sampled_timestamps e ++ [timestamp p].
Proof.
  unfold sampled_timestamps. simpl. intros Hne.
  destruct (tracking_points e) as [|p0 ps]; [done|].
  simpl. by rewrite fmap_app.
Qed.

Lemma active_create st gid det camera_id current_time coordinates g :
  active (_create_new_event st gid det camera_id current_time coordinates) g =
  if decide (gid = g)
  then Some (EventData
               (Vessel (length (vessel_table st)) current_time current_time
                       (det_feature det))
               (VesselEvent (length (event_table st)) (length (vessel_table st))
                  current_time None
                  [TrackingPoint current_time (longitude coordinates)
                                 (latitude coordinates) None])
               [(camera_id, coordinates)])
  else active st g.
Proof. unfold active, _create_new_event. simpl. apply alist_get_set. Qed.

Lemma sampling_init : sampling init.
Proof. split; [intros pk e | intros gid d]; done. Qed.

Lemma sampling_create st gid det camera_id current_time coordinates :
  synced st → sampling st → active st gid = None →
  sampling (_create_new_event st gid det camera_id current_time coordinates).
Proof.
  intros Hs Hsa Hn. split.
  - intros pk e. simpl. rewrite lookup_app_Some. intros [He|[_ He]].
    + by apply (sampling_rows _ Hsa pk).
    + destruct (pk - length (event_table st))%nat; [|done].
      injection He as <-. done.
  - intros g d. rewrite active_create. destruct (decide (gid = g)) as [<-|Hne].
    + intros [= <-]. split; [done|]. simpl.
      by rewrite (synced_times _ Hs _ Hn).
    + apply (sampling_last _ Hsa).
Qed.

Lemma sampling_update st gid camera_id current_time coordinates channel d st' :
  synced st → sampling st → active st gid = Some d →
  _update_event st current_time gid camera_id current_time coordinates channel
    = Ok st' →
  sampling st'.
Proof.
  intros Hs Hsa Hd H.
  destruct (_update_event_Ok st current_time gid camera_id current_time coordinates
              channel d Hd) as (st1 & e' & H1 & Hti & Ha & _ & Hcase).
  rewrite H1 in H. injection H as <-.
  destruct (synced_rows _ Hs _ _ Hd) as (Hrow & _ & _ & _).
  destruct (sampling_last _ Hsa _ _ Hd) as [Hne Hlast].
  assert (Hact : ∀ g dg, active st1 g = Some dg →
            (g = gid ∧ ed_event dg = e') ∨ (g ≠ gid ∧ active st g = Some dg)).
  { intros g dg. unfold active. rewrite Ha, alist_get_set.
    destruct (decide (gid = g)) as [->|Hneq].
    - intros [= <-]. by left.
    - intros Hdg. right. by split. }
  destruct Hcase as [(Hle & (p & Hp & ->) & Het & Hlt)|(_ & -> & Het & Hlt)].
  - assert (Hsp : spaced (tracking_interval st)
                    (sampled_timestamps (ed_event d) ++ [current_time])).
    { apply spaced_snoc; [by apply (sampling_rows _ Hsa _ _ Hrow)|].
      intros t Ht. destruct (last_track_time st !! gid) as [t0|] eqn:Ht0.
      - simpl in Hle. apply Qle_bool_iff in Hle. congruence.
      - by rewrite Hlast in Ht. }
    split.
    + intros pk e. rewrite Het, Hti. rewrite list_lookup_insert_Some.
      intros [(_ & <- & _)|[_ He]].
      * rewrite sampled_timestamps_snoc by done. by rewrite Hp.
      * by apply (sampling_rows _ Hsa pk).
    + intros g dg Hdg. destruct (Hact _ _ Hdg) as [[-> ->]|[Hneq Hdg']].
      * split; [simpl; by destruct (tracking_points (ed_event d))|].
        rewrite Hlt, lookup_insert_eq.
        rewrite sampled_timestamps_snoc by done. rewrite Hp. apply last_snoc.
      * rewrite Hlt, lookup_insert_ne by done. by apply (sampling_last _ Hsa).
  - split.
    + intros pk e. rewrite Het, Hti. apply (sampling_rows _ Hsa).
    + intros g dg Hdg. rewrite Hlt. destruct (Hact _ _ Hdg) as [[-> ->]|[Hneq Hdg']].
      * by split.
      * by apply (sampling_last _ Hsa).
Qed.

Lemma sampling_check st camera_id t st' :
  synced st → sampling st → check_event_completion st camera_id t = Ok st' →
  sampling st'.
Proof.
  intros Hs Hsa H. pose proof H as Hcheck. unfold check_event_completion in H.
  destruct (decide (camera_id = "camera4")) as [Hcam|]; [|by injection H as <-].
  destruct (complete_each_Ok t (alist_keys (active_events st)) st Hs)
    as (st1 & H1 & _ & Hti & _ & Hlen & Ha & _ & _ & Htimes).
  { apply Hs. }
  { intros k. apply active_keys. }
  rewrite H1 in H. injection H as <-. split.
  - intros pk e' He'. rewrite Hti.
    destruct (lookup_lt_is_Some_2 (event_table st) pk) as [e He].
    { rewrite <- Hlen. by eapply lookup_lt_Some. }
    pose proof (sampling_rows _ Hsa _ _ He) as Hsp.
    destruct (rows_check _ _ _ _ _ _ Hs Hcheck He) as [Hl|[_ Hl]];
      rewrite Hl in He'; injection He' as <-; exact Hsp.
  - intros g dg. rewrite Ha. destruct (active st g) as [d|] eqn:Hd; [|done].
    destruct (decide _) as [|Hn]; [done|]. intros [= <-].
    rewrite Htimes; [by apply (sampling_last _ Hsa)|].
    intros d' Hd' Hin. assert (d' = d) as -> by congruence.
    destruct (seen_by_camera4 d); [|done]. exfalso. by apply Hn.
Qed.

Lemma sampling_step st c st' :
  clocked c → synced st → sampling st → step st c = Ok st' → sampling st'.
Proof.
  intros Hc Hs Hsa H.
  destruct c as [now det camera_id current_time coordinates channel
                | camera_id current_time]; cbn [step] in H.
  - simpl in Hc. subst now.
    destruct (process_detection_cases st current_time det camera_id current_time
                coordinates channel)
      as [Hp|[(gid & _ & Hn & Hp)|(gid & d & _ & Hd & Hp)]]; rewrite Hp in H.
    + by injection H as <-.
    + injection H as <-. by apply sampling_create.
    + by eapply sampling_update.
  - by eapply sampling_check.
Qed.

Lemma interval_step st c st' :
  synced st → step st c = Ok st' → tracking_interval st' = tracking_interval st.
Proof.
  intros Hs H.
  destruct c as [now det camera_id current_time coordinates channel
                | camera_id current_time]; cbn [step] in H.
  - destruct (process_detection_cases st now det camera_id current_time coordinates
                channel) as [Hp|[(gid & _ & Hn & Hp)|(gid & d & _ & Hd & Hp)]];
      rewrite Hp in H.
    + by injection H as <-.
    + by injection H as <-.
    + destruct (_update_event_Ok st now gid camera_id current_time coordinates
                  channel d Hd) as (st1 & e' & H1 & Hti & _).
      congruence.
  - unfold check_event_completion in H.
    destruct (decide (camera_id = "camera4")); [|by injection H as <-].
    destruct (complete_each_Ok current_time (alist_keys (active_events st)) st Hs)
      as (st1 & H1 & _ & Hti & _).
    { apply Hs. }
    { intros k. apply active_keys. }
    congruence.
Qed.

Lemma sampling_run cs : ∀ st st',
  Forall clocked cs → synced st → sampling st → run_calls st cs = Ok st' →
  sampling st' ∧ tracking_interval st' = tracking_interval st.
Proof.
  induction cs as [|c cs IH]; intros st st' Hc Hs Hsa H; cbn [run_calls] in H.
  - by injection H as <-.
  - apply Forall_cons in Hc as [Hc Hcs].
    destruct (synced_step st c Hs) as (st1 & H1 & Hs1).
    rewrite H1 in H. cbn [rbind] in H.
    destruct (IH st1 st' Hcs Hs1 (sampling_step _ _ _ Hc Hs Hsa H1) H) as [? Hti].
    split; [done|]. rewrite Hti. by eapply interval_step.
Qed.

(** X17.  When the sampling test reads the clock the timestamps come from,
    the tracking points of every event, the one stored at creation apart,
    are at least the tracking interval of 10 s apart. *)
Theorem sampled_points_are_spaced cs st pk e :
  Forall clocked cs → run_calls init cs = Ok st →
  event_table st !! pk = Some e →
  spaced 10 (sampled_timestamps e).
Proof.
  intros Hc Hrun He.
  destruct (sampling_run cs init st Hc synced_init sampling_init Hrun) as [Hsa Hti].
  pose proof (sampling_rows _ Hsa _ _ He) as Hsp. by rewrite Hti in Hsp.
Qed.

Lemma sampled_points_are_spaced_witness :
  let det := Detection (Some 5) None in
  let cs := [ProcessDetection 1000 det "camera1" 1000 (Coords 22 120) None;
             ProcessDetection 1001 det "camera1" 1001 (Coords 22 120) None;
             ProcessDetection 1005 det "camera2" 1005 (Coords 22 120) None;
             ProcessDetection 1011 det "camera2" 1011 (Coords 22 120) None;
             ProcessDetection 1012 det "camera2" 1012 (Coords 22 120) None] in
  let st := after (run_calls init cs) in
  persisted_timestamps st = [[1000%Q; 1001%Q; 1011%Q]] ∧
  spaced 10 [1001%Q; 1011%Q].
Proof.
  intros det cs st. split; [vm_compute; reflexivity|].
  assert (Hts : sampled_timestamps
                  (default (VesselEvent 0 0 0 None []) (event_table st !! 0%nat))
                = [1001%Q; 1011%Q]) by (vm_compute; reflexivity).
  rewrite <- Hts.
  apply (sampled_points_are_spaced cs st 0%nat
           (default (VesselEvent 0 0 0 None []) (event_table st !! 0%nat))).
  - repeat constructor.
  - apply result_unwrap. vm_compute; reflexivity.
  - vm_compute; reflexivity.
Defined.

(** *** The average position *)

Lemma Qsum_bounds (lo hi : Q) l : ∀ a,
  Forall (fun x => (lo <= x)%Q ∧ (x <= hi)%Q) l →
  (a + inject_Z (Z.of_nat (length l)) * lo <= foldl Qplus a l)%Q ∧
  (foldl Qplus a l <= a + inject_Z (Z.of_nat (length l)) * hi)%Q.
Proof.
  induction l as [|x l IH]; intros a Hall.
  - cbn [foldl length]. change (inject_Z (Z.of_nat 0)) with 0%Q.
    rewrite !Qmult_0_l, Qplus_0_r. split; apply Qle_refl.
  - apply Forall_cons in Hall as [[Hlo Hhi] Hall].
    destruct (IH (a + x)%Q Hall) as [IHlo IHhi].
    cbn [foldl length]. rewrite Nat2Z.inj_succ, <- Z.add_1_r, inject_Z_plus.
    change (inject_Z 1) with 1%Q.
    set (n := inject_Z (Z.of_nat (length l))) in *.
    split.
    + eapply Qle_trans; [|exact IHlo].
      assert (Heq : (a + (n + 1) * lo == (a + lo) + n * lo)%Q) by ring. rewrite Heq.
      apply Qplus_le_compat; [|apply Qle_refl].
      apply Qplus_le_compat; [apply Qle_refl | exact Hlo].
    + eapply Qle_trans; [exact IHhi|].
      assert (Heq : (a + (n + 1) * hi == (a + hi) + n * hi)%Q) by ring. rewrite Heq.
      apply Qplus_le_compat; [|apply Qle_refl].
      apply Qplus_le_compat; [apply Qle_refl | exact Hhi].
Qed.

(** X18.  Over exact arithmetic, the average of a non-empty list of
    positions exists and lies within any bounds that hold of each position,
    latitude and longitude alike. *)
Theorem average_position_within_bounds positions lat_lo lat_hi lon_lo lon_hi :
  positions ≠ [] →
  Forall (fun p => (lat_lo <= latitude p)%Q ∧ (latitude p <= lat_hi)%Q) positions →
  Forall (fun p => (lon_lo <= longitude p)%Q ∧ (longitude p <= lon_hi)%Q) positions →
  ∃ avg, _calculate_average_position positions = Some avg ∧
         (lat_lo <= latitude avg)%Q ∧ (latitude avg <= lat_hi)%Q ∧
         (lon_lo <= longitude avg)%Q ∧ (longitude avg <= lon_hi)%Q.
Proof.
  intros Hne Hlat Hlon. unfold _calculate_average_position.
  destruct positions as [|p ps] eqn:Hps; [done|]. rewrite <- Hps in *.
  eexists. split; [reflexivity|]. simpl.
  assert (Hn : (0 < inject_Z (Z.of_nat (length positions)))%Q).
  { rewrite Hps. simpl length. rewrite Nat2Z.inj_succ.
    change 0%Q with (inject_Z 0). rewrite <- Zlt_Qlt. lia. }
  destruct (Qsum_bounds lat_lo lat_hi (latitude <$> positions) 0%Q) as [H1 H2].
  { apply Forall_fmap. exact Hlat. }
  destruct (Qsum_bounds lon_lo lon_hi (longitude <$> positions) 0%Q) as [H3 H4].
  { apply Forall_fmap. exact Hlon. }
  rewrite !length_fmap in *. unfold Qsum.
  rewrite Qplus_0_l in H1, H2, H3, H4.
  repeat split.
  - apply Qle_shift_div_l; [exact Hn | by rewrite Qmult_comm].
  - apply Qle_shift_div_r; [exact Hn | by rewrite Qmult_comm].
  - apply Qle_shift_div_l; [exact Hn | by rewrite Qmult_comm].
  - apply Qle_shift_div_r; [exact Hn | by rewrite Qmult_comm].
Qed.

Lemma average_position_within_bounds_witness :
  ∃ avg, _calculate_average_position [Coords 22 120; Coords 23 121] = Some avg ∧
         (22 <= latitude avg)%Q ∧ (latitude avg <= 23)%Q ∧
         (120 <= longitude avg)%Q ∧ (longitude avg <= 121)%Q.
Proof.
  apply (average_position_within_bounds [Coords 22 120; Coords 23 121]
           22%Q 23%Q 120%Q 121%Q).
  - discriminate.
  - repeat constructor; simpl; by apply Qle_bool_iff.
  - repeat constructor; simpl; by apply Qle_bool_iff.
Defined.

End EventFacts.

(** ** [GridLocationService]: the haversine distance and the reference line *)

Module GridFacts.
Import GridLocationService GridTheory.

Local Open Scope R_scope.

Lemma haversine_a_sym lat1 lon1 lat2 lon2 :
  haversine_a lat1 lon1 lat2 lon2 = haversine_a lat2 lon2 lat1 lon1.
Proof.
  unfold haversine_a. cbv zeta.
  replace ((radians lat1 - radians lat2) / 2)
    with (- ((radians lat2 - radians lat1) / 2)) by lra.
  replace ((radians lon1 - radians lon2) / 2)
    with (- ((radians lon2 - radians lon1) / 2)) by lra.
  rewrite !sin_neg. ring.
Qed.

Lemma haversine_distance_of_a lat1 lon1 lat2 lon2 :
  haversine_distance lat1 lon1 lat2 lon2 =
  let a := haversine_a lat1 lon1 lat2 lon2 in
  let* root_a := math_sqrt a in
  let* root_b := math_sqrt (1 - a) in
  Ok (earth_radius * (2 * atan2 root_a root_b)).
Proof. reflexivity. Qed.

Lemma atan2_first_quadrant y x : 0 <= y → 0 <= x → 0 <= atan2 y x <= PI / 2.
Proof.
  intros Hy Hx. pose proof PI_RGT_0 as HPI. unfold atan2.
  destruct (Rlt_dec 0 x) as [Hpos|Hnpos].
  - pose proof (atan_bound (y / x)) as [_ Hub]. split; [|lra].
    destruct (Req_dec y 0) as [->|Hne].
    + unfold Rdiv. rewrite Rmult_0_l, atan_0. lra.
    + rewrite <- atan_0. left. apply atan_increasing.
      apply Rdiv_lt_0_compat; lra.
  - destruct (Rlt_dec x 0); [lra|].
    destruct (Rlt_dec 0 y); [lra|].
    destruct (Rlt_dec y 0); lra.
Qed.

(** X20.  Whenever [haversine_distance] returns, that is whenever neither
    square root raises, the distance lies between 0 and half the
    circumference [pi * 6371000] of the sphere. *)
Theorem haversine_within_half_circumference lat1 lon1 lat2 lon2 d :
  haversine_distance lat1 lon1 lat2 lon2 = Ok d →
  0 <= d <= PI * 6371000.
Proof.
  intros H. apply haversine_distance_inv in H as [_ ->].
  destruct (atan2_first_quadrant
              (sqrt (haversine_a lat1 lon1 lat2 lon2))
              (sqrt (1 - haversine_a lat1 lon1 lat2 lon2)))
    as [Hlo Hhi]; [apply sqrt_pos..|].
  unfold earth_radius. split; nra.
Qed.

Lemma haversine_within_half_circumference_witness :
  0 <= earth_radius * (PI / 180) <= PI * 6371000.
Proof.
  apply (haversine_within_half_circumference 0 0 1 0).
  exact haversine_one_degree.
Defined.

(** X21.  Along a meridian, from a latitude to one that is not smaller and
    at most 180 degrees away, [haversine_distance] returns the arc: the
    radius times the difference of latitude in radians. *)
Theorem haversine_along_meridian lat1 lat2 lon :
  0 <= lat2 - lat1 <= 180 →
  haversine_distance lat1 lon lat2 lon = Ok (earth_radius * radians (lat2 - lat1)).
Proof.
  intros [Hlo Hhi]. pose proof PI_RGT_0 as HPI.
  rewrite (haversine_of_sine lat1 lon lat2 lon
             ((radians lat2 - radians lat1) / 2)).
  - f_equal. unfold radians. lra.
  - unfold radians. split; nra.
  - apply meridian_a.
Qed.

Lemma haversine_along_meridian_witness :
  haversine_distance 22 120 23 120 = Ok (earth_radius * radians (23 - 22)).
Proof. apply haversine_along_meridian. lra. Defined.

(** X19.  The result of [haversine_distance] does not depend on the order
    of the two points, and the distance of a point to itself is 0. *)
Theorem haversine_symmetric lat1 lon1 lat2 lon2 :
  haversine_distance lat1 lon1 lat2 lon2 = haversine_distance lat2 lon2 lat1 lon1 ∧
  haversine_distance lat1 lon1 lat1 lon1 = Ok 0.
Proof.
  split.
  - by rewrite !haversine_distance_of_a, haversine_a_sym.
  - pose proof PI_RGT_0 as HPI.
    rewrite (haversine_of_sine lat1 lon1 lat1 lon1 0).
    + f_equal. unfold earth_radius. lra.
    + lra.
    + rewrite meridian_a.
      replace ((radians lat1 - radians lat1) / 2) with 0 by lra. reflexivity.
Qed.

(** X22.  Two reference points with distinct ids and distinct pixels,
    between the poles and at most a quarter of a great circle apart, give
    a direction vector of length 1 and a finite scale that is not
    negative. *)
Theorem reference_direction_is_a_unit_vector id1 id2 px1 geo1 px2 geo2 :
  id1 ≠ id2 → px1 ≠ px2 →
  within_quarter_circle (fst geo1) (snd geo1) (fst geo2) (snd geo2) →
  ∃ st1 st2 ux uy s,
    add_reference_point init id1 px1 geo1 = Ok st1 ∧
    add_reference_point st1 id2 px2 geo2 = Ok st2 ∧
    direction_vector st2 = Some (Finite ux, Finite uy) ∧
    ux * ux + uy * uy = 1 ∧
    scale_factor st2 = Some (Finite s) ∧ 0 <= s.
Proof.
  intros Hid Hpx Hq.
  pose proof (within_quarter_circle_a _ _ _ _ Hq) as Ha.
  assert (Ha1 : 0 <= haversine_a (fst geo1) (snd geo1) (fst geo2) (snd geo2) <= 1)
    by lra.
  pose proof (haversine_distance_spec _ _ _ _ Ha1) as Hd.
  pose proof (pixel_distance_pos _ _ Hpx) as Hp.
  exists (State [(id1, ReferencePoint px1 geo1)] None None).
  eexists. eexists. eexists. eexists.
  split; [reflexivity|].
  split; [exact (second_reference_point _ _ _ _ _ _ _ Hid Hd)|].
  cbn [direction_vector scale_factor]. rewrite !(np_div_pos _ _ Hp).
  split; [reflexivity|]. split; [|split; [reflexivity|]].
  - set (dx := (fst px2 - fst px1)%Z) in *. set (dy := (snd px2 - snd px1)%Z) in *.
    assert (Hpp : pixel_distance px1 px2 * pixel_distance px1 px2
                  = IZR dx * IZR dx + IZR dy * IZR dy).
    { unfold pixel_distance. fold dx dy.
      rewrite sqrt_sqrt by (apply IZR_le; nia).
      rewrite plus_IZR, !Z.pow_2_r, !mult_IZR. reflexivity. }
    transitivity ((IZR dx * IZR dx + IZR dy * IZR dy)
                  / (pixel_distance px1 px2 * pixel_distance px1 px2));
      [field; lra|].
    rewrite <- Hpp. field. lra.
  - apply Rmult_le_pos; [|left; by apply Rinv_0_lt_compat].
    rewrite spec_haversine_a.
    destruct (asin_root_range _ Ha1) as [[Hlo _] _]. nra.
Qed.

Lemma reference_direction_is_a_unit_vector_witness :
  ∃ st1 st2 ux uy s,
    add_reference_point init "gcp1" (0, 0)%Z (0, 0) = Ok st1 ∧
    add_reference_point st1 "gcp2" (3, 4)%Z (1, 0) = Ok st2 ∧
    direction_vector st2 = Some (Finite ux, Finite uy) ∧
    ux * ux + uy * uy = 1 ∧
    scale_factor st2 = Some (Finite s) ∧ 0 <= s.
Proof.
  apply (reference_direction_is_a_unit_vector
           "gcp1" "gcp2" (0, 0)%Z (0, 0) (3, 4)%Z (1, 0)).
  - discriminate.
  - discriminate.
  - exact one_degree_within_quarter_circle.
Defined.

End GridFacts.
